(** * CUDAPolisher: the batch scheduler of [src/cuda/cudapolisher.cpp]

    A shallow embedding of [CUDAPolisher::find_overlap_breaking_points] and
    [CUDAPolisher::polish] (non-DEBUG build): the two [fill_next_batch]
    lambdas, the two [process_batch] lambdas, the [std::async] harness that
    runs one [process_batch] per batch unit, the host fallback pass and the
    loop that assembles the polished sequences.

    Conventions.
    - [uint32_t] and [uint64_t] values are [N]; every 32-bit operation that
      can wrap is written with [wrap32] or [sub32].  Indices into vectors are
      turned into [nat] with [N.to_nat] where a vector is read.
    - [std::vector] is [list]; [v.at(i)] is a lookup whose failure is the
      [out_of_range] exception, [v[i]] out of range is undefined behaviour.
    - The collaborators that are only declared in headers (the batch units,
      [Window], [Overlap], the thread pool) are interfaces: type classes
      whose methods carry the names used at the call sites.
    - Threads are modelled by interleaving: a schedule is a list of runner
      numbers, and each entry lets that runner perform its next atomic
      action.  Theorems quantify over all schedules. *)

From Stdlib Require Import NArith ZArith QArith String Lia Bool.
From stdpp Require Import base list gmap.

Local Open Scope N_scope.

(** ** Machine integers *)

Definition wrap32 (n : N) : N := n mod 2 ^ 32.

(** [a - b] on two [uint32_t] values. *)
Definition sub32 (a b : N) : N := (a + 2 ^ 32 - b mod 2 ^ 32) mod 2 ^ 32.

(** ** Outcomes of a piece of code

    [Ret s a]: normal completion in state [s] with value [a];
    [Throw s e]: a C++ exception [e] leaves the code, the state being [s];
    [Undefined]: the code has executed an operation without defined
    behaviour (integer division by zero, [operator[]] out of range);
    [Exit c]: the code has called [exit(c)]. *)

Inductive exn : Type :=
| out_of_range
| runtime_error (what : string).

Inductive outcome (S A : Type) : Type :=
| Ret (s : S) (a : A)
| Throw (s : S) (e : exn)
| Undefined
| Exit (code : N).

Arguments Ret {S A} s a.
Arguments Throw {S A} s e.
Arguments Undefined {S A}.
Arguments Exit {S A} code.

(** ** The collaborators declared outside this file *)

(** [CUDABatchProcessor] (cudabatch.hpp): the window-consensus batch unit. *)
Class CUDABatchProcessor (B W : Type) : Type := {
  createCUDABatch : N -> N -> N -> B;
  reset : B -> B;
  addWindow : B -> W -> bool * B;
  hasWindows : B -> bool;
  generateConsensus : B -> list bool * B;
}.

(** [CUDABatchAligner] (cudaaligner.hpp): the overlap-alignment batch unit.
    [addOverlap] also receives [sequences_]; the vector is fixed during a
    run and is part of the instance. *)
Class CUDABatchAligner (B O : Type) : Type := {
  createCUDABatchAligner : N -> N -> N -> N -> B;
  aligner_reset : B -> B;
  addOverlap : B -> O -> bool * B;
  hasOverlaps : B -> bool;
  alignAll : B -> B;
  find_breaking_points : B -> N -> B;
  getBatchID : B -> N;
}.

(** [Window] (window.hpp) as far as this file uses it.  [consensus w] is the
    text the window holds when the output loop reads it. *)
Class WindowOps (W E : Type) : Type := {
  rank : W -> N;
  id : W -> N;
  consensus : W -> string;
  generate_consensus : W -> E -> bool;
}.

(** ** The loop shared by both [fill_next_batch] lambdas

<<
    while (next < count) {
        if (batch->add(items.at(next))) { next++; } else { break; }
    }
>>
    The result is the final [next], the batch, and the exception raised by
    [items.at], if any.  [fuel] bounds the number of iterations; the callers
    pass [count - next], which the loop cannot exceed
    ([fill_loop_fuel_stable]). *)

Section FillLoop.
Context {I B : Type}.
Variable add : B -> I -> bool * B.
Variable items : list I.
Variable count : N.

Fixpoint fill_loop (fuel : nat) (next : N) (batch : B) : N * B * option exn :=
  match fuel with
  | O => (next, batch, None)
  | S fuel' =>
      if next <? count then
        match items !! N.to_nat next with
        | None => (next, batch, Some out_of_range)
        | Some it =>
            let '(ok, batch') := add batch it in
            if ok then fill_loop fuel' (wrap32 (next + 1)) batch'
            else (next, batch', None)
        end
      else (next, batch, None)
  end.
End FillLoop.

(** ** The [std::async] harness

    Both functions start one thread per batch unit,
<<
    thread_futures.emplace_back(std::async(std::launch::async, process_batch, unit));
    ...
    for (const auto& future : thread_futures) { future.wait(); }
>>
    and both [process_batch] lambdas have the shape
<<
    while (true) { range = fill_next_batch(batch);
                   if (batch->has...()) { ...execute... } else { break; } }
>>
    A runner is at one of four control points.  An exception that leaves
    [process_batch] is stored in the shared state of the runner's future;
    [future.wait()] only blocks until that state is ready and does not
    rethrow it ([future.get()] is never called), so a runner that raised is,
    for the main thread, a runner that has finished. *)

Inductive phase : Type :=
| Idle                       (* about to call fill_next_batch *)
| Filled (range : N * N)     (* batch is non-empty, about to execute it *)
| Returned                   (* left the loop through break *)
| Raised (e : exn).          (* left the lambda through an exception *)

Inductive halt : Type :=
| HaltUndefined
| HaltExit (code : N).

Record sys (Sh B : Type) : Type := MkSys {
  sys_shared : Sh;                   (* what the lambdas capture by reference *)
  sys_units : list (B * phase);      (* one runner per batch unit *)
  sys_halt : option halt;            (* the whole process has stopped *)
  sys_issued : list (N * N);         (* ranges returned by fill_next_batch, in lock order *)
  sys_launched : list (N * N);       (* ranges of the batches that were executed *)
}.

Arguments MkSys {Sh B}.
Arguments sys_shared {Sh B}.
Arguments sys_units {Sh B}.
Arguments sys_halt {Sh B}.
Arguments sys_issued {Sh B}.
Arguments sys_launched {Sh B}.

Section Harness.
Context {Sh B : Type}.
Variable fill : Sh -> B -> outcome (Sh * B) (N * N).
Variable has_work : B -> bool.
Variable execute : N * N -> Sh -> B -> outcome (Sh * B) unit.

(** One atomic action of runner [i]: either the call of [fill_next_batch]
    (the lock is held for its whole loop) together with the test of the
    batch, or the execution of the filled batch. *)
Definition process_batch_step (i : nat) (s : sys Sh B) : sys Sh B :=
  match sys_halt s with
  | Some _ => s
  | None =>
      match sys_units s !! i with
      | Some (b, Idle) =>
          match fill (sys_shared s) b with
          | Ret (sh, b') range =>
              MkSys sh
                (<[i := (b', if has_work b' then Filled range else Returned)]> (sys_units s))
                None (sys_issued s ++ [range]) (sys_launched s)
          | Throw (sh, b') e =>
              MkSys sh (<[i := (b', Raised e)]> (sys_units s)) None
                (sys_issued s) (sys_launched s)
          | Undefined =>
              MkSys (sys_shared s) (sys_units s) (Some HaltUndefined)
                (sys_issued s) (sys_launched s)
          | Exit c =>
              MkSys (sys_shared s) (sys_units s) (Some (HaltExit c))
                (sys_issued s) (sys_launched s)
          end
      | Some (b, Filled range) =>
          match execute range (sys_shared s) b with
          | Ret (sh, b') _ =>
              MkSys sh (<[i := (b', Idle)]> (sys_units s)) None
                (sys_issued s) (sys_launched s ++ [range])
          | Throw (sh, b') e =>
              MkSys sh (<[i := (b', Raised e)]> (sys_units s)) None
                (sys_issued s) (sys_launched s ++ [range])
          | Undefined =>
              MkSys (sys_shared s) (sys_units s) (Some HaltUndefined)
                (sys_issued s) (sys_launched s)
          | Exit c =>
              MkSys (sys_shared s) (sys_units s) (Some (HaltExit c))
                (sys_issued s) (sys_launched s)
          end
      | _ => s
      end
  end.

Definition run (sched : list nat) (s : sys Sh B) : sys Sh B :=
  fold_left (fun s i => process_batch_step i s) sched s.

Definition phase_done (p : phase) : bool :=
  match p with
  | Idle | Filled _ => false
  | Returned | Raised _ => true
  end.

(** Every future is ready, or the process is gone. *)
Definition settled (s : sys Sh B) : bool :=
  match sys_halt s with
  | Some _ => true
  | None => forallb (fun u => phase_done (snd u)) (sys_units s)
  end.

(** The first runner that has not finished. *)
Definition next_runner (s : sys Sh B) : option nat :=
  fst <$> list_find (fun u => phase_done (snd u) = false) (sys_units s).

(** Lets the unfinished runners act, the first one each time, for at
    most [fuel] actions. *)
Fixpoint finish (fuel : nat) (s : sys Sh B) : sys Sh B :=
  match fuel with
  | O => s
  | S fuel' =>
      match sys_halt s, next_runner s with
      | None, Some i => finish fuel' (process_batch_step i s)
      | _, _ => s
      end
  end.

(** The threads run under schedule [sched]; the main thread then waits
    for all futures.  A schedule that stops before every runner has
    finished is completed by [finish]; a schedule that brings every
    runner to its end is left as it is, so that every interleaving of
    the runners is the run of some schedule.  [None]: some runner is
    still looping after [fuel] more actions. *)
Definition run_and_wait (sched : list nat) (fuel : nat) (s : sys Sh B)
  : option (sys Sh B) :=
  let s' := finish fuel (run sched s) in
  if settled s' then Some s' else None.

Definition launch (sh : Sh) (units : list B) : sys Sh B :=
  MkSys sh (map (fun b => (b, Idle)) units) None [] [].
End Harness.

(** The half-open index range [[first, second)]. *)
Definition indices (range : N * N) : list nat :=
  seq (N.to_nat (fst range)) (N.to_nat (snd range) - N.to_nat (fst range)).

(** ** [CUDAPolisher::find_overlap_breaking_points] *)

Module Overlaps.
Section Defs.
Context {B O : Type} `{!CUDABatchAligner B O}.
Variable overlaps : list O.
Variable window_length_ : N.

(** What the lambdas capture by reference; [stderr_lines] records the
    arguments of the [fprintf] calls. *)
Record shared : Type := MkShared {
  next_overlap_index : N;
  stderr_lines : list (N * N * N * N);
}.

Definition fill_next_batch (sh : shared) (batch : B)
  : outcome (shared * B) (N * N) :=
  let batch := aligner_reset batch in
  let initial_count := next_overlap_index sh in
  let count := wrap32 (N.of_nat (length overlaps)) in
  let '(next, batch, e) :=
    fill_loop addOverlap overlaps count
      (N.to_nat (count - initial_count)) initial_count batch in
  match e with
  | Some e => Throw (MkShared next (stderr_lines sh), batch) e
  | None =>
      let lines :=
        if 0 <? sub32 next initial_count
        then stderr_lines sh ++ [(initial_count, next, count, getBatchID batch)]
        else stderr_lines sh in
      Ret (MkShared next lines, batch) (initial_count, next)
  end.

(** The branch of [process_batch] taken when [batch->hasOverlaps()]. *)
Definition launch_workload (range : N * N) (sh : shared) (batch : B)
  : outcome (shared * B) unit :=
  let batch := alignAll batch in
  let batch := find_breaking_points batch window_length_ in
  Ret (sh, batch) tt.

Definition process_batch_step := process_batch_step fill_next_batch hasOverlaps launch_workload.

Definition create_aligners (cuda_batches_ : N) : list B :=
  replicate (N.to_nat cuda_batches_) (createCUDABatchAligner 20000 20000 1000 0).

(** The result of the function: the state of the accelerator phase after
    all futures are ready, and the vector handed to
    [Polisher::find_overlap_breaking_points], which is the whole of
    [overlaps] whatever the accelerator phase did. *)
Record report : Type := MkReport {
  accelerator : sys shared B;
  host_pass : list O;
}.

Definition find_overlap_breaking_points (cuda_batches_ : N) (sched : list nat)
  : option report :=
  let units := create_aligners cuda_batches_ in
  let fuel := (2 * length overlaps + 2 * length units)%nat in
  match run_and_wait fill_next_batch hasOverlaps launch_workload sched fuel
          (launch (MkShared 0 []) units) with
  | None => None
  | Some s => Some (MkReport s overlaps)
  end.
End Defs.
End Overlaps.

(** ** [CUDAPolisher::polish] *)

(** The logger used by racon has a fixed size of 20 bins. *)
Definition RACON_LOGGER_BIN_SIZE : N := 20.

Inductive PolisherType : Type := kC | kF.

(** The value of [num / static_cast<double>(den)] for two unsigned 32-bit
    operands: the quotient (a double holds the nearest representable value;
    the rounding keeps the sign and cannot reach zero from a non-zero
    quotient of such operands), or what IEEE 754 gives for a zero divisor. *)
Inductive double : Type :=
| Quot (q : Q)
| Inf
| NaN.

Definition fdiv (num den : N) : double :=
  match den with
  | N0 => if num =? 0 then NaN else Inf
  | Npos p => Quot (Z.of_N num # p)
  end.

(** [d > 0]. *)
Definition double_gt0 (d : double) : bool :=
  match d with
  | Quot q => (0 <? Qnum q)%Z
  | Inf => true
  | NaN => false
  end.

(** The record made by [createSequence(name + tags, polished_data)].  The
    tag string is kept as its parts: the ["r"] prefix and the numbers after
    [LN:i:], [RC:i:] and [XC:f:]. *)
Record Sequence : Type := MkSequence {
  seq_name : string;
  tag_r : bool;
  tag_LN : N;
  tag_RC : N;
  tag_XC : double;
  seq_data : string;
}.

(** [v.resize(n, x)]: elements beyond [n] are dropped, missing ones are [x]. *)
Definition resize {A : Type} (v : list A) (n : nat) (x : A) : list A :=
  take n v ++ replicate (n - length v) x.

(** Runs [body] for each index in turn, as long as it completes normally. *)
Fixpoint for_each {S : Type} (body : S -> nat -> outcome S unit)
  (indexes : list nat) (st : S) : outcome S unit :=
  match indexes with
  | [] => Ret st tt
  | i :: rest =>
      match body st i with
      | Ret st' _ => for_each body rest st'
      | other => other
      end
  end.

Module Polish.
Section Defs.
Context {B W E : Type} `{!CUDABatchProcessor B W} `{!WindowOps W E}.

(** Members of the polisher that [polish] reads. *)
Variable cuda_batches_ : N.
Variable num_devices_ : N.
Variable windows_ : list W.
Variable sequences_ : list string.          (* sequences_[k]->name() *)
Variable targets_coverages_ : list N.
Variable type_ : PolisherType.
Variable thread_to_id_ : gmap nat N.
Variable alignment_engines_ : list E.

Definition MAX_WINDOWS : N := 256.
Definition MAX_DEPTH_PER_WINDOW : N := 200.

(** *** Binning the batches into the devices *)

(** [for (i = 0; i < cuda_batches_; i++) { device = i % num_devices_;
    batches_per_gpu.at(device) = batches_per_gpu.at(device) + 1; }] *)
Fixpoint bin_batches (todo : nat) (i : N) (batches_per_gpu : list N)
  : outcome (list N) unit :=
  match todo with
  | O => Ret batches_per_gpu tt
  | S todo' =>
      if num_devices_ =? 0 then Undefined
      else
        let device := N.to_nat (wrap32 (i mod num_devices_)) in
        match batches_per_gpu !! device with
        | None => Throw batches_per_gpu out_of_range
        | Some c =>
            bin_batches todo' (wrap32 (i + 1))
              (<[device := wrap32 (c + 1)]> batches_per_gpu)
        end
  end.

Definition create_batches (batches_per_gpu : list N) : list B :=
  concat (imap (fun device c =>
                  replicate (N.to_nat c)
                    (createCUDABatch MAX_WINDOWS MAX_DEPTH_PER_WINDOW (N.of_nat device)))
               batches_per_gpu).

(** *** The accelerator phase *)

(** What the lambdas capture by reference.  [bar_calls] counts the calls
    of the progress bar; [accel_writes] lists, in order, the assignments
    [window_consensus_status_.at(k) = v] made by [process_batch]. *)
Record shared : Type := MkShared {
  next_window_index : N;
  last_logger_count : N;
  bar_calls : nat;
  window_consensus_status_ : list bool;
  accel_writes : list (nat * bool);
}.

Definition logger_step : N :=
  wrap32 (N.of_nat (length windows_) / RACON_LOGGER_BIN_SIZE).

Definition fill_next_batch (sh : shared) (batch : B)
  : outcome (shared * B) (N * N) :=
  let batch := reset batch in
  let initial_count := next_window_index sh in
  let count := wrap32 (N.of_nat (length windows_)) in
  let '(next, batch, e) :=
    fill_loop addWindow windows_ count
      (N.to_nat (count - initial_count)) initial_count batch in
  let status := window_consensus_status_ sh in
  let writes := accel_writes sh in
  match e with
  | Some e =>
      Throw (MkShared next (last_logger_count sh) (bar_calls sh) status writes, batch) e
  | None =>
      (* uint32_t logger_count = initial_count / logger_step; *)
      if logger_step =? 0 then Undefined
      else
        let logger_count := initial_count / logger_step in
        if (0 <? sub32 next initial_count) && (last_logger_count sh <? logger_count)
        then Ret (MkShared next (wrap32 (last_logger_count sh + 1))
                    (S (bar_calls sh)) status writes, batch)
                 (initial_count, next)
        else Ret (MkShared next (last_logger_count sh) (bar_calls sh) status writes, batch)
                 (initial_count, next)
  end.

(** [for (i = 0; i < results.size(); i++)
      window_consensus_status_.at(range.first + i) = results.at(i);]
    on the results that remain from position [i] on. *)
Fixpoint copy_results (first i : N) (results : list bool)
  (status : list bool) (writes : list (nat * bool))
  : list bool * list (nat * bool) * option exn :=
  match results with
  | [] => (status, writes, None)
  | r :: rest =>
      let k := N.to_nat (wrap32 (first + i)) in
      if decide (k < length status)%nat
      then copy_results first (wrap32 (i + 1)) rest (<[k := r]> status) (writes ++ [(k, r)])
      else (status, writes, Some out_of_range)
  end.

(** The branch of [process_batch] taken when [batch->hasWindows()]. *)
Definition launch_workload (range : N * N) (sh : shared) (batch : B)
  : outcome (shared * B) unit :=
  let '(results, batch) := generateConsensus batch in
  if negb (N.of_nat (length results) =? sub32 (snd range) (fst range))
  then Throw (sh, batch)
         (runtime_error "Windows processed doesn't match range of windows passed to batch")
  else
    let '(status, writes, e) :=
      copy_results (fst range) 0 results (window_consensus_status_ sh) (accel_writes sh) in
    let sh' := MkShared (next_window_index sh) (last_logger_count sh) (bar_calls sh)
                 status writes in
    match e with
    | Some e => Throw (sh', batch) e
    | None => Ret (sh', batch) tt
    end.

Definition process_batch_step := process_batch_step fill_next_batch hasWindows launch_workload.

(** *** The fallback pass on the host thread pool *)

(** [for (i = 0; i < windows_.size(); ++i)
      if (window_consensus_status_.at(i) == false) submit_task(..., i)]:
    the indexes submitted, in order. *)
Definition submit_failed (status : list bool) (tasks : list nat) (i : nat)
  : outcome (list nat) unit :=
  match status !! i with
  | None => Throw tasks out_of_range
  | Some false => Ret (tasks ++ [i]) tt
  | Some true => Ret tasks tt
  end.

(** The task submitted for window [j], run by the pool thread [tid].  The
    state is the status vector and the list of the assignments made by
    the tasks so far. *)
Definition fallback_task (tid : nat) (st : list bool * list (nat * bool)) (j : nat)
  : outcome (list bool * list (nat * bool)) unit :=
  match thread_to_id_ !! tid with
  | None => Exit 1
  | Some e =>
      match windows_ !! j, alignment_engines_ !! N.to_nat e with
      | Some w, Some engine =>
          let r := generate_consensus w engine in
          if decide (j < length (fst st))%nat
          then Ret (<[j := r]> (fst st), snd st ++ [(j, r)]) tt
          else Ret st tt          (* at(j) throws into the task's future *)
      | _, _ => Undefined
      end
  end.

(** The pool decides which thread runs which task: [worker_of j] is the
    thread that runs the task of window [j].  The tasks are run in the
    order [tasks]; each writes only its own index
    ([run_tasks_order_irrelevant]). *)
Definition run_tasks (worker_of : nat -> nat) (tasks : list nat)
  (st : list bool * list (nat * bool))
  : outcome (list bool * list (nat * bool)) unit :=
  for_each (fun st j => fallback_task (worker_of j) st j) tasks st.

(** *** Collecting the results into the output *)

Record collector : Type := MkCollector {
  polished_data : string;
  num_polished_windows : N;
  dst : list Sequence;
}.

Definition collect_window (drop_unpolished_sequences : bool) (status : list bool)
  (st : collector) (i : nat) : outcome collector unit :=
  match status !! i with
  | None => Throw st out_of_range
  | Some ok =>
      match windows_ !! i with
      | None => Undefined
      | Some w =>
          let num := wrap32 (num_polished_windows st + (if (ok : bool) then 1 else 0)) in
          let data := (polished_data st ++ consensus w)%string in
          let last_of_sequence :=
            if decide (i = length windows_ - 1)%nat then Some true
            else (fun w' => rank w' =? 0) <$> windows_ !! S i in
          match last_of_sequence with
          | None => Undefined
          | Some false => Ret (MkCollector data num (dst st)) tt
          | Some true =>
              let polished_ratio := fdiv num (wrap32 (rank w + 1)) in
              if negb drop_unpolished_sequences || double_gt0 polished_ratio
              then
                match sequences_ !! N.to_nat (id w), targets_coverages_ !! N.to_nat (id w) with
                | Some name, Some coverage =>
                    Ret (MkCollector EmptyString 0
                           (dst st ++ [MkSequence name
                                         (match type_ with kF => true | kC => false end)
                                         (N.of_nat (String.length data))
                                         coverage polished_ratio data])) tt
                | _, _ => Undefined
                end
              else Ret (MkCollector EmptyString 0 (dst st)) tt
          end
      end
  end.

Definition collect (drop_unpolished_sequences : bool) (status : list bool)
  (dst0 : list Sequence) : outcome collector unit :=
  for_each (collect_window drop_unpolished_sequences status)
    (seq 0 (length windows_)) (MkCollector EmptyString 0 dst0).

(** *** The function *)

(** The accelerator phase: units are created, the status vector is
    resized, the runners are started and joined.  [status0] is the value
    of the member [window_consensus_status_] before the call. *)
Definition accelerator_phase (status0 : list bool) (sched : list nat)
  : option (outcome (sys shared B) unit) :=
  match bin_batches (N.to_nat cuda_batches_) 0 (replicate (N.to_nat num_devices_) 0) with
  | Ret batches_per_gpu _ =>
      let batch_processors_ := create_batches batches_per_gpu in
      let status := resize status0 (length windows_) false in
      let fuel := (2 * length windows_ + 2 * length batch_processors_)%nat in
      match run_and_wait fill_next_batch hasWindows launch_workload sched fuel
              (launch (MkShared 0 0 0 status []) batch_processors_) with
      | None => None
      | Some s =>
          match sys_halt s with
          | Some HaltUndefined => Some Undefined
          | Some (HaltExit c) => Some (Exit c)
          | None => Some (Ret s tt)
          end
      end
  | Throw _ e => Some (Throw (launch (MkShared 0 0 0 status0 []) []) e)
  | Undefined => Some Undefined
  | Exit c => Some (Exit c)
  end.

(** The fallback pass on the status vector left by the accelerator
    phase: the tasks submitted, the final status vector and the
    assignments made by the tasks. *)
Definition fallback_phase (worker_of : nat -> nat) (status : list bool)
  : outcome (list nat * list bool * list (nat * bool)) unit :=
  match for_each (submit_failed status) (seq 0 (length windows_)) [] with
  | Ret tasks _ =>
      match run_tasks worker_of tasks (status, []) with
      | Ret (status', writes) _ => Ret (tasks, status', writes) tt
      | Throw (status', writes) e => Throw (tasks, status', writes) e
      | Undefined => Undefined
      | Exit c => Exit c
      end
  | Throw tasks e => Throw (tasks, status, []) e
  | Undefined => Undefined
  | Exit c => Exit c
  end.

(** [polish(dst, drop_unpolished_sequences)] on a polisher whose status
    vector is [status0].  The state of the outcome is the final status
    vector and [dst]. *)
Definition polish_from (status0 : list bool) (dst0 : list Sequence)
  (drop_unpolished_sequences : bool) (sched : list nat) (worker_of : nat -> nat)
  : option (outcome (list bool * list Sequence) unit) :=
  match accelerator_phase status0 sched with
  | None => None
  | Some (Ret s _) =>
      Some
        match fallback_phase worker_of (window_consensus_status_ (sys_shared s)) with
        | Ret (_, status, _) _ =>
            match collect drop_unpolished_sequences status dst0 with
            | Ret c _ => Ret (status, dst c) tt
            | Throw c e => Throw (status, dst c) e
            | Undefined => Undefined
            | Exit c => Exit c
            end
        | Throw (_, status, _) e => Throw (status, dst0) e
        | Undefined => Undefined
        | Exit c => Exit c
        end
  | Some (Throw s e) => Some (Throw (window_consensus_status_ (sys_shared s), dst0) e)
  | Some Undefined => Some Undefined
  | Some (Exit c) => Some (Exit c)
  end.

(** A polisher as its constructor leaves it: the status vector is empty. *)
Definition polish := polish_from [].
End Defs.
End Polish.

(** ** The contract of a batch unit

    What the scheduler relies on, stated with the list [held b] of the
    items a batch currently owns: [reset] empties the batch, an insertion
    is all or nothing, the readiness predicate tells whether the batch is
    non-empty. *)

Class InsertionContract {B I : Type} (reset : B -> B) (add : B -> I -> bool * B)
  (nonempty : B -> bool) (held : B -> list I) : Prop := {
  held_reset : forall b, held (reset b) = [];
  held_add_accepted : forall b it b', add b it = (true, b') -> held b' = held b ++ [it];
  held_add_refused : forall b it b', add b it = (false, b') -> held b' = held b;
  nonempty_held : forall b, nonempty b = true <-> held b <> [];
}.

(** Capacity at least one: an empty batch accepts any single item. *)
Definition accepts_first {B I : Type} (add : B -> I -> bool * B) (held : B -> list I) : Prop :=
  forall b it, held b = [] -> fst (add b it) = true.

(** One result per item held. *)
Definition results_match {B W : Type} `{!CUDABatchProcessor B W} (held : B -> list W) : Prop :=
  forall b, length (fst (generateConsensus b)) = length (held b).

(** ** Vocabulary of the statements *)

(** The ranges [rs] follow one another from [from] up to [to]: each starts
    where the one before it ended, and none runs backwards. *)
Fixpoint chained (from : N) (rs : list (N * N)) (to : N) : Prop :=
  match rs with
  | [] => from = to
  | r :: rs' => fst r = from /\ fst r <= snd r /\ chained (snd r) rs' to
  end.

(** How often index [i] occurs in a list of assignments. *)
Definition times_written (i : nat) (writes : list (nat * bool)) : nat :=
  length (filter (fun w => fst w = i) writes).

(** How often index [i] occurs in a list of indexes. *)
Definition occurrences (i : nat) (l : list nat) : nat :=
  length (filter (fun k => k = i) l).

(** The windows with their status, cut into source sequences: a sequence
    ends with the last window, or just before a window of rank 0. *)
Fixpoint source_sequences {W E : Type} `{!WindowOps W E} (ws : list (W * bool))
  : list (list (W * bool)) :=
  match ws with
  | [] => []
  | x :: rest =>
      match rest with
      | [] => [[x]]
      | y :: _ =>
          if rank (fst y) =? 0 then [x] :: source_sequences rest
          else
            match source_sequences rest with
            | g :: gs => (x :: g) :: gs
            | [] => [[x]]
            end
      end
  end.

(** The consensus texts of a list of windows, one after the other. *)
Definition window_texts {W E : Type} `{!WindowOps W E} (ws : list W) : string :=
  fold_right (fun w acc => (consensus w ++ acc)%string) EmptyString ws.

Section PerSequence.
Context {W E : Type} `{!WindowOps W E}.
Variable sequences_ : list string.
Variable targets_coverages_ : list N.
Variable type_ : PolisherType.

  (** The text of a source sequence: the consensus of every one of its
      windows, in order. *)
Definition sequence_text (g : list (W * bool)) : string :=
    fold_right (fun x acc => (consensus (fst x) ++ acc)%string) EmptyString g.

  (** The number of its windows whose consensus succeeded. *)
Definition succeeded_count (g : list (W * bool)) : N :=
    N.of_nat (length (filter (fun x => snd x = true) g)).

  (** succeeded count / (rank of the last window + 1). *)
Definition sequence_ratio (g : list (W * bool)) : double :=
    match last g with
    | Some x => fdiv (succeeded_count g) (rank (fst x) + 1)
    | None => NaN
    end.

Definition sequence_kept (drop_unpolished_sequences : bool) (g : list (W * bool)) : bool :=
    negb drop_unpolished_sequences || double_gt0 (sequence_ratio g).

  (** The record of a source sequence. *)
Definition sequence_record (g : list (W * bool)) : option Sequence :=
    x ← last g;
    name ← sequences_ !! N.to_nat (id (fst x));
    coverage ← targets_coverages_ !! N.to_nat (id (fst x));
    Some (MkSequence name (match type_ with kF => true | kC => false end)
            (N.of_nat (String.length (sequence_text g))) coverage
            (sequence_ratio g) (sequence_text g)).

(** What a source sequence contributes to the output. *)
Definition emitted (drop_unpolished_sequences : bool) (g : list (W * bool))
  : option Sequence :=
  if sequence_kept drop_unpolished_sequences g then sequence_record g else None.

(** The source sequences of [rest], the first of them continuing the
    windows [open] that the loop has already read. *)
Definition continued_sequences (open rest : list (W * bool)) : list (list (W * bool)) :=
  match source_sequences rest with
  | g :: gs => (open ++ g) :: gs
  | [] => []
  end.
End PerSequence.

(** ** Stub collaborators, for the examples *)

Record test_window : Type := MkTestWindow {
  tw_id : N;
  tw_rank : N;
  tw_text : string;
  tw_accel : bool;     (* what a batch unit reports for the window *)
  tw_host : bool;      (* what generate_consensus returns on the host *)
}.

#[export] Instance test_window_ops : WindowOps test_window unit := {|
  rank := tw_rank;
  id := tw_id;
  consensus := tw_text;
  generate_consensus := fun w _ => tw_host w;
|}.

(** A batch unit for [capacity] windows that leaves out the last [missing]
    results. *)
Definition test_processor (capacity missing : nat)
  : CUDABatchProcessor (list test_window) test_window := {|
  createCUDABatch := fun _ _ _ => [];
  reset := fun _ => [];
  addWindow := fun b w =>
    if decide (length b < capacity)%nat then (true, b ++ [w]) else (false, b);
  hasWindows := fun b => match b with [] => false | _ => true end;
  generateConsensus := fun b => (take (length b - missing) (map tw_accel b), b);
|}.

(** A batch unit for [capacity] overlaps; overlaps are plain numbers. *)
Definition test_aligner (capacity : nat) : CUDABatchAligner (list nat) nat := {|
  createCUDABatchAligner := fun _ _ _ _ => [];
  aligner_reset := fun _ => [];
  addOverlap := fun b o =>
    if decide (length b < capacity)%nat then (true, b ++ [o]) else (false, b);
  hasOverlaps := fun b => match b with [] => false | _ => true end;
  alignAll := fun b => b;
  find_breaking_points := fun b _ => b;
  getBatchID := fun _ => 0;
|}.

(** [n] windows of one source sequence (ranks 0, 1, ...): the accelerator
    succeeds on the windows whose rank satisfies [accel], the host on those
    whose rank satisfies [host]. *)
Definition test_windows (n : nat) (accel host : nat -> bool) : list test_window :=
  map (fun k => MkTestWindow 0 (N.of_nat k) "A" (accel k) (host k)) (seq 0 n).

(** Windows with the given ranks and texts, all of sequence 0. *)
Definition ranked_windows (ranks : list (N * string)) : list test_window :=
  map (fun r => MkTestWindow 0 (fst r) (snd r) false true) ranks.

(** ** Notions used by the invariants *)

(** The range a runner holds between its fill and its execution. *)
Definition held_range (p : phase) : list (N * N) :=
  match p with
  | Filled range => [range]
  | _ => []
  end.

(** The ranges issued to runners that have not yet executed them. *)
Definition pending {B : Type} (units : list (B * phase)) : list (N * N) :=
  flat_map (fun u => held_range (snd u)) units.

(** A bound on the actions a runner at this control point still performs
    without a new fill. *)
Definition weight (p : phase) : nat :=
  match p with
  | Idle => 1
  | Filled _ => 2
  | Returned | Raised _ => 0
  end.

Definition load {B : Type} (units : list (B * phase)) : nat :=
  sum_list_with (fun u => weight (snd u)) units.

(** A bound on the actions that remain: two per item not yet issued, plus
    the load of the runners. *)
Definition potential {Sh B : Type} (cursor : Sh -> N) (limit : N) (s : sys Sh B) : nat :=
  match sys_halt s with
  | Some _ => 0
  | None => 2 * N.to_nat (limit - cursor (sys_shared s)) + load (sys_units s)
  end.

(** What the contract of the batch unit guarantees of a runner, the cursor
    being at [c]: a filled batch is [ready] for its range, and a runner
    has returned only once the collection was exhausted. *)
Definition runner_ok {B : Type} (ready : N * N -> B -> Prop) (limit c : N)
  (u : B * phase) : Prop :=
  match snd u with
  | Idle => True
  | Filled range => ready range (fst u)
  | Returned => c = limit
  | Raised _ => False
  end.

Definition healthy {Sh B : Type} (cursor : Sh -> N) (good : Sh -> Prop)
  (ready : N * N -> B -> Prop) (limit : N) (s : sys Sh B) : Prop :=
  sys_halt s = None /\ good (sys_shared s) /\
  Forall (runner_ok ready limit (cursor (sys_shared s))) (sys_units s) /\
  chained 0 (sys_issued s) (cursor (sys_shared s)).

(** The invariant of the accelerator phase of [polish], for any batch
    unit: the issued ranges form a chain that ends at the cursor; what was
    executed or is about to be was issued; the assignments to the status
    vector stay inside the executed ranges; the status vector holds the
    value assigned last, and [false] where nothing was assigned. *)
Section PolishInvariant.
Context {B W : Type}.
Variable windows_ : list W.

Definition accel_inv (s : sys Polish.shared B) : Prop :=
  let sh := sys_shared s in
  chained 0 (sys_issued s) (Polish.next_window_index sh) /\
  Polish.next_window_index sh <= wrap32 (N.of_nat (length windows_)) /\
  sys_launched s ++ pending (sys_units s) ⊆+ sys_issued s /\
  length (Polish.window_consensus_status_ sh) = length windows_ /\
  map fst (Polish.accel_writes sh) ⊆+ flat_map indices (sys_launched s) /\
  (forall k v, (k, v) ∈ Polish.accel_writes sh ->
     Polish.window_consensus_status_ sh !! k = Some v) /\
  (forall k, (k < length windows_)%nat -> k ∉ map fst (Polish.accel_writes sh) ->
     Polish.window_consensus_status_ sh !! k = Some false).
End PolishInvariant.

(** What the fallback task of window [j] computes when the pool runs it on
    thread [worker_of j]: nothing if that thread has no context. *)
Section HostResult.
Context {W E : Type} `{!WindowOps W E}.
Variable windows_ : list W.
Variable thread_to_id_ : gmap nat N.
Variable alignment_engines_ : list E.
Variable worker_of : nat -> nat.

Definition host_result (j : nat) : option bool :=
  e ← thread_to_id_ !! worker_of j;
  w ← windows_ !! j;
  engine ← alignment_engines_ !! N.to_nat e;
  Some (generate_consensus w engine).

(** The indexes whose status is [false]. *)
Definition failed_windows (status : list bool) : list nat :=
  filter (fun i => status !! i = Some false) (seq 0 (length windows_)).
End HostResult.

(** ** The inputs of the examples *)

(** Twenty windows of one sequence; the batch unit fails on the first. *)
Definition twenty_windows : list test_window :=
  test_windows 20 (fun k => negb (Nat.eqb k 0)) (fun _ => true).

(** One pool thread, number 7, with the context 0. *)
Definition one_context : gmap nat N := {[ 7%nat := 0 ]}.

Definition on_thread_7 : nat -> nat := fun _ => 7%nat.

(** [polish] on test windows, with [cuda_batches] units for [capacity]
    windows that leave out [missing] results, on one device, for a
    polisher with one sequence, one pool thread and one engine. *)
Definition test_polish (capacity missing : nat) (cuda_batches : N)
  (windows : list test_window) (drop_unpolished_sequences : bool) (sched : list nat)
  : option (outcome (list bool * list Sequence) unit) :=
  @Polish.polish _ _ _ (test_processor capacity missing) test_window_ops
    cuda_batches 1 windows ["contig"%string] [3] kC one_context [tt]
    [] drop_unpolished_sequences sched on_thread_7.

Definition test_accelerator_phase (capacity missing : nat) (cuda_batches : N)
  (windows : list test_window) (sched : list nat)
  : option (outcome (sys Polish.shared (list test_window)) unit) :=
  @Polish.accelerator_phase _ _ (test_processor capacity missing)
    cuda_batches 1 windows [] sched.

Definition test_fallback_phase (windows : list test_window) (status : list bool)
  : outcome (list nat * list bool * list (nat * bool)) unit :=
  @Polish.fallback_phase _ _ test_window_ops windows one_context [tt] on_thread_7 status.

Definition test_collect (windows : list test_window) (drop_unpolished_sequences : bool)
  (status : list bool) : outcome Polish.collector unit :=
  @Polish.collect _ _ test_window_ops windows ["contig"%string] [3] kC
    drop_unpolished_sequences status [].

(** The runners of [polish] on test windows, [units] of them, started on
    a status vector of [false], and joined. *)
Definition test_runners (capacity missing : nat) (windows : list test_window)
  (units : nat) (sched : list nat) : option (sys Polish.shared (list test_window)) :=
  run_and_wait
    (@Polish.fill_next_batch _ _ (test_processor capacity missing) windows)
    (@hasWindows _ _ (test_processor capacity missing))
    (@Polish.launch_workload _ _ (test_processor capacity missing))
    sched (2 * length windows + 2 * units)
    (launch (Polish.MkShared 0 0 0 (resize [] (length windows) false) [])
       (replicate units [])).

(** Five windows of one sequence. *)
Definition five_windows : list test_window :=
  test_windows 5 (fun _ => true) (fun _ => true).

(** ** The readings of "exactly once" that the code does not satisfy *)

(** Every index below [n] is assigned exactly once, by an accelerator
    result or by the fallback pass. *)
Definition mutated_exactly_once (accel fallback : list (nat * bool)) (n : nat) : Prop :=
  forall i, (i < n)%nat -> times_written i (accel ++ fallback) = 1%nat.

(** Every item below [n] is processed exactly once, by an executed batch
    or on the host. *)
Definition processed_exactly_once (launched : list (N * N)) (host : list nat) (n : nat)
  : Prop :=
  forall i, (i < n)%nat ->
    (occurrences i (flat_map indices launched) + occurrences i host = 1)%nat.

(** The state in which the accelerator phase ends, if it ends normally. *)
Definition joined_state {Sh B : Type} (fallback : sys Sh B)
  (r : option (outcome (sys Sh B) unit)) : sys Sh B :=
  match r with
  | Some (Ret s _) => s
  | _ => fallback
  end.

(** One unit with room for all twenty windows, honest about its results,
    run to its end. *)
Definition twenty_joined : sys Polish.shared (list test_window) :=
  joined_state (launch (Polish.MkShared 0 0 0 [] []) [])
    (test_accelerator_phase 20 0 1 twenty_windows []).

(** Five windows of two source sequences, with ranks 0, 1, 2, 0, 1. *)
Definition two_sequences : list test_window :=
  ranked_windows [(0, "a"); (1, "b"); (2, "c"); (0, "d"); (1, "e")]%string.

(** Three windows of one source sequence. *)
Definition one_sequence : list test_window :=
  ranked_windows [(0, "a"); (1, "b"); (2, "c")]%string.

(** Three overlaps, one aligner unit with room for two, run to its end. *)
Definition three_overlaps_report : Overlaps.report (B := list nat) (O := nat) :=
  default (Overlaps.MkReport (launch (Overlaps.MkShared 0 []) []) [])
    (@Overlaps.find_overlap_breaking_points _ _ (test_aligner 2)
       [10; 11; 12]%nat 500 1 []).

(** ** Vocabulary of the statements on the messages of the aligner phase *)

(** The two bounds printed by a [fprintf] of the overlap filler. *)
Definition printed_range (line : N * N * N * N) : N * N :=
  (fst (fst (fst line)), snd (fst (fst line))).

(** The total printed after "of". *)
Definition printed_count (line : N * N * N * N) : N := snd (fst line).

(** The ranges that hold at least one index. *)
Definition nonempty_ranges (rs : list (N * N)) : list (N * N) :=
  filter (fun r => fst r < snd r) rs.

(** ** Vocabulary of the statements on the runners *)

(** The exception stored in the future of a runner, if it has raised. *)
Definition raised (p : phase) : option exn :=
  match p with
  | Raised e => Some e
  | _ => None
  end.

(** The exception of the size check of [process_batch]; the message is
    that of [launch_workload], the text of the literal without the
    whitespace of its line continuation. *)
Definition size_mismatch : exn :=
  runtime_error "Windows processed doesn't match range of windows passed to batch".

(** The runner has neither raised nor been handed a batch that is not
    [ready] for its range. *)
Definition runner_sound {B : Type} (ready : N * N -> B -> Prop) (u : B * phase) : Prop :=
  match snd u with
  | Raised _ => False
  | Filled range => ready range (fst u)
  | Idle | Returned => True
  end.

(** What ends a phase before the collection is exhausted: the item at
    index [c] is refused by a batch that holds nothing. *)
Definition refused_by_an_empty_batch {B I : Type} (add : B -> I -> bool * B)
  (held : B -> list I) (items : list I) (c : N) : Prop :=
  exists it b b', items !! N.to_nat c = Some it /\ held b = [] /\ add b it = (false, b').

(** The state of runners that keep their contract: nothing has stopped
    the process, the shared state is [good], every runner is sound, and
    once all of a non-empty list of runners have returned the cursor is
    at a place where a fill hands out nothing. *)
Definition stops_last {Sh B : Type} (cursor : Sh -> N) (good : Sh -> Prop)
  (ready : N * N -> B -> Prop) (stop : N -> Prop) (s : sys Sh B) : Prop :=
  sys_halt s = None /\ good (sys_shared s) /\
  Forall (runner_sound ready) (sys_units s) /\
  (sys_units s <> [] -> Forall (fun u => snd u = Returned) (sys_units s) ->
   stop (cursor (sys_shared s))).

(** The number of the batches [0 .. cuda_batches - 1] that the binning
    loop of [polish] gives to device [d]: those [i] with
    [i % num_devices = d]. *)
Definition round_robin_share (cuda_batches num_devices d : N) : N :=
  (cuda_batches + num_devices - 1 - d) / num_devices.

(** [if (logger_step != 0) { bar(...); } else { log(...); }] after the
    fallback pass: the calls of [bar] and of [log] made so far, updated. *)
Definition report_generated_consensus {W : Type} (windows_ : list W)
  (calls : nat * nat) : nat * nat :=
  if Polish.logger_step windows_ =? 0
  then (fst calls, S (snd calls))
  else (S (fst calls), snd calls).

(** The ranks of the windows count the windows of each source sequence:
    the first window has rank 0, and every other window has rank 0 or
    the rank of the window before it plus one.  [prev] is the rank of the
    window before the list, if there is one. *)
Fixpoint ranks_follow {W E : Type} `{!WindowOps W E} (prev : option N) (ws : list W) : Prop :=
  match ws with
  | [] => True
  | w :: rest =>
      (rank w = 0 \/ exists p, prev = Some p /\ rank w = p + 1) /\
      ranks_follow (Some (rank w)) rest
  end.

(** The texts of a list of records, one after the other. *)
Definition record_texts (records : list Sequence) : string :=
  fold_right (fun r acc => (seq_data r ++ acc)%string) EmptyString records.

(** ** [CUDAPolisher::CUDAPolisher] *)

(** The GenomeWorks initialisers and the CUDA runtime, as far as the
    constructor uses them.  The three CUDA methods are the calls together
    with their [GW_CU_CHECK_ERR] wrapper, which cudautils.hpp declares:
    whatever the wrapper does on an error is the outcome of the method.
    [cudaGetDeviceCount] returns the value it stores in [num_devices_]. *)
Class CudaRuntime (R : Type) : Type := {
  cudapoa_Init : R -> outcome R unit;
  cudaaligner_Init : R -> outcome R unit;
  cudaGetDeviceCount : R -> outcome R Z;
  cudaSetDevice : R -> Z -> outcome R unit;
  cudaFree_0 : R -> outcome R unit;
}.

(** The lines written to [std::cerr] by the constructor. *)
Inductive message : Type :=
| Using_GPUs (num_devices : Z)       (* "Using n GPU(s) to perform polishing" *)
| Initialize_device (dev_id : Z)     (* "Initialize device d" *)
| Constructed.                       (* "[CUDAPolisher] Constructed." *)

(** The members that the constructor sets. *)
Record members : Type := MkMembers {
  cuda_batches_ : N;
  gap_ : Z;
  mismatch_ : Z;
  match_ : Z;
  cuda_banded_alignment_ : bool;
  num_devices_ : Z;
}.

(** Runs [next] after [first], if [first] completes normally. *)
Definition and_then {S A C : Type} (first : outcome S A) (next : S -> A -> outcome S C)
  : outcome S C :=
  match first with
  | Ret s a => next s a
  | Throw s e => Throw s e
  | Undefined => Undefined
  | Exit c => Exit c
  end.

Section Constructor.
Context {R : Type} `{!CudaRuntime R}.

(** The state: the runtime and the lines written so far. *)
Definition on_runtime {A : Type} (call : R -> outcome R A) (st : R * list message)
  : outcome (R * list message) A :=
  match call (fst st) with
  | Ret r a => Ret (r, snd st) a
  | Throw r e => Throw (r, snd st) e
  | Undefined => Undefined
  | Exit c => Exit c
  end.

(** [for (dev_id = 0; dev_id < num_devices_; dev_id++)
      { cerr << ...; cudaSetDevice(dev_id); cudaFree(0); }],
    for the [todo] devices from [dev_id] on. *)
Fixpoint initialize_devices (todo : nat) (dev_id : Z) (st : R * list message)
  : outcome (R * list message) unit :=
  match todo with
  | O => Ret st tt
  | S todo' =>
      let st := (fst st, snd st ++ [Initialize_device dev_id]) in
      and_then (on_runtime (fun r => cudaSetDevice r dev_id) st) (fun st _ =>
      and_then (on_runtime cudaFree_0 st) (fun st _ =>
      initialize_devices todo' (dev_id + 1) st))
  end.

(** The body of the constructor, after the constructor of [Polisher]. *)
Definition CUDAPolisher_constructor (cuda_batches : N) (gap mismatch match' : Z)
  (cuda_banded_alignment : bool) (r : R) : outcome (R * list message) members :=
  and_then (on_runtime cudapoa_Init (r, [])) (fun st _ =>
  and_then (on_runtime cudaaligner_Init st) (fun st _ =>
  and_then (on_runtime cudaGetDeviceCount st) (fun st num_devices =>
  if (num_devices <? 1)%Z
  then Throw st (runtime_error "No GPU devices found.")
  else
    let st := (fst st, snd st ++ [Using_GPUs num_devices]) in
    and_then (initialize_devices (Z.to_nat num_devices) 0 st) (fun st _ =>
    Ret (fst st, snd st ++ [Constructed])
      (MkMembers cuda_batches gap mismatch match' cuda_banded_alignment num_devices))))).
End Constructor.

(** A runtime with [devices] devices on which every call succeeds; its
    state is the list of the devices selected so far. *)
Definition test_runtime (devices : Z) : CudaRuntime (list Z) := {|
  cudapoa_Init := fun r => Ret r tt;
  cudaaligner_Init := fun r => Ret r tt;
  cudaGetDeviceCount := fun r => Ret r devices;
  cudaSetDevice := fun r dev_id => Ret (r ++ [dev_id]) tt;
  cudaFree_0 := fun r => Ret r tt;
|}.

(** * Proofs *)

(** ** Machine integers *)

Lemma wrap32_small n : n < 2 ^ 32 -> wrap32 n = n.
Proof. intros H. unfold wrap32. now apply N.mod_small. Qed.

Lemma wrap32_lt n : wrap32 n < 2 ^ 32.
Proof. unfold wrap32. apply N.mod_lt. discriminate. Qed.

Lemma wrap32_le n : wrap32 n <= n.
Proof. unfold wrap32. apply N.Div0.mod_le. Qed.

Lemma sub32_small a b : b <= a -> a < 2 ^ 32 -> sub32 a b = a - b.
Proof.
  intros Hba Ha. unfold sub32.
  rewrite (N.mod_small b) by lia.
  replace (a + 2 ^ 32 - b) with ((a - b) + 1 * 2 ^ 32) by lia.
  rewrite N.Div0.mod_add. apply N.mod_small. lia.
Qed.

(** ** The filling loop *)

Section FillLoopFacts.
Context {I B : Type}.
Variable add : B -> I -> bool * B.
Variable items : list I.
Variable count : N.
Hypothesis count_le_size : count <= N.of_nat (length items).
Hypothesis count_32 : count < 2 ^ 32.

Lemma fill_loop_in_range next :
  next < count -> is_Some (items !! N.to_nat next).
Proof. intros H. apply lookup_lt_is_Some. lia. Qed.

(** [items.at] is only reached below [count]: it never throws. *)
Lemma fill_loop_no_exn fuel next b :
  snd (fill_loop add items count fuel next b) = None.
Proof.
  revert next b. induction fuel as [|fuel IH]; intros next b; simpl; [done|].
  destruct (N.ltb_spec next count) as [Hlt|Hge]; [|done].
  destruct (fill_loop_in_range next Hlt) as [it ->].
  destruct (add b it) as [[] b']; [apply IH | done].
Qed.

(** The cursor only moves forwards, and not beyond [count]. *)
Lemma fill_loop_cursor fuel next b :
  next <= fst (fst (fill_loop add items count fuel next b)) /\
  (next <= count -> fst (fst (fill_loop add items count fuel next b)) <= count).
Proof.
  revert next b. induction fuel as [|fuel IH]; intros next b; simpl; [lia|].
  destruct (N.ltb_spec next count) as [Hlt|Hge]; [|simpl; lia].
  destruct (items !! N.to_nat next) as [it|]; [|simpl; lia].
  destruct (add b it) as [[] b']; [|simpl; lia].
  rewrite wrap32_small by lia.
  destruct (IH (next + 1) b') as [H1 H2]. split; [lia|]. intros _. apply H2. lia.
Qed.

(** [count - next] iterations are enough: more fuel changes nothing. *)
Lemma fill_loop_fuel_stable fuel next b :
  (N.to_nat (count - next) <= fuel)%nat ->
  fill_loop add items count fuel next b =
  fill_loop add items count (N.to_nat (count - next)) next b.
Proof.
  revert next b. induction fuel as [|fuel IH]; intros next b Hfuel.
  - replace (N.to_nat (count - next)) with 0%nat by lia. done.
  - destruct (N.ltb_spec next count) as [Hlt|Hge].
    + replace (N.to_nat (count - next)) with (S (N.to_nat (count - (next + 1)))) by lia.
      simpl. destruct (N.ltb_spec next count) as [_|?]; [|lia].
      destruct (items !! N.to_nat next) as [it|]; [|done].
      destruct (add b it) as [[] b']; [|done].
      rewrite wrap32_small by lia. apply IH. lia.
    + replace (N.to_nat (count - next)) with 0%nat by lia. simpl.
      destruct (N.ltb_spec next count) as [?|_]; [lia|done].
Qed.

(** With the fuel the callers pass, the loop stops for one of the two
    reasons the code has: the cursor has reached [count], or the batch
    has refused the item under the cursor. *)
Lemma fill_loop_stops next b next' b' e :
  fill_loop add items count (N.to_nat (count - next)) next b = (next', b', e) ->
  count <= next' \/
  exists it b0, items !! N.to_nat next' = Some it /\ add b0 it = (false, b').
Proof.
  remember (N.to_nat (count - next)) as fuel eqn:Hfuel.
  revert next b Hfuel. induction fuel as [|fuel IH]; intros next b Hfuel; simpl.
  - intros [= <- <- <-]. left. lia.
  - destruct (N.ltb_spec next count) as [Hlt|Hge]; [|lia].
    destruct (fill_loop_in_range next Hlt) as [it Hit]. rewrite Hit.
    destruct (add b it) as [[] b1] eqn:Hadd.
    + rewrite wrap32_small by lia. apply IH. lia.
    + intros [= <- <- <-]. right. eauto.
Qed.

Section Held.
Variable held : B -> list I.
Hypothesis add_accepted :
    forall b it b', add b it = (true, b') -> held b' = held b ++ [it].
Hypothesis add_refused :
    forall b it b', add b it = (false, b') -> held b' = held b.

  (** The batch receives exactly the items the cursor has passed. *)
Lemma fill_loop_held fuel next b next' b' e :
    fill_loop add items count fuel next b = (next', b', e) ->
    held b' = held b ++ take (N.to_nat next' - N.to_nat next) (drop (N.to_nat next) items).
  Proof.
    revert next b. induction fuel as [|fuel IH]; intros next b; simpl.
    - intros [= <- <- <-]. rewrite Nat.sub_diag. simpl. by rewrite app_nil_r.
    - destruct (N.ltb_spec next count) as [Hlt|Hge].
      + destruct (items !! N.to_nat next) as [it|] eqn:Hit.
        * destruct (add b it) as [[] b1] eqn:Hadd.
          -- rewrite wrap32_small by lia. intros Hloop.
             pose proof (fill_loop_cursor fuel (next + 1) b1) as [Hle _].
             rewrite Hloop in Hle. simpl in Hle.
             rewrite (IH _ _ Hloop), (add_accepted _ _ _ Hadd), <- app_assoc.
             f_equal.
             replace (N.to_nat next' - N.to_nat next)%nat
               with (S (N.to_nat next' - N.to_nat (next + 1))) by lia.
             rewrite (drop_S _ _ _ Hit). simpl.
             by replace (N.to_nat (next + 1)) with (S (N.to_nat next)) by lia.
          -- intros [= <- <- <-]. rewrite Nat.sub_diag. simpl.
             rewrite app_nil_r. eauto.
        * intros [= <- <- <-]. rewrite Nat.sub_diag. simpl. by rewrite app_nil_r.
      + intros [= <- <- <-]. rewrite Nat.sub_diag. simpl. by rewrite app_nil_r.
  Qed.

  (** A batch of capacity at least one takes at least one item. *)
Lemma fill_loop_progress fuel next b :
    accepts_first add held -> held b = [] -> next < count ->
    next < fst (fst (fill_loop add items count (S fuel) next b)).
  Proof.
    intros Hfirst Hempty Hlt. simpl.
    destruct (N.ltb_spec next count) as [_|?]; [|lia].
    destruct (fill_loop_in_range next Hlt) as [it ->].
    specialize (Hfirst b it Hempty).
    destruct (add b it) as [ok b1]. simpl in Hfirst. subst ok.
    rewrite wrap32_small by lia.
    pose proof (fill_loop_cursor fuel (next + 1) b1) as [Hle _]. lia.
  Qed.
End Held.
End FillLoopFacts.

(** ** Chains of ranges *)

Lemma chained_le from rs to : chained from rs to -> from <= to.
Proof.
  revert from. induction rs as [|[a b] rs IH]; simpl; intros from.
  - lia.
  - intros (-> & Hab & Hrest). specialize (IH _ Hrest). lia.
Qed.

Lemma chained_snoc from rs mid to :
  chained from rs mid -> mid <= to -> chained from (rs ++ [(mid, to)]) to.
Proof.
  revert from. induction rs as [|[a b] rs IH]; simpl; intros from.
  - intros <- Hle. done.
  - intros (-> & Hab & Hrest) Hle. eauto.
Qed.

(** A chain from [from] to [to] lists every index of [[from, to)] once, in
    increasing order. *)
Lemma chained_indices from rs to :
  chained from rs to ->
  flat_map indices rs = seq (N.to_nat from) (N.to_nat to - N.to_nat from).
Proof.
  revert from. induction rs as [|[a b] rs IH]; simpl; intros from.
  - intros <-. by rewrite Nat.sub_diag.
  - intros (Ha & Hab & Hrest). simpl in Ha, Hab, Hrest. subst from.
    rewrite (IH _ Hrest).
    pose proof (chained_le _ _ _ Hrest) as Hle.
    unfold indices; simpl.
    replace (N.to_nat to - N.to_nat a)%nat
      with ((N.to_nat b - N.to_nat a) + (N.to_nat to - N.to_nat b))%nat by lia.
    rewrite seq_app. do 2 f_equal. lia.
Qed.

Lemma occurrences_seq i from len :
  occurrences i (seq from len) = if decide (from <= i < from + len)%nat then 1%nat else 0%nat.
Proof.
  unfold occurrences. revert from. induction len as [|len IH]; intros from; simpl.
  - case_decide; [lia|done].
  - rewrite filter_cons. case_decide as Heq.
    + subst. simpl. rewrite IH. repeat case_decide; lia.
    + rewrite IH. repeat case_decide; lia.
Qed.

Lemma occurrences_app i l1 l2 :
  occurrences i (l1 ++ l2) = (occurrences i l1 + occurrences i l2)%nat.
Proof. unfold occurrences. by rewrite filter_app, length_app. Qed.

Lemma occurrences_submseteq i l1 l2 :
  l1 ⊆+ l2 -> (occurrences i l1 <= occurrences i l2)%nat.
Proof.
  intros H. unfold occurrences. apply submseteq_length.
  induction H as [|x l1' l2' H IH|x y l|x l1' l2' H IH|l1' l2' l3' H1 IH1 H2 IH2].
  - done.
  - rewrite !filter_cons. case_decide; [by apply submseteq_skip|done].
  - rewrite !filter_cons. repeat case_decide; try done. apply submseteq_swap.
  - rewrite filter_cons. case_decide; [by apply submseteq_cons|done].
  - by etrans.
Qed.

Lemma occurrences_pos i l : (0 < occurrences i l)%nat <-> i ∈ l.
Proof.
  unfold occurrences. split.
  - intros H. destruct (filter (fun k => k = i) l) as [|k l'] eqn:Hf; simpl in H; [lia|].
    assert (k ∈ filter (fun k => k = i) l) as Hk by (rewrite Hf; left).
    apply list_elem_of_filter in Hk as [-> Hk]. done.
  - intros H. assert (i ∈ filter (fun k => k = i) l) as Hi by (by apply list_elem_of_filter).
    destruct (filter (fun k => k = i) l); [by apply elem_of_nil in Hi|simpl; lia].
Qed.

(** ** The harness: what holds for every batch unit *)

Ltac step_cases i s :=
  unfold process_batch_step;
  let Hhalt := fresh "Hhalt" in
  let Hunit := fresh "Hunit" in
  let Hout := fresh "Hout" in
  destruct (sys_halt s) as [?|] eqn:Hhalt;
  [|destruct (sys_units s !! i) as [[?b [|?rg| |?e]]|] eqn:Hunit;
    [match goal with
     | |- context [match ?f (sys_shared s) ?b with _ => _ end] =>
         destruct (f (sys_shared s) b) as [[?sh ?b] ?rg|[?sh ?b] ?e| |?c] eqn:Hout
     end
    |match goal with
     | |- context [match ?f ?rg (sys_shared s) ?b with _ => _ end] =>
         destruct (f rg (sys_shared s) b) as [[?sh ?b] ?u|[?sh ?b] ?e| |?c] eqn:Hout
     end
    | | | ]].

Section HarnessSafety.
Context {Sh B : Type}.
Variable fill : Sh -> B -> outcome (Sh * B) (N * N).
Variable has_work : B -> bool.
Variable execute : N * N -> Sh -> B -> outcome (Sh * B) unit.
Variable cursor : Sh -> N.

Local Abbreviation Step := (process_batch_step fill has_work execute).
Local Abbreviation Run := (run fill has_work execute).
Local Abbreviation Finish := (finish fill has_work execute).

Hypothesis fill_returns_range : forall sh b sh' b' rg,
  fill sh b = Ret (sh', b') rg -> rg = (cursor sh, cursor sh') /\ cursor sh <= cursor sh'.
Hypothesis fill_never_throws : forall sh b st e, fill sh b <> Throw st e.
Hypothesis execute_ret_cursor : forall rg sh b sh' b' u,
  execute rg sh b = Ret (sh', b') u -> cursor sh' = cursor sh.
Hypothesis execute_throw_cursor : forall rg sh b sh' b' e,
  execute rg sh b = Throw (sh', b') e -> cursor sh' = cursor sh.

Lemma run_app sched1 sched2 s : Run (sched1 ++ sched2) s = Run sched2 (Run sched1 s).
Proof. unfold run. apply fold_left_app. Qed.

(** A property kept by every action holds along every schedule, and after
    the completion by [finish]. *)
Lemma run_invariant (P : sys Sh B -> Prop) :
  (forall i s, P s -> P (Step i s)) -> forall sched s, P s -> P (Run sched s).
Proof.
  intros Hstep sched. induction sched as [|i sched IH]; intros s Hs; [done|].
  simpl. apply IH, Hstep, Hs.
Qed.

Lemma finish_invariant (P : sys Sh B -> Prop) :
  (forall i s, P s -> P (Step i s)) -> forall fuel s, P s -> P (Finish fuel s).
Proof.
  intros Hstep fuel. induction fuel as [|fuel IH]; intros s Hs; [done|].
  simpl. destruct (sys_halt s); [done|].
  destruct (next_runner s); [|done]. apply IH, Hstep, Hs.
Qed.

Lemma step_cursor_mono i s :
  cursor (sys_shared s) <= cursor (sys_shared (Step i s)).
Proof.
  step_cases i s; simpl; try lia.
  - apply fill_returns_range in Hout. lia.
  - by apply fill_never_throws in Hout.
  - apply execute_ret_cursor in Hout. lia.
  - apply execute_throw_cursor in Hout. lia.
Qed.

Lemma step_chained i s :
  chained 0 (sys_issued s) (cursor (sys_shared s)) ->
  chained 0 (sys_issued (Step i s)) (cursor (sys_shared (Step i s))).
Proof.
  intros Hch. step_cases i s; simpl; try done.
  - apply fill_returns_range in Hout as [-> Hle]. by apply chained_snoc.
  - by apply fill_never_throws in Hout.
  - apply execute_ret_cursor in Hout. by rewrite Hout.
  - apply execute_throw_cursor in Hout. by rewrite Hout.
Qed.
End HarnessSafety.

(** ** Replacing one runner *)

Section Units.
Context {B : Type}.
Implicit Types units : list (B * phase).

Lemma units_split units i u :
  units !! i = Some u ->
  exists l1 l2, units = l1 ++ u :: l2 /\
    forall u', <[i := u']> units = l1 ++ u' :: l2.
Proof.
  intros Hi. exists (take i units), (drop (S i) units).
  split; [by rewrite take_drop_middle|].
  intros u'. apply insert_take_drop. by eapply lookup_lt_Some.
Qed.

Lemma pending_insert units i b p b' p' :
  units !! i = Some (b, p) ->
  pending (<[i := (b', p')]> units) ++ held_range p ≡ₚ pending units ++ held_range p'.
Proof.
  intros Hi. destruct (units_split _ _ _ Hi) as (l1 & l2 & Heq & Hins).
  rewrite Hins, Heq. unfold pending.
  rewrite !flat_map_app. simpl.
  set (k1 := flat_map _ l1). set (k2 := flat_map _ l2).
  rewrite <- !app_assoc.
  apply Permutation_app_head.
  rewrite (Permutation_app_comm (held_range p') (k2 ++ held_range p)).
  rewrite (Permutation_app_comm (held_range p) (k2 ++ held_range p')).
  rewrite <- !app_assoc. apply Permutation_app_head, Permutation_app_comm.
Qed.

Lemma load_insert units i b p b' p' :
  units !! i = Some (b, p) ->
  (load (<[i := (b', p')]> units) + weight p = load units + weight p')%nat.
Proof.
  intros Hi. destruct (units_split _ _ _ Hi) as (l1 & l2 & Heq & Hins).
  rewrite Hins, Heq. unfold load.
  rewrite !sum_list_with_app. simpl. lia.
Qed.

Lemma pending_done units :
  forallb (fun u => phase_done (snd u)) units = true -> pending units = [].
Proof.
  unfold pending. induction units as [|[b p] units IH]; simpl; [done|].
  intros [Hp Hrest]%andb_prop. rewrite (IH Hrest). by destruct p.
Qed.

Lemma load_done units :
  load units = 0%nat -> forallb (fun u => phase_done (snd u)) units = true.
Proof.
  unfold load. induction units as [|[b p] units IH]; simpl; [done|].
  intros H. rewrite IH by lia. by destruct p.
Qed.
End Units.

Section HarnessBookkeeping.
Context {Sh B : Type}.
Variable fill : Sh -> B -> outcome (Sh * B) (N * N).
Variable has_work : B -> bool.
Variable execute : N * N -> Sh -> B -> outcome (Sh * B) unit.

Local Abbreviation Step := (process_batch_step fill has_work execute).

(** Every range that was executed or is about to be was issued, as often
    as it was issued. *)
Lemma step_launched_issued i s :
  sys_launched s ++ pending (sys_units s) ⊆+ sys_issued s ->
  sys_launched (Step i s) ++ pending (sys_units (Step i s)) ⊆+ sys_issued (Step i s).
Proof.
  intros Hinv. step_cases i s; simpl; try done.
  - (* fill returns *)
    pose proof (pending_insert _ _ _ _ b0
                  (if has_work b0 then Filled rg else Returned) Hunit) as Hp.
    simpl in Hp. rewrite app_nil_r in Hp. rewrite Hp.
    destruct (has_work b0); simpl.
    + rewrite app_assoc. by apply submseteq_app.
    + rewrite app_nil_r. by apply submseteq_inserts_r.
  - (* fill throws *)
    pose proof (pending_insert _ _ _ _ b0 (Raised e) Hunit) as Hp.
    simpl in Hp. rewrite !app_nil_r in Hp. by rewrite Hp.
  - (* the batch was executed *)
    pose proof (pending_insert _ _ _ _ b0 Idle Hunit) as Hp.
    simpl in Hp. rewrite app_nil_r in Hp.
    rewrite <- app_assoc, (Permutation_app_comm [rg]), Hp. done.
  - (* the execution raised *)
    pose proof (pending_insert _ _ _ _ b0 (Raised e) Hunit) as Hp.
    simpl in Hp. rewrite app_nil_r in Hp.
    rewrite <- app_assoc, (Permutation_app_comm [rg]), Hp. done.
Qed.

(** A settled system does not move. *)
Lemma settled_step i s : settled s = true -> Step i s = s.
Proof.
  unfold settled, process_batch_step. destruct (sys_halt s); [done|].
  intros Hall. destruct (sys_units s !! i) as [[b p]|] eqn:Hunit; [|done].
  rewrite forallb_forall in Hall.
  assert (phase_done p = true) as Hp.
  { apply (Hall (b, p)), list_elem_of_In. by eapply list_elem_of_lookup_2. }
  by destruct p.
Qed.

Lemma next_runner_none (s : sys Sh B) :
  next_runner s = None -> forallb (fun u => phase_done (snd u)) (sys_units s) = true.
Proof.
  unfold next_runner. intros H. apply fmap_None in H.
  rewrite list_find_None in H. apply forallb_forall.
  intros u Hu. rewrite Forall_forall in H.
  apply list_elem_of_In in Hu. specialize (H u Hu).
  by destruct (phase_done (snd u)).
Qed.

Lemma next_runner_some (s : sys Sh B) i :
  next_runner s = Some i ->
  exists b p, sys_units s !! i = Some (b, p) /\ phase_done p = false.
Proof.
  unfold next_runner. intros H. apply fmap_Some in H as ([j [b p]] & Hfind & ->).
  apply list_find_Some in Hfind as (Hj & Hp & _). eauto.
Qed.
End HarnessBookkeeping.

(** ** The harness: the runners finish

    For a batch unit whose readiness predicate is true only after an
    insertion, every action of an unfinished runner lowers [potential]:
    all futures become ready, whatever the schedule. *)

Section HarnessProgress.
Context {Sh B : Type}.
Variable fill : Sh -> B -> outcome (Sh * B) (N * N).
Variable has_work : B -> bool.
Variable execute : N * N -> Sh -> B -> outcome (Sh * B) unit.
Variable cursor : Sh -> N.
Variable limit : N.
Variable good : Sh -> Prop.

Local Abbreviation Step := (process_batch_step fill has_work execute).
Local Abbreviation Run := (run fill has_work execute).
Local Abbreviation Finish := (finish fill has_work execute).
Local Abbreviation Potential := (potential cursor limit).

Hypothesis good_limit : forall sh, good sh -> cursor sh <= limit.
Hypothesis fill_ret : forall sh b sh' b' rg,
  good sh -> fill sh b = Ret (sh', b') rg ->
  good sh' /\ cursor sh <= cursor sh' /\ (has_work b' = true -> cursor sh < cursor sh').
Hypothesis fill_throw : forall sh b sh' b' e,
  good sh -> fill sh b = Throw (sh', b') e -> good sh' /\ cursor sh <= cursor sh'.
Hypothesis execute_ret : forall rg sh b sh' b' u,
  good sh -> execute rg sh b = Ret (sh', b') u -> good sh' /\ cursor sh' = cursor sh.
Hypothesis execute_throw : forall rg sh b sh' b' e,
  good sh -> execute rg sh b = Throw (sh', b') e -> good sh' /\ cursor sh' = cursor sh.

Lemma step_good i s : good (sys_shared s) -> good (sys_shared (Step i s)).
Proof.
  intros Hg. step_cases i s; simpl; try done.
  - by apply (fill_ret _ _ _ _ _ Hg) in Hout as [? _].
  - by apply (fill_throw _ _ _ _ _ Hg) in Hout as [? _].
  - by apply (execute_ret _ _ _ _ _ _ Hg) in Hout as [? _].
  - by apply (execute_throw _ _ _ _ _ _ Hg) in Hout as [? _].
Qed.

Lemma step_potential_lt i s b p :
  good (sys_shared s) -> sys_halt s = None ->
  sys_units s !! i = Some (b, p) -> phase_done p = false ->
  (Potential (Step i s) < Potential s)%nat.
Proof.
  intros Hg Hhalt Hunit Hp. unfold potential, process_batch_step.
  rewrite Hhalt, Hunit. pose proof (good_limit _ Hg) as Hlim.
  destruct p as [|rg| |e]; try done.
  - destruct (fill (sys_shared s) b) as [[sh b'] rg|[sh b'] e| |c] eqn:Hout; simpl.
    + destruct (fill_ret _ _ _ _ _ Hg Hout) as (Hg' & Hle & Hlt).
      pose proof (good_limit _ Hg') as Hlim'.
      pose proof (load_insert _ _ _ _ b'
                    (if has_work b' then Filled rg else Returned) Hunit) as Hload.
      destruct (has_work b'); simpl in Hload.
      * specialize (Hlt eq_refl). lia.
      * lia.
    + destruct (fill_throw _ _ _ _ _ Hg Hout) as (Hg' & Hle).
      pose proof (load_insert _ _ _ _ b' (Raised e) Hunit) as Hload.
      simpl in Hload. lia.
    + pose proof (load_insert _ _ _ _ b Returned Hunit) as Hload. simpl in Hload. lia.
    + pose proof (load_insert _ _ _ _ b Returned Hunit) as Hload. simpl in Hload. lia.
  - destruct (execute rg (sys_shared s) b) as [[sh b'] u|[sh b'] e| |c] eqn:Hout; simpl.
    + destruct (execute_ret _ _ _ _ _ _ Hg Hout) as (Hg' & Heq).
      pose proof (load_insert _ _ _ _ b' Idle Hunit) as Hload. simpl in Hload. lia.
    + destruct (execute_throw _ _ _ _ _ _ Hg Hout) as (Hg' & Heq).
      pose proof (load_insert _ _ _ _ b' (Raised e) Hunit) as Hload. simpl in Hload. lia.
    + pose proof (load_insert _ _ _ _ b Returned Hunit) as Hload. simpl in Hload. lia.
    + pose proof (load_insert _ _ _ _ b Returned Hunit) as Hload. simpl in Hload. lia.
Qed.

Lemma step_potential_le i s :
  good (sys_shared s) -> (Potential (Step i s) <= Potential s)%nat.
Proof.
  intros Hg. destruct (sys_halt s) as [h|] eqn:Hhalt.
  { unfold process_batch_step. by rewrite Hhalt. }
  destruct (sys_units s !! i) as [[b p]|] eqn:Hunit.
  - destruct (phase_done p) eqn:Hp.
    + unfold process_batch_step. rewrite Hhalt, Hunit. by destruct p.
    + apply Nat.lt_le_incl. by eapply step_potential_lt.
  - unfold process_batch_step. by rewrite Hhalt, Hunit.
Qed.

Lemma run_potential sched s :
  good (sys_shared s) ->
  good (sys_shared (Run sched s)) /\ (Potential (Run sched s) <= Potential s)%nat.
Proof.
  revert s. induction sched as [|i sched IH]; intros s Hg; simpl; [done|].
  destruct (IH (Step i s) (step_good i s Hg)) as [Hg' Hle].
  split; [done|]. pose proof (step_potential_le i s Hg). lia.
Qed.

Lemma finish_settled fuel s :
  good (sys_shared s) -> (Potential s <= fuel)%nat -> settled (Finish fuel s) = true.
Proof.
  revert s. induction fuel as [|fuel IH]; intros s Hg Hfuel; simpl.
  - unfold settled. unfold potential in Hfuel.
    destruct (sys_halt s); [done|]. apply load_done. lia.
  - destruct (sys_halt s) as [h|] eqn:Hhalt.
    { unfold settled. by rewrite Hhalt. }
    destruct (next_runner s) as [i|] eqn:Hnext.
    + destruct (next_runner_some _ _ Hnext) as (b & p & Hunit & Hp).
      apply IH; [by apply step_good|].
      pose proof (step_potential_lt i s b p Hg Hhalt Hunit Hp). lia.
    + unfold settled. rewrite Hhalt. by apply next_runner_none.
Qed.

Lemma potential_launch sh (units : list B) :
  Potential (launch sh units) = (2 * N.to_nat (limit - cursor sh) + length units)%nat.
Proof.
  unfold potential, launch, load. simpl. f_equal.
  induction units as [|b units IH]; simpl; [done|]. by rewrite IH.
Qed.

(** The main thread gets past its [wait] loop. *)
Lemma run_and_wait_returns sched fuel sh (units : list B) :
  good sh -> (2 * N.to_nat limit + length units <= fuel)%nat ->
  exists s, run_and_wait fill has_work execute sched fuel (launch sh units) = Some s /\
            s = Finish fuel (Run sched (launch sh units)) /\ settled s = true.
Proof.
  intros Hg Hfuel. unfold run_and_wait.
  destruct (run_potential sched (launch sh units) Hg) as [Hg' Hle].
  rewrite potential_launch in Hle.
  assert (settled (Finish fuel (Run sched (launch sh units))) = true) as Hs
    by (apply finish_settled; [done|lia]).
  rewrite Hs. eauto.
Qed.
End HarnessProgress.

(** ** The harness: a unit that keeps its contract

    When every fill returns and every execution succeeds, no runner raises,
    a runner returns only when the cursor is at [limit], and the ranges
    issued form a chain from 0 to the cursor. *)

Section HarnessTotal.
Context {Sh B : Type}.
Variable fill : Sh -> B -> outcome (Sh * B) (N * N).
Variable has_work : B -> bool.
Variable execute : N * N -> Sh -> B -> outcome (Sh * B) unit.
Variable cursor : Sh -> N.
Variable limit : N.
Variable good : Sh -> Prop.
Variable ready : N * N -> B -> Prop.

Local Abbreviation Step := (process_batch_step fill has_work execute).
Local Abbreviation Healthy := (healthy cursor good ready limit).

Hypothesis good_limit : forall sh, good sh -> cursor sh <= limit.
Hypothesis fill_total : forall sh b, good sh ->
  exists sh' b', fill sh b = Ret (sh', b') (cursor sh, cursor sh') /\ good sh' /\
    cursor sh <= cursor sh' /\
    (has_work b' = true -> ready (cursor sh, cursor sh') b') /\
    (has_work b' = false -> cursor sh' = limit).
Hypothesis execute_total : forall rg sh b, good sh -> ready rg b ->
  exists sh' b', execute rg sh b = Ret (sh', b') tt /\ good sh' /\ cursor sh' = cursor sh.

Lemma runner_ok_mono c c' (u : B * phase) :
  c <= c' -> c' <= limit ->
  runner_ok ready limit c u -> runner_ok ready limit c' u.
Proof. unfold runner_ok. destruct (snd u); try done. lia. Qed.

Lemma step_healthy i s : Healthy s -> Healthy (Step i s).
Proof.
  intros (Hhalt & Hg & Hunits & Hch). unfold process_batch_step. rewrite Hhalt.
  destruct (sys_units s !! i) as [[b [|rg| |e]]|] eqn:Hunit; try done.
  - destruct (fill_total _ b Hg) as (sh' & b' & -> & Hg' & Hle & Hready & Hlimit).
    pose proof (good_limit _ Hg') as Hlim'.
    repeat split; simpl; [done| |by apply chained_snoc].
    apply Forall_insert.
    + eapply Forall_impl; [exact Hunits|]. intros u. by apply runner_ok_mono.
    + unfold runner_ok. simpl. destruct (has_work b'); simpl; eauto.
  - assert (ready rg b) as Hr.
    { rewrite Forall_forall in Hunits.
      apply (Hunits (b, Filled rg)). by eapply list_elem_of_lookup_2. }
    destruct (execute_total rg _ b Hg Hr) as (sh' & b' & -> & Hg' & Heq).
    repeat split; simpl; [done| |by rewrite Heq].
    rewrite Heq. by apply Forall_insert.
Qed.

Lemma healthy_launch sh (units : list B) :
  good sh -> cursor sh = 0 -> Healthy (launch sh units).
Proof.
  intros Hg Hc. repeat split; simpl; [done| |done].
  apply Forall_forall. intros u Hu. apply list_elem_of_fmap in Hu as (b & -> & _). done.
Qed.

(** Once every future is ready, the cursor is at [limit]: the chain of the
    issued ranges runs from 0 to [limit]. *)
Lemma healthy_settled s :
  Healthy s -> settled s = true -> sys_units s <> [] ->
  cursor (sys_shared s) = limit /\ chained 0 (sys_issued s) limit /\
  Forall (fun u => snd u = Returned) (sys_units s).
Proof.
  intros (Hhalt & Hg & Hunits & Hch) Hset Hne. unfold settled in Hset.
  rewrite Hhalt in Hset. rewrite forallb_forall in Hset.
  assert (Forall (fun u : B * phase => snd u = Returned) (sys_units s)) as Hret.
  { apply Forall_forall. intros u Hu.
    rewrite Forall_forall in Hunits. specialize (Hunits u Hu).
    apply list_elem_of_In in Hu. specialize (Hset u Hu).
    unfold runner_ok in Hunits. by destruct (snd u). }
  assert (cursor (sys_shared s) = limit) as Hc.
  { destruct (sys_units s) as [|u units] eqn:Hu; [done|].
    apply Forall_cons in Hunits as [Hu0 _]. apply Forall_cons in Hret as [Hr0 _].
    unfold runner_ok in Hu0. by rewrite Hr0 in Hu0. }
  by rewrite <- Hc at 2.
Qed.
End HarnessTotal.

(** ** Lists of indexes *)

Lemma flat_map_bind {A C : Type} (f : A -> list C) (l : list A) : flat_map f l = l ≫= f.
Proof. induction l as [|x l IH]; simpl; [done|]. by rewrite IH. Qed.

Lemma flat_map_submseteq {A C : Type} (f : A -> list C) (l1 l2 : list A) :
  l1 ⊆+ l2 -> flat_map f l1 ⊆+ flat_map f l2.
Proof. intros H. rewrite !flat_map_bind. by apply bind_submseteq. Qed.

Lemma chained_member from rs to r :
  chained from rs to -> r ∈ rs -> from <= fst r /\ fst r <= snd r /\ snd r <= to.
Proof.
  revert from. induction rs as [|[a b] rs IH]; simpl; intros from Hch Hr.
  - by apply elem_of_nil in Hr.
  - destruct Hch as (Ha & Hab & Hrest). simpl in Ha, Hab, Hrest. subst a.
    pose proof (chained_le _ _ _ Hrest) as Hle.
    apply elem_of_cons in Hr as [->|Hr]; simpl; [lia|].
    destruct (IH _ Hrest Hr) as (? & ? & ?). lia.
Qed.

(** In a chain that starts at 0 every index is issued at most once, and
    the indexes issued are those below the end of the chain. *)
Lemma chained_occurrences rs to i :
  chained 0 rs to ->
  occurrences i (flat_map indices rs) = if decide (i < N.to_nat to)%nat then 1%nat else 0%nat.
Proof.
  intros Hch. rewrite (chained_indices _ _ _ Hch), occurrences_seq.
  repeat case_decide; lia.
Qed.

Lemma times_written_occurrences i (writes : list (nat * bool)) :
  times_written i writes = occurrences i (map fst writes).
Proof.
  unfold times_written, occurrences.
  induction writes as [|[k v] writes IH]; simpl; [done|].
  rewrite !filter_cons. simpl. case_decide; simpl; by rewrite IH.
Qed.

Lemma indices_member (range : N * N) k :
  k ∈ indices range <-> (N.to_nat (fst range) <= k < N.to_nat (snd range))%nat.
Proof. unfold indices. rewrite elem_of_seq. lia. Qed.

Lemma length_indices (range : N * N) :
  length (indices range) = (N.to_nat (snd range) - N.to_nat (fst range))%nat.
Proof. unfold indices. apply length_seq. Qed.

(** ** [polish]: the filler *)

Section PolishFill.
Context {B W E : Type} `{!CUDABatchProcessor B W} `{!WindowOps W E}.
Variable windows_ : list W.

Local Abbreviation count := (wrap32 (N.of_nat (length windows_))).
Local Abbreviation Fill := (Polish.fill_next_batch windows_).

(** The two ways a call of [fill_next_batch] can end. *)
Lemma fill_next_batch_cases sh b :
  exists next b',
    fill_loop addWindow windows_ count
      (N.to_nat (count - Polish.next_window_index sh))
      (Polish.next_window_index sh) (reset b) = (next, b', None) /\
    ((Polish.logger_step windows_ = 0 /\ Fill sh b = Undefined) \/
     (Polish.logger_step windows_ <> 0 /\
      exists llc bars,
        Fill sh b =
        Ret (Polish.MkShared next llc bars (Polish.window_consensus_status_ sh)
               (Polish.accel_writes sh), b')
            (Polish.next_window_index sh, next))).
Proof.
  unfold Polish.fill_next_batch.
  pose proof (fill_loop_no_exn addWindow windows_ count (wrap32_le _) (wrap32_lt _)
                (N.to_nat (count - Polish.next_window_index sh))
                (Polish.next_window_index sh) (reset b)) as Hexn.
  destruct (fill_loop _ _ _ _ _ _) as [[next b'] e]. simpl in Hexn. subst e.
  exists next, b'. split; [done|].
  destruct (N.eqb_spec (Polish.logger_step windows_) 0) as [Hz|Hnz]; [by left|].
  right. split; [done|]. destruct (_ && _); eauto.
Qed.

Lemma fill_next_batch_never_throws sh b st e : Fill sh b <> Throw st e.
Proof.
  destruct (fill_next_batch_cases sh b) as (next & b' & _ & [[_ ->]|[_ (llc & bars & ->)]]);
    discriminate.
Qed.

Lemma fill_next_batch_range sh b sh' b' rg :
  Fill sh b = Ret (sh', b') rg ->
  rg = (Polish.next_window_index sh, Polish.next_window_index sh') /\
  Polish.next_window_index sh <= Polish.next_window_index sh' /\
  (Polish.next_window_index sh <= count -> Polish.next_window_index sh' <= count) /\
  Polish.window_consensus_status_ sh' = Polish.window_consensus_status_ sh /\
  Polish.accel_writes sh' = Polish.accel_writes sh.
Proof.
  destruct (fill_next_batch_cases sh b)
    as (next & b0 & Hloop & [[_ ->]|[_ (llc & bars & ->)]]); [discriminate|].
  intros [= <- <- <-]. simpl.
  pose proof (fill_loop_cursor addWindow windows_ count (wrap32_le _) (wrap32_lt _)
                (N.to_nat (count - Polish.next_window_index sh))
                (Polish.next_window_index sh) (reset b)) as [H1 H2].
  rewrite Hloop in H1, H2. simpl in H1, H2. done.
Qed.

(** A collection of fewer than 20 windows makes [logger_step] zero, and
    every call of [fill_next_batch] then divides by it. *)
Lemma logger_step_zero :
  (length windows_ < 20)%nat -> Polish.logger_step windows_ = 0.
Proof.
  intros H. unfold Polish.logger_step, RACON_LOGGER_BIN_SIZE.
  rewrite N.div_small by lia. done.
Qed.

Lemma logger_step_nonzero :
  (20 <= length windows_)%nat -> N.of_nat (length windows_) < 2 ^ 32 ->
  Polish.logger_step windows_ <> 0.
Proof.
  intros H20 H32. unfold Polish.logger_step, RACON_LOGGER_BIN_SIZE.
  assert (1 <= N.of_nat (length windows_) / 20).
  { apply N.div_le_lower_bound; lia. }
  assert (N.of_nat (length windows_) / 20 <= N.of_nat (length windows_)).
  { apply N.Div0.div_le_upper_bound. lia. }
  rewrite wrap32_small by lia. lia.
Qed.
End PolishFill.

(** ** [polish]: copying the results of a batch *)

Lemma copy_results_spec first i results status writes :
  (N.to_nat first + N.to_nat i + length results <= length status)%nat ->
  first + i + N.of_nat (length results) < 2 ^ 32 ->
  exists status',
    Polish.copy_results first i results status writes =
      (status', writes ++ zip (seq (N.to_nat first + N.to_nat i) (length results)) results,
       None) /\
    length status' = length status /\
    (forall j r, results !! j = Some r ->
       status' !! (N.to_nat first + N.to_nat i + j)%nat = Some r) /\
    (forall k, (k < N.to_nat first + N.to_nat i \/
                N.to_nat first + N.to_nat i + length results <= k)%nat ->
       status' !! k = status !! k).
Proof.
  revert i status writes.
  induction results as [|r results IH]; intros i status writes Hlen H32; simpl.
  - exists status. rewrite app_nil_r. split; [done|]. split; [done|]. split; [|done].
    intros j r Hj. by rewrite lookup_nil in Hj.
  - simpl in Hlen. simpl length in H32. rewrite Nat2N.inj_succ in H32.
    rewrite wrap32_small by lia.
    replace (N.to_nat (first + i)) with (N.to_nat first + N.to_nat i)%nat by lia.
    case_decide as Hk; [|lia].
    rewrite wrap32_small by lia.
    destruct (IH (i + 1) (<[(N.to_nat first + N.to_nat i)%nat := r]> status)
                (writes ++ [((N.to_nat first + N.to_nat i)%nat, r)]))
      as (status' & Heq & Hlen' & Hnew & Hold).
    { rewrite length_insert. lia. }
    { lia. }
    replace (N.to_nat first + N.to_nat (i + 1))%nat
      with (S (N.to_nat first + N.to_nat i)) in Heq, Hnew, Hold by lia.
    exists status'. rewrite Heq. split; [|split; [|split]].
    + by rewrite <- app_assoc.
    + by rewrite Hlen', length_insert.
    + intros [|j] r' Hj; simpl in Hj.
      * injection Hj as <-. rewrite Hold by lia.
        rewrite Nat.add_0_r. by apply list_lookup_insert_eq.
      * rewrite <- (Hnew j r' Hj). f_equal. lia.
    + intros k Hk'. rewrite Hold by lia. apply list_lookup_insert_ne. lia.
Qed.

Lemma copy_results_length first i results status writes :
  length (fst (fst (Polish.copy_results first i results status writes))) = length status.
Proof.
  revert i status writes. induction results as [|r results IH]; intros i status writes; simpl.
  - done.
  - case_decide; [|done]. by rewrite IH, length_insert.
Qed.

Section PolishExecute.
Context {B W E : Type} `{!CUDABatchProcessor B W} `{!WindowOps W E}.

(** The execution of a batch leaves the cursor alone, whether it returns
    or raises. *)
Lemma launch_workload_cursor rg sh b sh' b' :
  (exists u, Polish.launch_workload rg sh b = Ret (sh', b') u) \/
  (exists e, Polish.launch_workload rg sh b = Throw (sh', b') e) ->
  Polish.next_window_index sh' = Polish.next_window_index sh.
Proof.
  unfold Polish.launch_workload.
  destruct (generateConsensus b) as [results b0].
  destruct (negb _).
  - intros [[u [=]]|[e [= <- <-]]]. done.
  - destruct (Polish.copy_results _ _ _ _ _) as [[status writes] [e|]].
    + intros [[u [=]]|[e' [= <- <-]]]. done.
    + intros [[u [= <- <-]]|[e' [=]]]. done.
Qed.

(** The size check of [process_batch] decides between the exception and
    the copy; within the status vector the copy assigns [results[j]] to
    index [range.first + j] for every [j], and nothing else. *)
Lemma launch_workload_cases rg sh b :
  fst rg <= snd rg -> snd rg < 2 ^ 32 ->
  (N.to_nat (snd rg) <= length (Polish.window_consensus_status_ sh))%nat ->
  let results := fst (generateConsensus b) in
  let b' := snd (generateConsensus b) in
  (length results <> length (indices rg) /\
   exists what, Polish.launch_workload rg sh b = Throw (sh, b') (runtime_error what)) \/
  (length results = length (indices rg) /\
   exists status',
     Polish.launch_workload rg sh b =
       Ret (Polish.MkShared (Polish.next_window_index sh) (Polish.last_logger_count sh)
              (Polish.bar_calls sh) status'
              (Polish.accel_writes sh ++ zip (indices rg) results), b') tt /\
     length status' = length (Polish.window_consensus_status_ sh) /\
     (forall j r, results !! j = Some r ->
        status' !! (N.to_nat (fst rg) + j)%nat = Some r) /\
     (forall k, k ∉ indices rg ->
        status' !! k = Polish.window_consensus_status_ sh !! k)).
Proof.
  intros Hle H32 Hlen. simpl. unfold Polish.launch_workload.
  destruct (generateConsensus b) as [results b0]. simpl.
  rewrite sub32_small by done. rewrite length_indices.
  destruct (N.eqb_spec (N.of_nat (length results)) (snd rg - fst rg)) as [Heq|Hne]; simpl.
  - right. split; [lia|].
    destruct (copy_results_spec (fst rg) 0 results (Polish.window_consensus_status_ sh)
                (Polish.accel_writes sh)) as (status' & Hcopy & Hlen' & Hnew & Hold);
      [lia|lia|].
    rewrite Hcopy. exists status'. rewrite Nat.add_0_r in *.
    unfold indices. replace (N.to_nat (snd rg) - N.to_nat (fst rg))%nat
      with (length results) by lia.
    repeat split; [done|done|].
    intros k Hk. apply Hold. rewrite elem_of_seq in Hk. lia.
  - left. split; [lia|]. eauto.
Qed.
End PolishExecute.

(** ** [polish]: the invariant of the accelerator phase *)

Lemma filled_pending {B : Type} (units : list (B * phase)) i b rg :
  units !! i = Some (b, Filled rg) -> rg ∈ pending units.
Proof.
  intros Hi. destruct (units_split _ _ _ Hi) as (l1 & l2 & -> & _).
  unfold pending. rewrite flat_map_app. simpl.
  apply elem_of_app. right. left.
Qed.

Section PolishAccelerator.
Context {B W E : Type} `{!CUDABatchProcessor B W} `{!WindowOps W E}.
Variable windows_ : list W.

Local Abbreviation count := (wrap32 (N.of_nat (length windows_))).
Local Abbreviation Step := (Polish.process_batch_step windows_).

Lemma polish_step_chained i s :
  chained 0 (sys_issued s) (Polish.next_window_index (sys_shared s)) ->
  chained 0 (sys_issued (Step i s)) (Polish.next_window_index (sys_shared (Step i s))).
Proof.
  apply step_chained.
  - intros sh b sh' b' rg Hout.
    destruct (fill_next_batch_range _ _ _ _ _ _ Hout) as (? & ? & _). done.
  - apply fill_next_batch_never_throws.
  - intros rg sh b sh' b' u Hout. apply (launch_workload_cursor rg sh b sh' b'). eauto.
  - intros rg sh b sh' b' e Hout. apply (launch_workload_cursor rg sh b sh' b'). eauto.
Qed.

Lemma polish_step_cursor i s :
  Polish.next_window_index (sys_shared s) <= count ->
  Polish.next_window_index (sys_shared s)
    <= Polish.next_window_index (sys_shared (Step i s)) <= count.
Proof.
  intros Hc. unfold Polish.process_batch_step. step_cases i s; simpl; try lia.
  - destruct (fill_next_batch_range _ _ _ _ _ _ Hout) as (_ & ? & Hb & _).
    specialize (Hb Hc). lia.
  - by apply fill_next_batch_never_throws in Hout.
  - rewrite (launch_workload_cursor rg _ b sh b0) by eauto. lia.
  - rewrite (launch_workload_cursor rg _ b sh b0) by eauto. lia.
Qed.

Lemma step_accel_inv i s : accel_inv windows_ s -> accel_inv windows_ (Step i s).
Proof.
  intros (Hch & Hcur & Hsub & Hlen & Hwr & Hval & Hfalse).
  pose proof (polish_step_chained i s Hch) as Hch'.
  pose proof (polish_step_cursor i s Hcur) as [_ Hcur'].
  pose proof (step_launched_issued (Polish.fill_next_batch windows_) hasWindows
                Polish.launch_workload i s Hsub) as Hsub'.
  split; [exact Hch'|]. split; [exact Hcur'|]. split; [exact Hsub'|].
  clear Hch' Hcur' Hsub'.
  unfold Polish.process_batch_step. step_cases i s; simpl; try done.
  - (* fill returns: the status vector and the assignments are untouched *)
    destruct (fill_next_batch_range _ _ _ _ _ _ Hout) as (_ & _ & _ & -> & ->). done.
  - by apply fill_next_batch_never_throws in Hout.
  - (* the batch was executed and its results copied *)
    assert (rg ∈ sys_issued s) as Hrg.
    { eapply elem_of_submseteq; [|exact Hsub].
      apply elem_of_app. right. by eapply filled_pending. }
    destruct (chained_member _ _ _ _ Hch Hrg) as (_ & Hle & Hto).
    pose proof (wrap32_lt (N.of_nat (length windows_))) as H32.
    pose proof (wrap32_le (N.of_nat (length windows_))) as Hcount.
    destruct (launch_workload_cases rg (sys_shared s) b)
      as [(_ & what & Hthrow)|(Hres & status' & Hret & Hlen' & Hnew & Hold)];
      [done|lia|lia|congruence|].
    rewrite Hret in Hout. injection Hout as <- <-. simpl.
    assert (sys_launched s ++ [rg] ⊆+ sys_issued s) as Hsub1.
    { etrans; [|exact Hsub]. apply submseteq_app; [done|].
      apply singleton_submseteq_l. by eapply filled_pending. }
    assert (forall k, k ∈ map fst (Polish.accel_writes (sys_shared s)) ->
                      k ∉ indices rg) as Hfresh.
    { intros k Hk Hk'.
      apply occurrences_pos in Hk. apply occurrences_pos in Hk'.
      pose proof (occurrences_submseteq k _ _ Hwr) as H1.
      pose proof (occurrences_submseteq k _ _ (flat_map_submseteq indices _ _ Hsub1)) as H2.
      rewrite (chained_occurrences _ _ k Hch) in H2.
      rewrite flat_map_app, occurrences_app in H2. simpl in H2.
      rewrite app_nil_r in H2. case_decide; lia. }
    split; [congruence|]. split; [|split].
    + rewrite map_app, flat_map_app. simpl. rewrite app_nil_r.
      apply submseteq_app; [done|].
      change (map fst ?l) with (l.*1). rewrite fst_zip by lia. done.
    + intros k v Hkv. apply elem_of_app in Hkv as [Hkv|Hkv].
      * rewrite Hold; [by apply Hval|].
        apply Hfresh. apply list_elem_of_fmap. by exists (k, v).
      * apply elem_of_lookup_zip_with in Hkv as (j & k' & v' & [= -> ->] & Hj & Hv).
        unfold indices in Hj. apply lookup_seq in Hj as [-> _]. simpl. by apply Hnew.
    + intros k Hk Hnot. rewrite map_app in Hnot.
      change (map fst ?l) with (l.*1) in Hnot. rewrite fst_zip in Hnot by lia.
      apply not_elem_of_app in Hnot as [Hn1 Hn2].
      rewrite Hold by done. by apply Hfalse.
  - (* the execution raised: the size check failed before any assignment *)
    assert (rg ∈ sys_issued s) as Hrg.
    { eapply elem_of_submseteq; [|exact Hsub].
      apply elem_of_app. right. by eapply filled_pending. }
    destruct (chained_member _ _ _ _ Hch Hrg) as (_ & Hle & Hto).
    pose proof (wrap32_lt (N.of_nat (length windows_))) as H32.
    pose proof (wrap32_le (N.of_nat (length windows_))) as Hcount.
    destruct (launch_workload_cases rg (sys_shared s) b)
      as [(_ & what & Hthrow)|(Hres & status' & Hret & _)];
      [done|lia|lia| |congruence].
    rewrite Hthrow in Hout. injection Hout as <- <- <-.
    split; [done|]. split; [|done].
    etrans; [exact Hwr|]. apply flat_map_submseteq. by apply submseteq_inserts_r.
Qed.

Lemma accel_inv_launch (units : list B) :
  accel_inv windows_
    (launch (Polish.MkShared 0 0 0 (resize [] (length windows_) false) []) units).
Proof.
  unfold accel_inv, launch, resize. rewrite take_nil. simpl.
  assert (pending (map (fun b : B => (b, Idle)) units) = []) as ->.
  { unfold pending. induction units; simpl; [done|]. done. }
  rewrite Nat.sub_0_r.
  split; [done|]. split; [lia|]. split; [done|].
  split; [by rewrite length_replicate|]. split; [done|].
  split; [by intros k v ?%elem_of_nil|].
  intros k Hk _. by apply lookup_replicate_2.
Qed.

(** The invariant holds when the main thread has joined the runners. *)
Lemma accel_inv_joined (units : list B) sched fuel s :
  run_and_wait (Polish.fill_next_batch windows_) hasWindows Polish.launch_workload
    sched fuel
    (launch (Polish.MkShared 0 0 0 (resize [] (length windows_) false) []) units) = Some s ->
  accel_inv windows_ s /\ settled s = true.
Proof.
  unfold run_and_wait. destruct (settled _) eqn:Hs; [|done]. intros [= <-].
  split; [|done].
  apply finish_invariant; [apply step_accel_inv|].
  apply run_invariant; [apply step_accel_inv|].
  apply accel_inv_launch.
Qed.
End PolishAccelerator.

(** ** [polish]: the fallback pass *)

Section PolishFallback.
Context {B W E : Type} `{!CUDABatchProcessor B W} `{!WindowOps W E}.
Variable windows_ : list W.
Variable thread_to_id_ : gmap nat N.
Variable alignment_engines_ : list E.
Variable worker_of : nat -> nat.

Local Abbreviation Host := (host_result windows_ thread_to_id_ alignment_engines_ worker_of).
Local Abbreviation Task :=
  (Polish.fallback_task windows_ thread_to_id_ alignment_engines_).
Local Abbreviation Tasks :=
  (Polish.run_tasks windows_ thread_to_id_ alignment_engines_ worker_of).

(** The scan submits the indexes whose status is [false], in order. *)
Lemma submit_failed_scan status from len acc :
  (from + len <= length status)%nat ->
  for_each (Polish.submit_failed status) (seq from len) acc =
  Ret (acc ++ filter (fun i => status !! i = Some false) (seq from len)) tt.
Proof.
  revert from acc. induction len as [|len IH]; intros from acc Hlen; simpl.
  - by rewrite app_nil_r.
  - unfold Polish.submit_failed at 1.
    destruct (lookup_lt_is_Some_2 status from) as [v Hv]; [lia|].
    rewrite Hv, filter_cons. destruct v.
    + rewrite IH by lia. case_decide as Hd; [by rewrite Hv in Hd|done].
    + rewrite IH by lia. case_decide as Hd; [|by rewrite Hv in Hd].
      by rewrite <- app_assoc.
Qed.

(** A task run by a thread that has no context ends the process. *)
Lemma fallback_task_no_context tid st j :
  thread_to_id_ !! tid = None -> Task tid st j = Exit 1.
Proof. intros H. unfold Polish.fallback_task. by rewrite H. Qed.

Lemma fallback_task_ok st j r :
  Host j = Some r -> (j < length (fst st))%nat ->
  Task (worker_of j) st j = Ret (<[j := r]> (fst st), snd st ++ [(j, r)]) tt.
Proof.
  unfold host_result, Polish.fallback_task. intros Hr Hj.
  destruct (thread_to_id_ !! worker_of j) as [e|]; [|done]. simpl in Hr.
  destruct (windows_ !! j) as [w|]; [|done]. simpl in Hr.
  destruct (alignment_engines_ !! N.to_nat e) as [engine|]; [|done].
  injection Hr as <-. by case_decide.
Qed.

(** When every task runs on a thread that has a context, the tasks return
    and each has assigned the result of its own window to its own index. *)
Lemma run_tasks_ok tasks st :
  (forall j, j ∈ tasks -> is_Some (Host j) /\ (j < length (fst st))%nat) ->
  Tasks tasks st =
  Ret (foldl (fun status j => <[j := default false (Host j)]> status) (fst st) tasks,
       snd st ++ map (fun j => (j, default false (Host j))) tasks) tt.
Proof.
  revert st. induction tasks as [|j tasks IH]; intros [status writes] Hall; simpl.
  - by rewrite app_nil_r.
  - destruct (Hall j) as [[r Hr] Hj]; [left|].
    unfold Polish.run_tasks in *. simpl.
    rewrite (fallback_task_ok (status, writes) j r Hr Hj). simpl.
    rewrite IH.
    + simpl. rewrite Hr. simpl. by rewrite <- app_assoc.
    + intros k Hk. destruct (Hall k) as [? ?]; [by right|].
      split; [done|]. simpl in *. by rewrite length_insert.
Qed.

Lemma foldl_insert_length {A : Type} (f : nat -> A) (tasks : list nat) (l : list A) :
  length (foldl (fun l j => <[j := f j]> l) l tasks) = length l.
Proof.
  revert l. induction tasks as [|j tasks IH]; intros l; simpl; [done|].
  by rewrite IH, length_insert.
Qed.

Lemma foldl_insert_lookup {A : Type} (f : nat -> A) (tasks : list nat) (l : list A) k :
  (k < length l)%nat ->
  foldl (fun l j => <[j := f j]> l) l tasks !! k =
  if decide (k ∈ tasks) then Some (f k) else l !! k.
Proof.
  revert l. induction tasks as [|j tasks IH]; intros l Hk; cbn [foldl].
  - rewrite decide_False by apply not_elem_of_nil. done.
  - rewrite IH by (by rewrite length_insert).
    destruct (decide (k ∈ tasks)) as [Hin|Hnot].
    + rewrite decide_True by (by right). done.
    + destruct (decide (k = j)) as [->|Hne].
      * rewrite decide_True by left. by apply list_lookup_insert_eq.
      * rewrite decide_False by (intros [?|?]%elem_of_cons; done).
        by apply list_lookup_insert_ne.
Qed.

(** The tasks touch different indexes: the order in which the pool runs
    them does not show in the status vector. *)
Lemma run_tasks_order_irrelevant tasks tasks' status writes :
  tasks ≡ₚ tasks' ->
  (forall j, j ∈ tasks -> is_Some (Host j) /\ (j < length status)%nat) ->
  exists status' writes1 writes2,
    Tasks tasks (status, writes) = Ret (status', writes1) tt /\
    Tasks tasks' (status, writes) = Ret (status', writes2) tt /\
    writes1 ≡ₚ writes2.
Proof.
  intros Hperm Hall.
  rewrite (run_tasks_ok tasks) by done.
  rewrite (run_tasks_ok tasks') by (intros j Hj; apply Hall; by rewrite Hperm).
  simpl. eexists _, _, _. split; [done|]. split.
  - do 2 f_equal. apply list_eq. intros k.
    destruct (decide (k < length status)%nat) as [Hk|Hk].
    + rewrite !foldl_insert_lookup by done.
      destruct (decide (k ∈ tasks)) as [Hin|Hnot].
      * rewrite decide_True by (by rewrite <- Hperm). done.
      * rewrite decide_False by (by rewrite <- Hperm). done.
    + rewrite !lookup_ge_None_2; [done| |]; rewrite foldl_insert_length; lia.
  - by rewrite Hperm.
Qed.

(** A task whose thread has no context ends the process, whatever the
    tasks before it did, provided the registered contexts exist. *)
Lemma run_tasks_exit tasks st :
  (forall tid e, thread_to_id_ !! tid = Some e ->
     (N.to_nat e < length alignment_engines_)%nat) ->
  (forall j, j ∈ tasks -> (j < length windows_)%nat) ->
  (exists j, j ∈ tasks /\ thread_to_id_ !! worker_of j = None) ->
  Tasks tasks st = Exit 1.
Proof.
  intros Hctx. revert st.
  induction tasks as [|j tasks IH]; intros st Hwin (k & Hk & Hnone).
  - by apply elem_of_nil in Hk.
  - unfold Polish.run_tasks in *. simpl.
    destruct (thread_to_id_ !! worker_of j) as [e|] eqn:He.
    + unfold Polish.fallback_task at 1. rewrite He.
      destruct (lookup_lt_is_Some_2 windows_ j) as [w ->]; [apply Hwin; left|].
      destruct (lookup_lt_is_Some_2 alignment_engines_ (N.to_nat e)) as [engine ->];
        [by eapply Hctx|].
      assert (exists k, k ∈ tasks /\ thread_to_id_ !! worker_of k = None) as Hrest.
      { apply elem_of_cons in Hk as [->|Hk]; [congruence|eauto]. }
      case_decide; (apply IH; [intros; apply Hwin; by right|done]).
    + by rewrite fallback_task_no_context.
Qed.
End PolishFallback.

(** ** [polish]: collecting the output *)

Lemma string_append_assoc (a b c : string) :
  ((a ++ b) ++ c)%string = (a ++ (b ++ c))%string.
Proof.
  induction a as [|ch a IH]; [reflexivity|].
  change (String ch ((a ++ b) ++ c) = String ch (a ++ (b ++ c)))%string.
  by rewrite IH.
Qed.

Lemma string_append_nil_r (a : string) : (a ++ EmptyString)%string = a.
Proof.
  induction a as [|ch a IH]; [reflexivity|].
  change (String ch (a ++ EmptyString) = String ch a)%string.
  by rewrite IH.
Qed.

Lemma omap_cons_unfold {A C : Type} (f : A -> option C) (x : A) (l : list A) :
  omap f (x :: l) = match f x with Some y => y :: omap f l | None => omap f l end.
Proof. reflexivity. Qed.

Section PolishCollect.
Context {W E : Type} `{!WindowOps W E}.
Variable sequences_ : list string.
Variable targets_coverages_ : list N.
Variable type_ : PolisherType.
Variable drop_unpolished_sequences : bool.

Implicit Types g open rest : list (W * bool).

Local Abbreviation Emitted :=
  (emitted sequences_ targets_coverages_ type_ drop_unpolished_sequences).

Lemma sequence_text_snoc g x :
  sequence_text (g ++ [x]) = (sequence_text g ++ consensus (fst x))%string.
Proof.
  unfold sequence_text. induction g as [|y g IH]; simpl.
  - by rewrite string_append_nil_r.
  - by rewrite IH, string_append_assoc.
Qed.

Lemma succeeded_count_snoc g x :
  succeeded_count (g ++ [x]) = succeeded_count g + (if snd x then 1 else 0).
Proof.
  unfold succeeded_count. rewrite filter_app, length_app, filter_cons, filter_nil.
  destruct (snd x); simpl; lia.
Qed.

Lemma succeeded_count_le g : succeeded_count g <= N.of_nat (length g).
Proof. unfold succeeded_count. pose proof (length_filter (fun x => snd x = true) g). lia. Qed.

Lemma source_sequences_step (x y : W * bool) rest :
  source_sequences (x :: y :: rest) =
  if rank (fst y) =? 0 then [x] :: source_sequences (y :: rest)
  else match source_sequences (y :: rest) with
       | g :: gs => (x :: g) :: gs
       | [] => [[x]]
       end.
Proof. reflexivity. Qed.

Lemma source_sequences_nonempty rest : rest <> [] -> source_sequences rest <> [].
Proof.
  destruct rest as [|x [|y rest]]; [done|done|].
  intros _. rewrite source_sequences_step.
  destruct (rank (fst y) =? 0); [done|].
  by destruct (source_sequences (y :: rest)).
Qed.

Lemma continued_sequences_nil rest : continued_sequences [] rest = source_sequences rest.
Proof. unfold continued_sequences. by destruct (source_sequences rest). Qed.

(** The window under the cursor ends its sequence. *)
Lemma continued_sequences_close open x rest :
  match rest with [] => True | y :: _ => rank (fst y) = 0 end ->
  continued_sequences open (x :: rest) = (open ++ [x]) :: continued_sequences [] rest.
Proof.
  unfold continued_sequences at 1. rewrite continued_sequences_nil.
  destruct rest as [|y rest]; [done|].
  intros Hz. rewrite source_sequences_step, Hz. done.
Qed.

(** The window under the cursor does not end its sequence. *)
Lemma continued_sequences_open open x y rest :
  rank (fst y) <> 0 ->
  continued_sequences open (x :: y :: rest) = continued_sequences (open ++ [x]) (y :: rest).
Proof.
  intros Hr. unfold continued_sequences. rewrite source_sequences_step.
  destruct (N.eqb_spec (rank (fst y)) 0) as [?|_]; [done|].
  pose proof (source_sequences_nonempty (y :: rest)) as Hne.
  destruct (source_sequences (y :: rest)) as [|g gs]; [by destruct Hne|].
  by rewrite <- app_assoc.
Qed.

Lemma sequence_ratio_snoc g x :
  rank (fst x) + 1 < 2 ^ 32 ->
  sequence_ratio (g ++ [x]) = fdiv (succeeded_count (g ++ [x])) (wrap32 (rank (fst x) + 1)).
Proof.
  intros H. unfold sequence_ratio. rewrite last_snoc. by rewrite wrap32_small.
Qed.

(** The loop, started at the window after [read] with the accumulators
    of the open sequence, appends to [dst] what the remaining source
    sequences contribute. *)
Lemma collect_from (read open rest : list (W * bool)) (out : list Sequence) :
  let ws := read ++ rest in
  N.of_nat (length ws) < 2 ^ 32 ->
  (length open <= length read)%nat ->
  (rest = [] -> open = []) ->
  (forall x, x ∈ ws -> rank (fst x) + 1 < 2 ^ 32) ->
  (forall x, x ∈ ws -> is_Some (sequences_ !! N.to_nat (id (fst x))) /\
                       is_Some (targets_coverages_ !! N.to_nat (id (fst x)))) ->
  for_each
    (Polish.collect_window (map fst ws) sequences_ targets_coverages_ type_
       drop_unpolished_sequences (map snd ws))
    (seq (length read) (length rest))
    (Polish.MkCollector (sequence_text open) (succeeded_count open) out) =
  Ret (Polish.MkCollector EmptyString 0
         (out ++ omap Emitted (continued_sequences open rest))) tt.
Proof.
  revert read open out.
  induction rest as [|x rest IH]; intros read open out ws H32 Hopen Hend Hrank Hids.
  - rewrite (Hend eq_refl). simpl. by rewrite app_nil_r.
  - cbn [length seq for_each].
    assert (map snd ws !! length read = Some (snd x)) as Hst.
    { subst ws. rewrite map_app, lookup_app_r by (by rewrite length_map).
      by rewrite length_map, Nat.sub_diag. }
    assert (map fst ws !! length read = Some (fst x)) as Hw.
    { subst ws. rewrite map_app, lookup_app_r by (by rewrite length_map).
      by rewrite length_map, Nat.sub_diag. }
    assert (ws = (read ++ [x]) ++ rest) as Hws by (subst ws; by rewrite <- app_assoc).
    assert (x ∈ ws) as Hx by (subst ws; apply elem_of_app; right; left).
    unfold Polish.collect_window at 1. rewrite Hst, Hw.
    cbn [Polish.num_polished_windows Polish.polished_data Polish.dst].
    rewrite <- succeeded_count_snoc, <- sequence_text_snoc.
    rewrite wrap32_small.
    2:{ pose proof (succeeded_count_le (open ++ [x])) as Hle.
        rewrite length_app in Hle. simpl in Hle.
        subst ws. rewrite length_app in H32. simpl in H32. lia. }
    assert (length (map fst ws) = (length read + S (length rest))%nat) as Hlen.
    { subst ws. by rewrite length_map, length_app. }
    rewrite Hlen.
    assert (forall open' out',
      (length open' <= S (length read))%nat -> (rest = [] -> open' = []) ->
      for_each
        (Polish.collect_window (map fst ws) sequences_ targets_coverages_ type_
           drop_unpolished_sequences (map snd ws))
        (seq (S (length read)) (length rest))
        (Polish.MkCollector (sequence_text open') (succeeded_count open') out') =
      Ret (Polish.MkCollector EmptyString 0
             (out' ++ omap Emitted (continued_sequences open' rest))) tt) as Hgo.
    { intros open' out' Hlen' Hend'. specialize (IH (read ++ [x]) open' out').
      rewrite length_app in IH. simpl in IH.
      replace (length read + 1)%nat with (S (length read)) in IH by lia.
      rewrite <- Hws in IH. apply IH; try done. }
    remember (seq (S (length read)) (length rest)) as tail eqn:Htail.
    clear IH Htail.
    destruct rest as [|y rest].
    + (* the last window *)
      rewrite decide_True by (simpl; lia).
      rewrite continued_sequences_close by done.
      rewrite <- sequence_ratio_snoc by (by apply Hrank).
      rewrite omap_cons_unfold. unfold emitted at 1. unfold sequence_kept, sequence_record.
      rewrite last_snoc. cbn [mbind option_bind].
      destruct (negb drop_unpolished_sequences || double_gt0 _).
      * destruct (Hids x Hx) as [[name ->] [coverage ->]]. cbn [mbind option_bind].
        rewrite (Hgo [] _) by (simpl; done || lia). by rewrite <- app_assoc.
      * by rewrite (Hgo [] _) by (simpl; done || lia).
    + rewrite decide_False by (simpl; lia).
      assert (map fst ws !! S (length read) = Some (fst y)) as Hy.
      { subst ws. rewrite map_app, lookup_app_r by (rewrite length_map; lia).
        rewrite length_map. by replace (S (length read) - length read)%nat with 1%nat by lia. }
      rewrite Hy. cbn [fmap option_fmap option_map].
      destruct (N.eqb_spec (rank (fst y)) 0) as [Hz|Hnz].
      * (* the next window starts a sequence *)
        rewrite continued_sequences_close by done.
        rewrite <- sequence_ratio_snoc by (by apply Hrank).
        rewrite omap_cons_unfold. unfold emitted at 1. unfold sequence_kept, sequence_record.
        rewrite last_snoc. cbn [mbind option_bind].
        destruct (negb drop_unpolished_sequences || double_gt0 _).
        -- destruct (Hids x Hx) as [[name ->] [coverage ->]]. cbn [mbind option_bind].
           rewrite (Hgo [] _) by (simpl; done || lia). by rewrite <- app_assoc.
        -- by rewrite (Hgo [] _) by (simpl; done || lia).
      * (* the sequence goes on *)
        rewrite continued_sequences_open by done.
        apply Hgo; [|done]. rewrite length_app. simpl. lia.
Qed.

(** The output loop emits, in order, what each source sequence
    contributes. *)
Lemma collect_refines (windows_ : list W) (status : list bool) (dst0 : list Sequence) :
  length status = length windows_ ->
  N.of_nat (length windows_) < 2 ^ 32 ->
  (forall w, w ∈ windows_ -> rank w + 1 < 2 ^ 32) ->
  (forall w, w ∈ windows_ -> is_Some (sequences_ !! N.to_nat (id w)) /\
                             is_Some (targets_coverages_ !! N.to_nat (id w))) ->
  Polish.collect windows_ sequences_ targets_coverages_ type_
    drop_unpolished_sequences status dst0 =
  Ret (Polish.MkCollector EmptyString 0
         (dst0 ++ omap Emitted (source_sequences (zip windows_ status)))) tt.
Proof.
  intros Hlen H32 Hrank Hids. unfold Polish.collect.
  pose proof (collect_from [] [] (zip windows_ status) dst0) as H.
  simpl in H. change (map fst ?l) with (l.*1) in H. change (map snd ?l) with (l.*2) in H.
  rewrite fst_zip, snd_zip, length_zip, Hlen, Nat.min_id, continued_sequences_nil in H by lia.
  apply H; try done.
  - intros x Hx. apply Hrank. rewrite <- (fst_zip windows_ status) by lia.
    apply list_elem_of_fmap. by exists x.
  - intros x Hx. apply Hids. rewrite <- (fst_zip windows_ status) by lia.
    apply list_elem_of_fmap. by exists x.
Qed.
End PolishCollect.

(** ** [find_overlap_breaking_points]: the filler and the runners *)

Lemma pending_launch {B : Type} (units : list B) :
  pending (map (fun b : B => (b, Idle)) units) = [].
Proof. unfold pending. induction units; simpl; done. Qed.

Section OverlapsFacts.
Context {B O : Type} `{!CUDABatchAligner B O}.
Variable overlaps : list O.
Variable window_length_ : N.

Local Abbreviation count := (wrap32 (N.of_nat (length overlaps))).
Local Abbreviation Fill := (Overlaps.fill_next_batch overlaps).
Local Abbreviation Work := (Overlaps.launch_workload window_length_).
Local Abbreviation Step := (Overlaps.process_batch_step overlaps window_length_).

Lemma overlaps_fill_returns sh b :
  exists next b' lines,
    fill_loop addOverlap overlaps count
      (N.to_nat (count - Overlaps.next_overlap_index sh))
      (Overlaps.next_overlap_index sh) (aligner_reset b) = (next, b', None) /\
    Fill sh b = Ret (Overlaps.MkShared next lines, b') (Overlaps.next_overlap_index sh, next).
Proof.
  unfold Overlaps.fill_next_batch.
  pose proof (fill_loop_no_exn addOverlap overlaps count (wrap32_le _) (wrap32_lt _)
                (N.to_nat (count - Overlaps.next_overlap_index sh))
                (Overlaps.next_overlap_index sh) (aligner_reset b)) as Hexn.
  destruct (fill_loop _ _ _ _ _ _) as [[next b'] e]. simpl in Hexn. subst e.
  eauto.
Qed.

Lemma overlaps_fill_range sh b sh' b' rg :
  Fill sh b = Ret (sh', b') rg ->
  rg = (Overlaps.next_overlap_index sh, Overlaps.next_overlap_index sh') /\
  Overlaps.next_overlap_index sh <= Overlaps.next_overlap_index sh' /\
  (Overlaps.next_overlap_index sh <= count -> Overlaps.next_overlap_index sh' <= count).
Proof.
  destruct (overlaps_fill_returns sh b) as (next & b0 & lines & Hloop & ->).
  intros [= <- <- <-]. simpl.
  pose proof (fill_loop_cursor addOverlap overlaps count (wrap32_le _) (wrap32_lt _)
                (N.to_nat (count - Overlaps.next_overlap_index sh))
                (Overlaps.next_overlap_index sh) (aligner_reset b)) as [H1 H2].
  rewrite Hloop in H1, H2. done.
Qed.

Lemma overlaps_fill_never_throws sh b st e : Fill sh b <> Throw st e.
Proof. destruct (overlaps_fill_returns sh b) as (next & b0 & lines & _ & ->). discriminate. Qed.

Lemma overlaps_step_chained i s :
  chained 0 (sys_issued s) (Overlaps.next_overlap_index (sys_shared s)) ->
  chained 0 (sys_issued (Step i s)) (Overlaps.next_overlap_index (sys_shared (Step i s))).
Proof.
  apply step_chained.
  - intros sh b sh' b' rg Hout.
    destruct (overlaps_fill_range _ _ _ _ _ Hout) as (? & ? & _). done.
  - apply overlaps_fill_never_throws.
  - intros rg sh b sh' b' u [= <- <-]. done.
  - intros rg sh b sh' b' e [=].
Qed.

(** The ranges issued and executed in a run of the aligner units. *)
Lemma overlaps_joined (units : list B) sched fuel s :
  run_and_wait Fill hasOverlaps Work sched fuel (launch (Overlaps.MkShared 0 []) units) = Some s ->
  chained 0 (sys_issued s) (Overlaps.next_overlap_index (sys_shared s)) /\
  sys_launched s ++ pending (sys_units s) ⊆+ sys_issued s /\
  settled s = true.
Proof.
  unfold run_and_wait. destruct (settled _) eqn:Hs; [|done]. intros [= <-].
  split; [|split; [|done]].
  - apply (finish_invariant Fill hasOverlaps Work
             (fun s => chained 0 (sys_issued s) (Overlaps.next_overlap_index (sys_shared s))));
      [apply overlaps_step_chained|].
    apply (run_invariant Fill hasOverlaps Work
             (fun s => chained 0 (sys_issued s) (Overlaps.next_overlap_index (sys_shared s))));
      [apply overlaps_step_chained|]. done.
  - apply (finish_invariant Fill hasOverlaps Work
             (fun s => sys_launched s ++ pending (sys_units s) ⊆+ sys_issued s));
      [apply step_launched_issued|].
    apply (run_invariant Fill hasOverlaps Work
             (fun s => sys_launched s ++ pending (sys_units s) ⊆+ sys_issued s));
      [apply step_launched_issued|].
    simpl.
    rewrite pending_launch. simpl. reflexivity.
Qed.
End OverlapsFacts.

(** ** [polish]: the batch units created *)

Lemma insert_split {A : Type} (l : list A) i x :
  l !! i = Some x ->
  exists l1 l2, l = l1 ++ x :: l2 /\ forall y, <[i := y]> l = l1 ++ y :: l2.
Proof.
  intros Hi. exists (take i l), (drop (S i) l).
  split; [by rewrite take_drop_middle|].
  intros y. apply insert_take_drop. by eapply lookup_lt_Some.
Qed.

Section PolishBatches.
Context {B W : Type} `{!CUDABatchProcessor B W}.
Variable num_devices_ : N.

Local Abbreviation Bin := (Polish.bin_batches num_devices_).

Lemma bin_batches_sum todo i per_gpu :
  0 < num_devices_ -> length per_gpu = N.to_nat num_devices_ ->
  i + N.of_nat todo < 2 ^ 32 ->
  Forall (fun c => c <= i) per_gpu ->
  exists per_gpu',
    Bin todo i per_gpu = Ret per_gpu' tt /\
    length per_gpu' = length per_gpu /\
    (sum_list_with N.to_nat per_gpu' = sum_list_with N.to_nat per_gpu + todo)%nat.
Proof.
  intros Hdev. revert i per_gpu.
  induction todo as [|todo IH]; intros i per_gpu Hlen H32 Hle; simpl.
  - exists per_gpu. split; [done|]. split; [done|lia].
  - destruct (N.eqb_spec num_devices_ 0) as [?|_]; [lia|].
    assert (i mod num_devices_ < num_devices_) as Hmod by (apply N.mod_lt; lia).
    rewrite wrap32_small.
    2:{ pose proof (N.Div0.mod_le i num_devices_). lia. }
    destruct (lookup_lt_is_Some_2 per_gpu (N.to_nat (i mod num_devices_))) as [c Hc]; [lia|].
    rewrite Hc.
    assert (c <= i) as Hci.
    { rewrite Forall_forall in Hle. apply Hle. by eapply list_elem_of_lookup_2. }
    rewrite !wrap32_small by lia.
    destruct (IH (i + 1) (<[N.to_nat (i mod num_devices_) := c + 1]> per_gpu))
      as (per_gpu' & -> & Hlen' & Hsum).
    + by rewrite length_insert.
    + lia.
    + apply Forall_insert; [|lia].
      eapply Forall_impl; [exact Hle|]. simpl. lia.
    + exists per_gpu'. split; [done|]. rewrite Hlen', length_insert. split; [done|].
      rewrite Hsum.
      destruct (insert_split per_gpu _ _ Hc) as (l1 & l2 & Heq & Hins).
      rewrite Hins, Heq, !sum_list_with_app. simpl. lia.
Qed.

Lemma length_concat_replicate (f : nat -> B) (per_gpu : list N) :
  length (concat (imap (fun device c => replicate (N.to_nat c) (f device)) per_gpu)) =
  sum_list_with N.to_nat per_gpu.
Proof.
  revert f. induction per_gpu as [|c per_gpu IH]; intros f; simpl; [done|].
  rewrite length_app, length_replicate. f_equal.
  apply (IH (fun device => f (S device))).
Qed.

Lemma length_create_batches per_gpu :
  length (Polish.create_batches (B := B) per_gpu) = sum_list_with N.to_nat per_gpu.
Proof.
  apply (length_concat_replicate
           (fun device => createCUDABatch Polish.MAX_WINDOWS Polish.MAX_DEPTH_PER_WINDOW
                            (N.of_nat device))).
Qed.

(** One batch unit per configured batch, on a machine with a device. *)
Lemma batches_created cuda_batches_ :
  0 < num_devices_ -> cuda_batches_ < 2 ^ 32 ->
  exists per_gpu,
    Bin (N.to_nat cuda_batches_) 0 (replicate (N.to_nat num_devices_) 0) = Ret per_gpu tt /\
    length (Polish.create_batches (B := B) per_gpu) = N.to_nat cuda_batches_.
Proof.
  intros Hdev H32.
  destruct (bin_batches_sum (N.to_nat cuda_batches_) 0 (replicate (N.to_nat num_devices_) 0))
    as (per_gpu & Hbin & _ & Hsum); [done|by rewrite length_replicate|lia| |].
  - apply Forall_forall. intros c Hc. apply elem_of_replicate in Hc as [-> _]. lia.
  - exists per_gpu. split; [done|]. rewrite length_create_batches, Hsum.
    assert (sum_list_with N.to_nat (replicate (N.to_nat num_devices_) 0) = 0%nat) as ->; [|done].
    clear. induction (N.to_nat num_devices_) as [|n IH]; simpl; [done|exact IH].
Qed.
End PolishBatches.

(** ** The filler under the contract of the batch unit *)

Section FillContract.
Context {I B : Type}.
Variable reset_ : B -> B.
Variable add : B -> I -> bool * B.
Variable nonempty : B -> bool.
Variable held : B -> list I.
Context `{!InsertionContract reset_ add nonempty held}.
Variable items : list I.

Local Abbreviation count := (wrap32 (N.of_nat (length items))).

(** After [reset] and the loop the batch holds the items of the range
    that the cursor has crossed, and the loop has stopped for one of its
    two reasons. *)
Lemma fill_loop_contract next b next' b' e :
  next <= count ->
  fill_loop add items count (N.to_nat (count - next)) next (reset_ b) = (next', b', e) ->
  e = None /\ next <= next' /\ next' <= count /\
  held b' = take (N.to_nat next' - N.to_nat next) (drop (N.to_nat next) items) /\
  length (held b') = (N.to_nat next' - N.to_nat next)%nat /\
  (next' = count \/
   exists it b0, items !! N.to_nat next' = Some it /\ add b0 it = (false, b')) /\
  (nonempty b' = true <-> next < next').
Proof.
  intros Hnext Hloop.
  pose proof (wrap32_le (N.of_nat (length items))) as Hcount.
  pose proof (wrap32_lt (N.of_nat (length items))) as H32.
  pose proof (fill_loop_no_exn add items count Hcount H32
                (N.to_nat (count - next)) next (reset_ b)) as He.
  pose proof (fill_loop_cursor add items count Hcount H32
                (N.to_nat (count - next)) next (reset_ b)) as [Hle Hbound].
  pose proof (fill_loop_held add items count Hcount H32 held
                held_add_accepted held_add_refused _ _ _ _ _ _ Hloop) as Hheld.
  pose proof (fill_loop_stops add items count Hcount H32 _ _ _ _ _ Hloop) as Hstop.
  rewrite Hloop in He, Hle, Hbound. simpl in He, Hle, Hbound. specialize (Hbound Hnext).
  pose proof (held_reset b) as Hreset. rewrite Hreset in Hheld. simpl in Hheld.
  assert (length (held b') = (N.to_nat next' - N.to_nat next)%nat) as Hlen.
  { rewrite Hheld, length_take, length_drop. lia. }
  split; [done|]. split; [done|]. split; [done|]. split; [done|]. split; [done|].
  split.
  - destruct Hstop as [?|?]; [left; lia|by right].
  - pose proof (nonempty_held b') as Hiff. rewrite Hiff. split.
    + intros Hne. destruct (held b'); [done|]. simpl in Hlen. lia.
    + intros Hlt Hnil. rewrite Hnil in Hlen. simpl in Hlen. lia.
Qed.

(** With capacity for one item, an empty batch after the loop means that
    the collection is exhausted. *)
Lemma fill_loop_exhausted next b next' b' e :
  accepts_first add held -> next <= count ->
  fill_loop add items count (N.to_nat (count - next)) next (reset_ b) = (next', b', e) ->
  nonempty b' = false -> next' = count.
Proof.
  intros Hfirst Hnext Hloop Hempty.
  destruct (fill_loop_contract _ _ _ _ _ Hnext Hloop)
    as (_ & _ & _ & _ & Hlen & [?|(it & b0 & _ & Hadd)] & Hne); [done|].
  assert (held b' = []) as Hnil.
  { destruct (held b') eqn:Hh; [done|].
    assert (nonempty b' = true) as Ht by (apply nonempty_held; by rewrite Hh).
    congruence. }
  pose proof (held_add_refused _ _ _ Hadd) as Heq.
  pose proof (Hfirst b0 it) as Hacc. rewrite Hadd in Hacc. simpl in Hacc.
  discriminate Hacc. congruence.
Qed.
End FillContract.

(** ** The number of runners does not change *)

Section HarnessUnits.
Context {Sh B : Type}.
Variable fill : Sh -> B -> outcome (Sh * B) (N * N).
Variable has_work : B -> bool.
Variable execute : N * N -> Sh -> B -> outcome (Sh * B) unit.

Lemma step_units_length i (s : sys Sh B) :
  length (sys_units (process_batch_step fill has_work execute i s)) = length (sys_units s).
Proof.
  step_cases i s; simpl; by rewrite ?length_insert.
Qed.

Lemma run_units_length sched (s : sys Sh B) :
  length (sys_units (run fill has_work execute sched s)) = length (sys_units s).
Proof.
  apply (run_invariant fill has_work execute
           (fun s' => length (sys_units s') = length (sys_units s))); [|done].
  intros i s' Hs'. by rewrite step_units_length.
Qed.

Lemma finish_units_length fuel (s : sys Sh B) :
  length (sys_units (finish fill has_work execute fuel s)) = length (sys_units s).
Proof.
  apply (finish_invariant fill has_work execute
           (fun s' => length (sys_units s') = length (sys_units s))); [|done].
  intros i s' Hs'. by rewrite step_units_length.
Qed.
End HarnessUnits.

(** ** [polish] with a batch unit that keeps its contract *)

Section PolishContract.
Context {B W E : Type} `{!CUDABatchProcessor B W} `{!WindowOps W E}.
Variable windows_ : list W.
Variable held : B -> list W.
Context `{!InsertionContract reset addWindow hasWindows held}.

Local Abbreviation count := (wrap32 (N.of_nat (length windows_))).
Local Abbreviation Fill := (Polish.fill_next_batch windows_).
Local Abbreviation cursor := Polish.next_window_index.

(** What [fill_next_batch] does when the progress division is defined. *)
Lemma fill_next_batch_contract sh b :
  Polish.logger_step windows_ <> 0 -> cursor sh <= count ->
  exists sh' b',
    Fill sh b = Ret (sh', b') (cursor sh, cursor sh') /\
    cursor sh <= cursor sh' /\ cursor sh' <= count /\
    held b' = take (N.to_nat (cursor sh') - N.to_nat (cursor sh))
                (drop (N.to_nat (cursor sh)) windows_) /\
    length (held b') = (N.to_nat (cursor sh') - N.to_nat (cursor sh))%nat /\
    (cursor sh' = count \/
     exists w b0, windows_ !! N.to_nat (cursor sh') = Some w /\ addWindow b0 w = (false, b')) /\
    (hasWindows b' = true <-> cursor sh < cursor sh') /\
    Polish.window_consensus_status_ sh' = Polish.window_consensus_status_ sh /\
    Polish.accel_writes sh' = Polish.accel_writes sh.
Proof.
  intros Hstep Hcur.
  destruct (fill_next_batch_cases windows_ sh b)
    as (next & b' & Hloop & [[? _]|[_ (llc & bars & Hfill)]]); [done|].
  destruct (fill_loop_contract reset addWindow hasWindows held windows_ _ _ _ _ _ Hcur Hloop)
    as (_ & Hle & Hbound & Hheld & Hlen & Hstop & Hne).
  exists (Polish.MkShared next llc bars (Polish.window_consensus_status_ sh)
            (Polish.accel_writes sh)), b'.
  rewrite Hfill. simpl.
  split; [done|]. split; [done|]. split; [done|]. split; [done|]. split; [done|].
  split; [done|]. split; [done|]. done.
Qed.

(** The runners of [polish] finish under every schedule. *)
Lemma polish_runners_finish (units : list B) status sched :
  exists s,
    run_and_wait Fill hasWindows Polish.launch_workload sched
      (2 * length windows_ + 2 * length units)
      (launch (Polish.MkShared 0 0 0 status []) units) = Some s /\ settled s = true.
Proof.
  pose proof (wrap32_le (N.of_nat (length windows_))) as Hcount.
  destruct (run_and_wait_returns Fill hasWindows Polish.launch_workload cursor count
              (fun sh => cursor sh <= count)) with
    (sched := sched) (fuel := (2 * length windows_ + 2 * length units)%nat)
    (sh := Polish.MkShared 0 0 0 status []) (units := units)
    as (s & Hs & _ & Hset).
  - done.
  - intros sh b sh' b' rg Hg Hout.
    destruct (fill_next_batch_cases windows_ sh b)
      as (next & b0 & Hloop & [[_ Hu]|[_ (llc & bars & Hfill)]]); [congruence|].
    rewrite Hfill in Hout. injection Hout as <- <- <-. simpl.
    destruct (fill_loop_contract reset addWindow hasWindows held windows_ _ _ _ _ _ Hg Hloop)
      as (_ & Hle & Hbound & _ & _ & _ & Hne).
    split; [done|]. split; [done|]. by apply Hne.
  - intros sh b sh' b' e _ Hout. by apply fill_next_batch_never_throws in Hout.
  - intros rg sh b sh' b' u Hg Hout.
    rewrite (launch_workload_cursor rg sh b sh' b') by eauto. done.
  - intros rg sh b sh' b' e Hg Hout.
    rewrite (launch_workload_cursor rg sh b sh' b') by eauto. done.
  - simpl. lia.
  - simpl. lia.
  - eauto.
Qed.

(** With capacity for one window and one result per window, on a
    collection for which the progress division is defined, no runner
    raises and the ranges issued cover the collection. *)
Lemma polish_ranges_cover (units : list B) sched fuel s :
  accepts_first addWindow held -> results_match held ->
  Polish.logger_step windows_ <> 0 -> units <> [] ->
  run_and_wait Fill hasWindows Polish.launch_workload sched fuel
    (launch (Polish.MkShared 0 0 0 (resize [] (length windows_) false) []) units) = Some s ->
  sys_halt s = None /\
  cursor (sys_shared s) = count /\
  chained 0 (sys_issued s) count /\
  flat_map indices (sys_issued s) = seq 0 (N.to_nat count) /\
  Forall (fun u => snd u = Returned) (sys_units s).
Proof.
  intros Hfirst Hres Hstep Hunits.
  pose proof (wrap32_le (N.of_nat (length windows_))) as Hcount.
  pose proof (wrap32_lt (N.of_nat (length windows_))) as H32.
  set (good := fun sh : Polish.shared =>
                 cursor sh <= count /\
                 length (Polish.window_consensus_status_ sh) = length windows_).
  set (ready := fun (rg : N * N) (b : B) =>
                  fst rg <= snd rg /\ snd rg <= count /\
                  length (held b) = (N.to_nat (snd rg) - N.to_nat (fst rg))%nat).
  assert (forall i s, healthy cursor good ready count s ->
            healthy cursor good ready count (Polish.process_batch_step windows_ i s)) as Hkeep.
  { apply step_healthy.
    - intros sh [? _]. done.
    - intros sh b [Hg Hlen].
      destruct (fill_next_batch_contract sh b Hstep Hg)
        as (sh' & b' & Hfill & Hle & Hbound & _ & Hheld & Hstop & Hne & Hst & _).
      exists sh', b'. split; [done|]. split; [split; [done|congruence]|].
      split; [done|]. split.
      + intros Hw. unfold ready. simpl. split; [done|]. split; done.
      + intros Hw. destruct (fill_next_batch_cases windows_ sh b)
          as (next & b0 & Hloop & [[? _]|[_ (llc & bars & Hfill')]]); [done|].
        rewrite Hfill' in Hfill. injection Hfill as <- <-. simpl.
        exact (fill_loop_exhausted reset addWindow hasWindows held windows_
                 (cursor sh) b next b0 None Hfirst Hg Hloop Hw).
    - intros rg sh b [Hg Hlen] (Hle & Hbound & Hheld).
      destruct (launch_workload_cases rg sh b)
        as [(Hne & _)|(_ & status' & Hret & Hlen' & _)]; [done|lia|lia| |].
      + rewrite Hres, Hheld, length_indices in Hne. done.
      + eexists _, _. split; [exact Hret|]. simpl. split; [|done].
        unfold good. simpl. split; [done|congruence]. }
  unfold run_and_wait. destruct (settled _) eqn:Hset; [|done]. intros [= <-].
  match goal with |- context [finish _ _ _ fuel ?s0] => set (s1 := s0) in * end.
  assert (healthy cursor good ready count (finish Fill hasWindows Polish.launch_workload fuel s1))
    as Hh.
  { apply finish_invariant; [exact Hkeep|]. apply run_invariant; [exact Hkeep|].
    apply healthy_launch; [|done]. split; simpl; [lia|].
    unfold resize. rewrite take_nil, length_app, length_replicate. simpl. lia. }
  destruct (healthy_settled cursor count good ready _ Hh Hset) as (Hc & Hch & Hret).
  { intros Hnil.
    assert (length (sys_units (finish Fill hasWindows Polish.launch_workload fuel s1))
            = length units) as Hl.
    { subst s1. rewrite finish_units_length, run_units_length. simpl. by rewrite length_map. }
    rewrite Hnil in Hl. destruct units; [done|]. simpl in Hl. lia. }
  destruct Hh as (Hhalt & _).
  split; [done|]. split; [done|]. split; [done|]. split; [|done].
  rewrite (chained_indices _ _ _ Hch). f_equal. lia.
Qed.
End PolishContract.

(** ** [find_overlap_breaking_points] with a unit that keeps its contract *)

Section OverlapsContract.
Context {B O : Type} `{!CUDABatchAligner B O}.
Variable overlaps : list O.
Variable window_length_ : N.
Variable held : B -> list O.
Context `{!InsertionContract aligner_reset addOverlap hasOverlaps held}.

Local Abbreviation count := (wrap32 (N.of_nat (length overlaps))).
Local Abbreviation Fill := (Overlaps.fill_next_batch overlaps).
Local Abbreviation Work := (Overlaps.launch_workload window_length_).
Local Abbreviation cursor := Overlaps.next_overlap_index.

Lemma overlaps_fill_contract sh b :
  cursor sh <= count ->
  exists sh' b',
    Fill sh b = Ret (sh', b') (cursor sh, cursor sh') /\
    cursor sh <= cursor sh' /\ cursor sh' <= count /\
    held b' = take (N.to_nat (cursor sh') - N.to_nat (cursor sh))
                (drop (N.to_nat (cursor sh)) overlaps) /\
    (cursor sh' = count \/
     exists o b0, overlaps !! N.to_nat (cursor sh') = Some o /\ addOverlap b0 o = (false, b')) /\
    (hasOverlaps b' = true <-> cursor sh < cursor sh').
Proof.
  intros Hcur.
  destruct (overlaps_fill_returns overlaps sh b) as (next & b' & lines & Hloop & Hfill).
  destruct (fill_loop_contract aligner_reset addOverlap hasOverlaps held overlaps
              _ _ _ _ _ Hcur Hloop)
    as (_ & Hle & Hbound & Hheld & Hlen & Hstop & Hne).
  exists (Overlaps.MkShared next lines), b'. rewrite Hfill. simpl.
  split; [done|]. split; [done|]. split; [done|]. split; [done|]. split; done.
Qed.

(** The runners of the alignment phase finish under every schedule. *)
Lemma overlaps_runners_finish (units : list B) sched :
  exists s,
    run_and_wait Fill hasOverlaps Work sched
      (2 * length overlaps + 2 * length units)
      (launch (Overlaps.MkShared 0 []) units) = Some s /\ settled s = true.
Proof.
  pose proof (wrap32_le (N.of_nat (length overlaps))) as Hcount.
  destruct (run_and_wait_returns Fill hasOverlaps Work cursor count
              (fun sh => cursor sh <= count)) with
    (sched := sched) (fuel := (2 * length overlaps + 2 * length units)%nat)
    (sh := Overlaps.MkShared 0 []) (units := units)
    as (s & Hs & _ & Hset).
  - done.
  - intros sh b sh' b' rg Hg Hout.
    destruct (overlaps_fill_contract sh b Hg)
      as (sh1 & b1 & Hfill & Hle & Hbound & _ & _ & Hne).
    rewrite Hfill in Hout. injection Hout as <- <- <-.
    split; [done|]. split; [done|]. by apply Hne.
  - intros sh b sh' b' e _ Hout. by apply overlaps_fill_never_throws in Hout.
  - intros rg sh b sh' b' u Hg [= <- <-]. done.
  - intros rg sh b sh' b' e Hg [=].
  - simpl. lia.
  - simpl. lia.
  - eauto.
Qed.

(** With capacity for one overlap, the ranges issued cover the
    collection, whatever its size below 2^32. *)
Lemma overlaps_ranges_cover (units : list B) sched fuel s :
  accepts_first addOverlap held -> units <> [] ->
  run_and_wait Fill hasOverlaps Work sched fuel (launch (Overlaps.MkShared 0 []) units) = Some s ->
  sys_halt s = None /\
  cursor (sys_shared s) = count /\
  chained 0 (sys_issued s) count /\
  flat_map indices (sys_issued s) = seq 0 (N.to_nat count) /\
  Forall (fun u => snd u = Returned) (sys_units s).
Proof.
  intros Hfirst Hunits.
  set (good := fun sh : Overlaps.shared => cursor sh <= count).
  set (ready := fun (rg : N * N) (b : B) => True).
  assert (forall i s, healthy cursor good ready count s ->
            healthy cursor good ready count
              (Overlaps.process_batch_step overlaps window_length_ i s)) as Hkeep.
  { apply step_healthy.
    - done.
    - intros sh b Hg.
      destruct (overlaps_fill_contract sh b Hg)
        as (sh' & b' & Hfill & Hle & Hbound & _ & Hstop & Hne).
      exists sh', b'. split; [done|]. split; [done|]. split; [done|]. split; [done|].
      intros Hw.
      destruct (overlaps_fill_returns overlaps sh b) as (next & b0 & lines & Hloop & Hfill').
      rewrite Hfill' in Hfill. injection Hfill as <- <-. simpl.
      exact (fill_loop_exhausted aligner_reset addOverlap hasOverlaps held overlaps
               (cursor sh) b next b0 None Hfirst Hg Hloop Hw).
    - intros rg sh b Hg _. eexists _, _. split; [reflexivity|]. done. }
  unfold run_and_wait. destruct (settled _) eqn:Hset; [|done]. intros [= <-].
  match goal with |- context [finish _ _ _ fuel ?s0] => set (s1 := s0) in * end.
  assert (healthy cursor good ready count (finish Fill hasOverlaps Work fuel s1)) as Hh.
  { apply finish_invariant; [exact Hkeep|]. apply run_invariant; [exact Hkeep|].
    apply healthy_launch; [|done]. unfold good. simpl. lia. }
  destruct (healthy_settled cursor count good ready _ Hh Hset) as (Hc & Hch & Hret).
  { intros Hnil.
    assert (length (sys_units (finish Fill hasOverlaps Work fuel s1)) = length units) as Hl.
    { subst s1. rewrite finish_units_length, run_units_length. simpl. by rewrite length_map. }
    rewrite Hnil in Hl. destruct units; [done|]. simpl in Hl. lia. }
  destruct Hh as (Hhalt & _).
  split; [done|]. split; [done|]. split; [done|]. split; [|done].
  rewrite (chained_indices _ _ _ Hch). f_equal. lia.
Qed.
End OverlapsContract.

(** ** The stub units keep the contract *)

Lemma test_processor_contract capacity missing :
  @InsertionContract (list test_window) test_window
    (@reset _ _ (test_processor capacity missing))
    (@addWindow _ _ (test_processor capacity missing))
    (@hasWindows _ _ (test_processor capacity missing))
    (fun b => b).
Proof.
  split; simpl.
  - done.
  - intros b w b'. case_decide; [|done]. by intros [= <-].
  - intros b w b'. case_decide; [done|]. by intros [= <-].
  - intros b. by destruct b.
Qed.

Lemma test_processor_accepts_first capacity missing :
  (0 < capacity)%nat ->
  accepts_first (@addWindow _ _ (test_processor capacity missing)) (fun b => b).
Proof. intros Hc b w ->. simpl. by rewrite decide_True by (simpl; lia). Qed.

Lemma test_processor_results_match capacity :
  @results_match _ _ (test_processor capacity 0) (fun b => b).
Proof.
  intros b. simpl. rewrite Nat.sub_0_r, length_take, length_map. lia.
Qed.

Lemma test_aligner_contract capacity :
  @InsertionContract (list nat) nat
    (@aligner_reset _ _ (test_aligner capacity))
    (@addOverlap _ _ (test_aligner capacity))
    (@hasOverlaps _ _ (test_aligner capacity))
    (fun b => b).
Proof.
  split; simpl.
  - done.
  - intros b w b'. case_decide; [|done]. by intros [= <-].
  - intros b w b'. case_decide; [done|]. by intros [= <-].
  - intros b. by destruct b.
Qed.

Lemma test_aligner_accepts_first capacity :
  (0 < capacity)%nat ->
  accepts_first (@addOverlap _ _ (test_aligner capacity)) (fun b => b).
Proof. intros Hc b w ->. simpl. by rewrite decide_True by (simpl; lia). Qed.

(** ** The claims about the filler *)

Section FillerClaims.
Context {B W E : Type} `{!CUDABatchProcessor B W} `{!WindowOps W E}.
Variable windows_ : list W.

Local Abbreviation Fill := (Polish.fill_next_batch windows_).
Local Abbreviation Work := Polish.launch_workload.
Local Abbreviation cursor := Polish.next_window_index.

(** C7: in a run of [polish], under any schedule of the runners and for
    any batch unit, the ranges returned by [fill_next_batch], taken in the
    order of the calls, follow one another: the first starts at 0 and each
    starts where the one before it ended, none runs backwards, and the
    last ends at the cursor; so the ranges list the indexes from 0 up to
    the cursor in increasing order, each new range starting at the lowest
    index not yet assigned; and no action of any runner lowers the
    cursor. *)
Theorem ranges_follow_the_cursor (units : list B) (status : list bool) (sched : list nat) :
  let s := run Fill hasWindows Work sched (launch (Polish.MkShared 0 0 0 status []) units) in
  chained 0 (sys_issued s) (cursor (sys_shared s)) /\
  flat_map indices (sys_issued s) = seq 0 (N.to_nat (cursor (sys_shared s))) /\
  forall i, cursor (sys_shared s)
            <= cursor (sys_shared (Polish.process_batch_step windows_ i s)).
Proof.
  simpl.
  assert (chained 0
            (sys_issued (run Fill hasWindows Work sched
                           (launch (Polish.MkShared 0 0 0 status []) units)))
            (cursor (sys_shared (run Fill hasWindows Work sched
                                   (launch (Polish.MkShared 0 0 0 status []) units)))))
    as Hch.
  { apply (run_invariant Fill hasWindows Work
             (fun s => chained 0 (sys_issued s) (cursor (sys_shared s))));
      [apply polish_step_chained|done]. }
  split; [done|]. split.
  - rewrite (chained_indices _ _ _ Hch). f_equal. lia.
  - intros i. apply step_cursor_mono.
    + intros sh b sh' b' rg Hout.
      destruct (fill_next_batch_range _ _ _ _ _ _ Hout) as (? & ? & _). done.
    + apply fill_next_batch_never_throws.
    + intros rg sh b sh' b' u Hout. apply (launch_workload_cursor rg sh b sh' b'). eauto.
    + intros rg sh b sh' b' e Hout. apply (launch_workload_cursor rg sh b sh' b'). eauto.
Qed.

(** Every call of [fill_next_batch] on a collection of fewer than 20
    windows divides by zero. *)
Lemma fill_small_collection_undefined sh b :
  (length windows_ < 20)%nat -> Fill sh b = Undefined.
Proof.
  intros Hsmall.
  destruct (fill_next_batch_cases windows_ sh b)
    as (next & b' & _ & [[_ ->]|[Hnz _]]); [done|].
  by rewrite logger_step_zero in Hnz.
Qed.

(** On such a collection the first runner to act stops the process: no
    range is ever issued. *)
Lemma small_collection_halts (units : list B) status sched fuel :
  (length windows_ < 20)%nat ->
  let s := finish Fill hasWindows Work fuel
             (run Fill hasWindows Work sched (launch (Polish.MkShared 0 0 0 status []) units)) in
  sys_issued s = [] /\ sys_launched s = [] /\
  (settled s = true -> units <> [] -> sys_halt s = Some HaltUndefined).
Proof.
  intros Hsmall. simpl.
  set (Q := fun s : sys Polish.shared B =>
              sys_issued s = [] /\ sys_launched s = [] /\
              length (sys_units s) = length units /\
              ((sys_halt s = None /\ Forall (fun u => snd u = Idle) (sys_units s)) \/
               sys_halt s = Some HaltUndefined)).
  assert (forall i s, Q s -> Q (process_batch_step Fill hasWindows Work i s)) as Hkeep.
  { intros i s (Hi & Hl & Hlen & Hcase). unfold process_batch_step.
    destruct Hcase as [[Hhalt Hidle]|Hhalt]; rewrite Hhalt; [|by repeat split; auto].
    destruct (sys_units s !! i) as [[b p]|] eqn:Hunit; [|by repeat split; auto].
    assert (p = Idle) as ->.
    { rewrite Forall_forall in Hidle. apply (Hidle (b, p)). by eapply list_elem_of_lookup_2. }
    rewrite fill_small_collection_undefined by done.
    repeat split; simpl; auto. }
  assert (Q (finish Fill hasWindows Work fuel
               (run Fill hasWindows Work sched
                  (launch (Polish.MkShared 0 0 0 status []) units)))) as (Hi & Hl & Hlen & Hcase).
  { apply finish_invariant; [exact Hkeep|]. apply run_invariant; [exact Hkeep|].
    repeat split; simpl; [by rewrite length_map|].
    left. split; [done|]. apply Forall_forall. intros u Hu.
    apply list_elem_of_fmap in Hu as (b & -> & _). done. }
  split; [done|]. split; [done|]. intros Hset Hunits.
  destruct Hcase as [[Hhalt Hidle]|Hhalt]; [|done].
  unfold settled in Hset. rewrite Hhalt in Hset.
  destruct (sys_units _) as [|[b p] rest] eqn:Hu.
  - destruct units; [done|]. simpl in Hlen. lia.
  - apply Forall_cons in Hidle as [Hp _]. simpl in Hp. subst p. simpl in Hset. done.
Qed.
End FillerClaims.

(** A run of two units with room for eight windows on twenty windows:
    the ranges in the order of the fills, and in the order of the
    executions. *)
Example ranges_of_a_run :
  sys_issued <$> test_runners 8 0 twenty_windows 2 [0; 1; 1; 0]%nat
    = Some [(0, 8); (8, 16); (16, 20); (20, 20); (20, 20)] /\
  sys_launched <$> test_runners 8 0 twenty_windows 2 [0; 1; 1; 0]%nat
    = Some [(8, 16); (0, 8); (16, 20)].
Proof. split; vm_compute; reflexivity. Qed.

Lemma small_collection_joined {B W : Type} `{!CUDABatchProcessor B W}
  (windows_ : list W) (units : list B) status sched fuel s :
  (length windows_ < 20)%nat -> units <> [] ->
  run_and_wait (Polish.fill_next_batch windows_) hasWindows Polish.launch_workload
    sched fuel (launch (Polish.MkShared 0 0 0 status []) units) = Some s ->
  sys_halt s = Some HaltUndefined /\ sys_issued s = [].
Proof.
  intros Hsmall Hunits. unfold run_and_wait.
  destruct (settled _) eqn:Hset; [|done]. intros [= <-].
  destruct (small_collection_halts windows_ units status sched fuel Hsmall)
    as (Hi & _ & Hhalt).
  split; [by apply Hhalt|done].
Qed.

(** C1, at five windows: with two batch units of capacity two, under
    every schedule, the first call of [fill_next_batch] divides by the
    zero [logger_step]; the accelerator phase of [polish] has no defined
    behaviour, and when the runners have stopped no range has been
    issued, so that the ranges do not cover the five indexes. *)
Theorem five_windows_are_not_covered (sched : list nat) :
  test_accelerator_phase 2 0 2 five_windows sched = Some Undefined /\
  exists s, test_runners 2 0 five_windows 2 sched = Some s /\
            sys_halt s = Some HaltUndefined /\
            flat_map indices (sys_issued s) = [] /\
            flat_map indices (sys_issued s) <> seq 0 (length five_windows).
Proof.
  destruct (@polish_runners_finish _ _ (test_processor 2 0) five_windows
              (fun b => b) (test_processor_contract 2 0)
              [[]; []] (resize [] (length five_windows) false) sched) as (s & Hs & Hset).
  pose proof Hs as Hs'.
  apply (@small_collection_joined _ _ (test_processor 2 0)) in Hs' as [Hhalt Hi];
    [|vm_compute; lia|done].
  split.
  - unfold test_accelerator_phase, Polish.accelerator_phase.
    change (Polish.bin_batches 1 (N.to_nat 2) 0 (replicate (N.to_nat 1) 0))
      with (@Ret (list N) unit [2] tt).
    cbv beta iota zeta.
    change (Polish.create_batches [2]) with [@nil test_window; @nil test_window].
    rewrite Hs, Hhalt. done.
  - exists s. split; [exact Hs|]. rewrite Hi. done.
Qed.

(** C4, at an empty collection and at five windows: whatever the shared
    state and the batch, [fill_next_batch] does not return a range; it
    divides by the zero [logger_step].  The collection "already exhausted"
    from the start is the first of the two. *)
Theorem fill_on_small_collections (sh : Polish.shared) (b : list test_window) :
  @Polish.fill_next_batch _ _ (test_processor 2 0) [] sh b = Undefined /\
  @Polish.fill_next_batch _ _ (test_processor 2 0) five_windows sh b = Undefined.
Proof.
  split; apply (@fill_small_collection_undefined _ _ (test_processor 2 0));
    simpl; lia.
Qed.

(** C3, at twenty windows and one batch unit that returns 19 results for
    the 20 windows it holds: the runner raises the [runtime_error], the
    main thread gets past its [wait], the fallback pass recomputes the
    twenty windows and [polish] returns normally with one record in the
    destination vector. *)
Theorem mismatch_does_not_abort :
  (exists s what,
     test_accelerator_phase 20 1 1 twenty_windows [] = Some (Ret s tt) /\
     map snd (sys_units s) = [Raised (runtime_error what)] /\
     sys_issued s = [(0, 20)]) /\
  exists record,
    test_polish 20 1 1 twenty_windows false []
      = Some (Ret (replicate 20 true, [record]) tt) /\
    seq_data record = "AAAAAAAAAAAAAAAAAAAA"%string.
Proof.
  split.
  - eexists _, _. vm_compute. split; [reflexivity|]. split; reflexivity.
  - eexists. vm_compute. split; reflexivity.
Qed.

(** ** [polish]: what a normal end of the two phases tells *)

Lemma occurrences_filter_seq (P : nat -> Prop) `{!forall i, Decision (P i)} i from len :
  occurrences i (filter P (seq from len)) =
  if decide ((from <= i < from + len)%nat /\ P i) then 1%nat else 0%nat.
Proof.
  unfold occurrences. revert from. induction len as [|len IH]; intros from; simpl.
  - rewrite decide_False by (intros [? _]; lia). done.
  - assert (length (filter (fun k => k = i) (filter P (seq (S from) len))) =
            if decide ((S from <= i < S from + len)%nat /\ P i) then 1%nat else 0%nat)
      as IH' by apply IH.
    rewrite filter_cons. destruct (decide (P from)) as [Hp|Hp].
    + rewrite filter_cons. destruct (decide (from = i)) as [->|Hne]; simpl.
      * rewrite IH'. rewrite decide_False by (intros [? _]; lia).
        rewrite decide_True by (split; [lia|done]). done.
      * rewrite IH'. destruct (decide ((S from <= i < S from + len)%nat /\ P i)) as [[? ?]|Hn].
        -- rewrite decide_True by (split; [lia|done]). done.
        -- rewrite decide_False; [done|]. intros [? ?]. apply Hn. split; [lia|done].
    + rewrite IH'. destruct (decide ((S from <= i < S from + len)%nat /\ P i)) as [[? ?]|Hn].
      * rewrite decide_True by (split; [lia|done]). done.
      * rewrite decide_False; [done|]. intros [? ?].
        destruct (decide (from = i)) as [->|Hne]; [done|].
        apply Hn. split; [lia|done].
Qed.

Section PolishPhases.
Context {B W E : Type} `{!CUDABatchProcessor B W} `{!WindowOps W E}.
Variable cuda_batches_ : N.
Variable num_devices_ : N.
Variable windows_ : list W.
Variable thread_to_id_ : gmap nat N.
Variable alignment_engines_ : list E.
Variable worker_of : nat -> nat.

Local Abbreviation Accelerator := (Polish.accelerator_phase cuda_batches_ num_devices_ windows_).
Local Abbreviation Fallback :=
  (Polish.fallback_phase windows_ thread_to_id_ alignment_engines_ worker_of).
Local Abbreviation Tasks :=
  (Polish.run_tasks windows_ thread_to_id_ alignment_engines_ worker_of).
Local Abbreviation Failed := (failed_windows windows_).

(** A normal end of the accelerator phase is the join of the runners of
    some list of units, none of which has stopped the process. *)
Lemma accelerator_phase_ret sched s :
  Accelerator [] sched = Some (Ret s tt) ->
  sys_halt s = None /\
  exists (units : list B) fuel,
    run_and_wait (Polish.fill_next_batch windows_) hasWindows Polish.launch_workload
      sched fuel
      (launch (Polish.MkShared 0 0 0 (resize [] (length windows_) false) []) units) = Some s.
Proof.
  unfold Polish.accelerator_phase.
  destruct (Polish.bin_batches _ _ _ _) as [per_gpu []|? ?| |?]; try done.
  destruct (run_and_wait _ _ _ _ _ _) as [s0|] eqn:Hrun; [|done].
  destruct (sys_halt s0) as [[|c]|] eqn:Hhalt; try done.
  intros [= <-]. split; [done|]. eauto.
Qed.

Lemma accelerator_phase_inv sched s :
  Accelerator [] sched = Some (Ret s tt) ->
  accel_inv windows_ s /\ settled s = true /\ sys_halt s = None.
Proof.
  intros Hacc. destruct (accelerator_phase_ret _ _ Hacc) as (Hhalt & units & fuel & Hrun).
  destruct (accel_inv_joined windows_ units sched fuel s Hrun) as [Hinv Hset]. done.
Qed.

(** A task list that returns has made one assignment per task, each to
    the index of its task. *)
Lemma run_tasks_ret tasks st status' fw :
  (forall j, j ∈ tasks -> (j < length (fst st))%nat) ->
  Tasks tasks st = Ret (status', fw) tt ->
  map fst fw = map fst (snd st) ++ tasks /\
  length status' = length (fst st) /\
  (forall k, k ∉ tasks -> status' !! k = fst st !! k).
Proof.
  revert st. induction tasks as [|j tasks IH]; intros [status writes] Hlt; simpl.
  - intros [= <- <-]. by rewrite app_nil_r.
  - unfold Polish.run_tasks. simpl. unfold Polish.fallback_task at 1.
    destruct (thread_to_id_ !! worker_of j) as [e|]; [|done].
    destruct (windows_ !! j) as [w|]; [|done].
    destruct (alignment_engines_ !! N.to_nat e) as [engine|]; [|done].
    simpl. rewrite decide_True by (apply (Hlt j); left).
    intros Hrest. apply IH in Hrest as (Hfst & Hlen & Hother).
    + simpl in *. rewrite map_app in Hfst. simpl in Hfst.
      rewrite <- app_assoc in Hfst. rewrite length_insert in Hlen.
      split; [done|]. split; [done|].
      intros k Hk. rewrite Hother by (intros ?; apply Hk; by right).
      apply list_lookup_insert_ne. intros ->. apply Hk. left.
    + intros k Hk. simpl. rewrite length_insert. apply (Hlt k). by right.
Qed.

Lemma failed_windows_lt status j : j ∈ Failed status -> (j < length windows_)%nat.
Proof.
  unfold failed_windows. intros [_ Hj%elem_of_seq]%list_elem_of_filter. lia.
Qed.

(** A normal end of the fallback pass: the tasks were those of the
    indexes still [false], and each has made one assignment. *)
Lemma fallback_phase_ret status tasks status' fw :
  length status = length windows_ ->
  Fallback status = Ret (tasks, status', fw) tt ->
  tasks = Failed status /\ map fst fw = tasks /\
  length status' = length status /\
  (forall k, k ∉ tasks -> status' !! k = status !! k).
Proof.
  intros Hlen. unfold Polish.fallback_phase.
  rewrite submit_failed_scan by (simpl; lia). simpl.
  fold (failed_windows windows_ status).
  destruct (Tasks (Failed status) (status, [])) as [[st wr] []|[? ?] ?| |?] eqn:Hrun;
    try done.
  intros [= <- <- <-].
  apply run_tasks_ret in Hrun as (Hfst & Hlen' & Hother).
  - done.
  - intros j Hj. simpl. rewrite Hlen. by eapply failed_windows_lt.
Qed.

Lemma occurrences_failed status i :
  occurrences i (Failed status) =
  if decide ((i < length windows_)%nat /\ status !! i = Some false) then 1%nat else 0%nat.
Proof.
  unfold failed_windows. rewrite occurrences_filter_seq.
  destruct (decide ((i < length windows_)%nat /\ status !! i = Some false)) as [[? ?]|Hn].
  - rewrite decide_True by (split; [lia|done]). done.
  - rewrite decide_False; [done|]. intros [? ?]. apply Hn. split; [lia|done].
Qed.

End PolishPhases.



(** ** The claims about the two passes over the items *)

Section ProcessingClaims.
Context {B W E : Type} `{!CUDABatchProcessor B W} `{!WindowOps W E}.
Context {BA O : Type} `{!CUDABatchAligner BA O}.
Variable cuda_batches_ : N.
Variable num_devices_ : N.
Variable windows_ : list W.
Variable thread_to_id_ : gmap nat N.
Variable alignment_engines_ : list E.
Variable worker_of : nat -> nat.
Variable overlaps : list O.
Variable window_length_ : N.

Local Abbreviation Accelerator := (Polish.accelerator_phase cuda_batches_ num_devices_ windows_).
Local Abbreviation Fallback :=
  (Polish.fallback_phase windows_ thread_to_id_ alignment_engines_ worker_of).
Local Abbreviation Task :=
  (Polish.fallback_task windows_ thread_to_id_ alignment_engines_).
Local Abbreviation Host := (host_result windows_ thread_to_id_ alignment_engines_ worker_of).
Local Abbreviation Failed := (failed_windows windows_).


End ProcessingClaims.


Lemma one_context_engines tid e :
  one_context !! tid = Some e -> (N.to_nat e < length [tt])%nat.
Proof.
  unfold one_context. intros [_ <-]%lookup_singleton_Some. simpl. lia.
Qed.



(** ** The source sequences *)

Section SourceSequences.
Context {W E : Type} `{!WindowOps W E}.
Implicit Types l g : list (W * bool).

(** The sequences are the windows, in order, each in one sequence. *)
Lemma source_sequences_concat l : concat (source_sequences l) = l.
Proof.
  induction l as [|x [|y l] IH]; [done|done|].
  rewrite source_sequences_step.
  destruct (rank (fst y) =? 0).
  - cbn [concat app]. by rewrite IH.
  - pose proof (source_sequences_nonempty (y :: l)) as Hne.
    destruct (source_sequences (y :: l)) as [|g gs]; [by destruct Hne|].
    cbn [concat app] in *. by rewrite IH.
Qed.

(** A window of rank 0 is found only at the head of a sequence, and every
    sequence after the first has one at its head: the sequences end
    exactly where the next window has rank 0, or at the last window. *)
Lemma source_sequences_boundaries l :
  Forall (fun g => g <> [] /\ Forall (fun x => rank (fst x) <> 0) (tail g))
    (source_sequences l) /\
  Forall (fun g => exists x, head g = Some x /\ rank (fst x) = 0)
    (tail (source_sequences l)) /\
  (forall x, head l = Some x ->
     exists g, head (source_sequences l) = Some g /\ head g = Some x).
Proof.
  induction l as [|x [|y l] IH].
  - simpl. repeat split; [constructor|constructor|done].
  - simpl. repeat split.
    + constructor; [|constructor]. split; [done|constructor].
    + constructor.
    + intros ? [= <-]. eauto.
  - rewrite source_sequences_step.
    remember (source_sequences (y :: l)) as groups eqn:Hgr. clear Hgr.
    destruct IH as (Hgroups & Htail & Hhead).
    destruct (Hhead y eq_refl) as (g0 & Hg0 & Hy).
    destruct groups as [|g gs]; [done|].
    cbn [head] in Hg0. injection Hg0 as ->.
    destruct (N.eqb_spec (rank (fst y)) 0) as [Hz|Hnz].
    + split; [|split].
      * constructor; [|done]. split; [done|constructor].
      * cbn [tail]. constructor; [eauto|done].
      * intros ? [= <-]. cbn [head]. eauto.
    + apply Forall_cons in Hgroups as [[Hne Hg] Hgs].
      split; [|split].
      * constructor; [|done]. split; [done|]. cbn [tail].
        destruct g0 as [|y' g0]; [done|]. cbn [head] in Hy. injection Hy as ->.
        constructor; done.
      * done.
      * intros ? [= <-]. cbn [head]. eauto.
Qed.

(** The flags do not move the boundaries. *)
Lemma source_sequences_windows l l' :
  map fst l = map fst l' ->
  map (map fst) (source_sequences l) = map (map fst) (source_sequences l').
Proof.
  revert l'. induction l as [|x [|y l] IH]; intros l' Heq.
  - destruct l'; [done|discriminate].
  - destruct l' as [|x' [|y' l']]; try discriminate.
    simpl in *. by injection Heq as ->.
  - destruct l' as [|x' [|y' l']]; try discriminate.
    rewrite !source_sequences_step.
    injection Heq as Hx Hy Hl.
    assert (map fst (y :: l) = map fst (y' :: l')) as Hrest by (simpl; congruence).
    specialize (IH _ Hrest). rewrite <- Hy.
    pose proof (source_sequences_nonempty (y :: l)) as Hne.
    pose proof (source_sequences_nonempty (y' :: l')) as Hne'.
    remember (source_sequences (y :: l)) as G eqn:HG. clear HG.
    remember (source_sequences (y' :: l')) as G' eqn:HG'. clear HG'.
    destruct (rank (fst y) =? 0).
    + cbn [map]. by rewrite Hx, IH.
    + destruct G as [|g gs]; [by destruct Hne|].
      destruct G' as [|g' gs']; [by destruct Hne'|].
      cbn [map] in *. injection IH as Hg Hgs. by rewrite Hx, Hg, Hgs.
Qed.

(** The text of a sequence is made of the texts of all its windows,
    whatever their flags. *)
Lemma sequence_text_windows g g' :
  map fst g = map fst g' -> sequence_text g = sequence_text g'.
Proof.
  revert g'. unfold sequence_text.
  induction g as [|x g IH]; intros [|x' g'] Heq; try done.
  simpl in *. injection Heq as Hx Hg. by rewrite Hx, (IH g' Hg).
Qed.

Lemma sequence_texts_windows l l' :
  map fst l = map fst l' ->
  map sequence_text (source_sequences l) = map sequence_text (source_sequences l').
Proof.
  intros Heq. pose proof (source_sequences_windows l l' Heq) as Hg.
  revert Hg. generalize (source_sequences l) (source_sequences l').
  intros gs. induction gs as [|g gs IH]; intros [|g' gs'] H; try done.
  simpl in *. injection H as Hg Hgs.
  by rewrite (sequence_text_windows g g' Hg), (IH gs' Hgs).
Qed.

(** The ratio of a sequence is positive exactly when one of its windows
    has succeeded, whatever the divisor. *)
Lemma double_gt0_fdiv num den : double_gt0 (fdiv num den) = true <-> 0 < num.
Proof.
  unfold fdiv. destruct den as [|p]; simpl.
  - destruct (N.eqb_spec num 0) as [->|Hn]; simpl; [split; [done|lia]|split; [lia|done]].
  - rewrite Z.ltb_lt. lia.
Qed.

Lemma sequence_kept_count drop g :
  g <> [] ->
  sequence_kept drop g = false <-> drop = true /\ succeeded_count g = 0.
Proof.
  intros Hne. unfold sequence_kept, sequence_ratio.
  destruct (last g) as [x|] eqn:Hlast; [|by apply last_None in Hlast].
  rewrite orb_false_iff, negb_false_iff.
  pose proof (double_gt0_fdiv (succeeded_count g) (rank (fst x) + 1)) as Hgt.
  destruct (double_gt0 _); split; intros [? ?]; split; try done; try lia.
Qed.
End SourceSequences.

(** ** The claims about the output *)

Lemma elem_of_concat {A : Type} (x : A) (g : list A) (gs : list (list A)) :
  g ∈ gs -> x ∈ g -> x ∈ concat gs.
Proof.
  induction gs as [|g' gs IH]; intros Hg Hx; [by apply elem_of_nil in Hg|].
  simpl. apply elem_of_app. apply elem_of_cons in Hg as [->|Hg]; [by left|right; by apply IH].
Qed.

Section OutputClaims.
Context {W E : Type} `{!WindowOps W E}.
Variable sequences_ : list string.
Variable targets_coverages_ : list N.
Variable type_ : PolisherType.
Variable windows_ : list W.
Variable status : list bool.
Variable dst0 : list Sequence.
Variable drop_unpolished_sequences : bool.

Local Abbreviation Collect :=
  (Polish.collect windows_ sequences_ targets_coverages_ type_ drop_unpolished_sequences).
Local Abbreviation Emitted :=
  (emitted sequences_ targets_coverages_ type_ drop_unpolished_sequences).
Local Abbreviation Record := (sequence_record sequences_ targets_coverages_ type_).
Local Abbreviation Kept := (sequence_kept drop_unpolished_sequences).
Local Abbreviation groups := (source_sequences (zip windows_ status)).

Hypothesis status_size : length status = length windows_.
Hypothesis windows_32 : N.of_nat (length windows_) < 2 ^ 32.
Hypothesis ranks_32 : forall w, w ∈ windows_ -> rank w + 1 < 2 ^ 32.
Hypothesis ids_known : forall w, w ∈ windows_ ->
  is_Some (sequences_ !! N.to_nat (id w)) /\
  is_Some (targets_coverages_ !! N.to_nat (id w)).

Lemma collect_output :
  Collect status dst0 =
  Ret (Polish.MkCollector EmptyString 0 (dst0 ++ omap Emitted groups)) tt.
Proof. by apply collect_refines. Qed.

Lemma group_member g x : g ∈ groups -> x ∈ g -> fst x ∈ windows_.
Proof.
  intros Hg Hx.
  assert (x ∈ zip windows_ status) as Hz.
  { rewrite <- (source_sequences_concat (zip windows_ status)).
    by eapply elem_of_concat. }
  rewrite <- (fst_zip windows_ status) by lia.
  apply list_elem_of_fmap. by exists x.
Qed.

(** Every source sequence has a record. *)
Lemma group_record g :
  g ∈ groups ->
  exists x r, last g = Some x /\ Record g = Some r /\
    seq_data r = sequence_text g /\ tag_XC r = sequence_ratio g /\
    tag_LN r = N.of_nat (String.length (sequence_text g)).
Proof.
  intros Hg.
  destruct (source_sequences_boundaries (zip windows_ status)) as (Hgroups & _ & _).
  rewrite Forall_forall in Hgroups. destruct (Hgroups g Hg) as [Hne _].
  destruct (last g) as [x|] eqn:Hlast; [|by apply last_None in Hlast].
  assert (x ∈ g) as Hx.
  { apply last_Some in Hlast as [g' ->]. apply elem_of_app. right. left. }
  destruct (ids_known (fst x) (group_member g x Hg Hx)) as [[name Hn] [coverage Hc]].
  unfold sequence_record. rewrite Hlast. simpl. rewrite Hn. simpl. rewrite Hc. simpl.
  eexists _, _. split; [done|]. split; [done|]. done.
Qed.

Lemma emitted_groups (gs : list (list (W * bool))) :
  (forall g, g ∈ gs -> g ∈ groups) ->
  map seq_data (omap Emitted gs)
    = map sequence_text (filter (fun g => Kept g = true) gs) /\
  length (omap Emitted gs) = length (filter (fun g => Kept g = true) gs).
Proof.
  induction gs as [|g gs IH]; intros Hin; [done|].
  destruct IH as [IH1 IH2]; [intros g' Hg'; apply Hin; by right|].
  rewrite omap_cons_unfold, filter_cons.
  destruct (group_record g) as (x & r & _ & Hr & Hdata & _); [apply Hin; left|].
  assert (Emitted g = if Kept g then Some r else None) as ->.
  { unfold emitted. by rewrite Hr. }
  destruct (Kept g) eqn:Hk.
  - rewrite decide_True by done. simpl. rewrite Hdata. split; by f_equal.
  - rewrite decide_False by done. done.
Qed.

(** C8, as the code has it: the output loop returns; it has cut the
    windows, in their order, into source sequences, a sequence ending
    exactly before each window of rank 0 and at the last window; and it
    has appended to the destination, in the order of the sequences, one
    record for each sequence that is kept: for each sequence when dropping
    was not requested, and otherwise for each sequence with a positive
    ratio.  On five windows of ranks 0, 1, 2, 0, 1 and texts a, b, c, d, e,
    without dropping, it emits two records whatever the status vector, the
    first with text abc and the second with text de. *)
Theorem one_record_per_kept_sequence :
  concat groups = zip windows_ status /\
  Forall (fun g => g <> [] /\ Forall (fun x => rank (fst x) <> 0) (tail g)) groups /\
  Forall (fun g => exists x, head g = Some x /\ rank (fst x) = 0) (tail groups) /\
  (exists c,
     Collect status dst0 = Ret c tt /\
     Polish.dst c = dst0 ++ omap Emitted groups /\
     length (Polish.dst c)
       = (length dst0 + length (filter (fun g => Kept g = true) groups))%nat /\
     (drop_unpolished_sequences = false ->
      length (Polish.dst c) = (length dst0 + length groups)%nat)) /\
  (forall s0 s1 s2 s3 s4, exists r1 r2,
     test_collect two_sequences false [s0; s1; s2; s3; s4]
       = Ret (Polish.MkCollector EmptyString 0 [r1; r2]) tt /\
     seq_data r1 = "abc"%string /\ seq_data r2 = "de"%string).
Proof.
  destruct (source_sequences_boundaries (zip windows_ status)) as (Hgroups & Htail & _).
  split; [apply source_sequences_concat|]. split; [done|]. split; [done|]. split.
  - eexists. split; [apply collect_output|]. simpl. split; [done|].
    destruct (emitted_groups groups) as [_ Hlen]; [done|].
    split; [by rewrite length_app, Hlen|].
    intros Hdrop. rewrite length_app, Hlen. f_equal.
    assert (forall gs : list (list (W * bool)),
              filter (fun g => Kept g = true) gs = gs) as Hall; [|by rewrite Hall].
    intros gs. induction gs as [|g gs IH]; [done|].
    rewrite filter_cons, decide_True; [by rewrite IH|].
    unfold sequence_kept. by rewrite Hdrop.
  - intros [] [] [] [] []; eexists _, _; vm_compute; (split; [reflexivity|]);
      split; reflexivity.
Qed.

(** C9: the output loop returns, and for each source sequence the ratio
    is the number of its windows whose status is [true] divided by the rank
    of its last window plus one; the record of the sequence carries that
    ratio; the ratio is positive exactly when that number is not zero; and
    the sequence has no record exactly when dropping was requested and the
    ratio is not positive.  Three windows of which two succeeded give 2/3;
    three windows of which none succeeded give no record when dropping is
    requested. *)
Theorem ratio_and_drop_per_sequence :
  (exists c,
     Collect status dst0 = Ret c tt /\
     Polish.dst c = dst0 ++ omap Emitted groups) /\
  (forall g, g ∈ groups ->
     (exists x, last g = Some x /\
        sequence_ratio g = fdiv (succeeded_count g) (rank (fst x) + 1) /\
        forall p, rank (fst x) + 1 = Npos p ->
          sequence_ratio g = Quot (Z.of_N (succeeded_count g) # p)) /\
     (double_gt0 (sequence_ratio g) = false <-> succeeded_count g = 0) /\
     (Emitted g = None <->
      drop_unpolished_sequences = true /\ double_gt0 (sequence_ratio g) = false) /\
     (forall r, Emitted g = Some r -> tag_XC r = sequence_ratio g)) /\
  (exists r, test_collect one_sequence false [true; false; true]
             = Ret (Polish.MkCollector EmptyString 0 [r]) tt /\
             tag_XC r = Quot (2 # 3)) /\
  test_collect one_sequence true [false; false; false]
    = Ret (Polish.MkCollector EmptyString 0 []) tt.
Proof.
  split; [eexists; split; [apply collect_output|done]|]. split; [|split].
  - intros g Hg.
    destruct (group_record g Hg) as (x & r & Hlast & Hr & _ & Hxc & _).
    assert (sequence_ratio g = fdiv (succeeded_count g) (rank (fst x) + 1)) as Hratio.
    { unfold sequence_ratio. by rewrite Hlast. }
    split; [|split; [|split]].
    + exists x. split; [done|]. split; [done|].
      intros p Hp. rewrite Hratio, Hp. done.
    + rewrite Hratio.
      pose proof (double_gt0_fdiv (succeeded_count g) (rank (fst x) + 1)) as Hgt.
      destruct (double_gt0 _); split; try done; try lia.
    + unfold emitted, sequence_kept. rewrite Hr.
      destruct drop_unpolished_sequences, (double_gt0 (sequence_ratio g)); simpl;
        split; try done; intros [? ?]; done.
    + intros r'. unfold emitted. destruct (Kept g); [|done].
      rewrite Hr. by intros [= <-].
  - eexists. vm_compute. split; reflexivity.
  - vm_compute. reflexivity.
Qed.

(** C10: the output loop returns, and the texts of the records it has
    appended are, in order, the texts of the source sequences that are
    kept; the text of a sequence is made of the consensus of every one of
    its windows, in order, whatever their status.  A different status
    vector gives the same texts for the sequences, and, when dropping is
    not requested, the same texts in the output: the status only enters
    the count, the ratio and the decision to drop. *)
Theorem every_window_text_is_appended :
  (exists c,
     Collect status dst0 = Ret c tt /\
     map seq_data (Polish.dst c)
       = map seq_data dst0 ++ map sequence_text (filter (fun g => Kept g = true) groups)) /\
  (forall g, sequence_text g = window_texts (map fst g)) /\
  (forall status', length status' = length windows_ ->
     map sequence_text (source_sequences (zip windows_ status'))
       = map sequence_text groups) /\
  (drop_unpolished_sequences = false ->
   exists c, Collect status dst0 = Ret c tt /\
     map seq_data (Polish.dst c)
       = map seq_data dst0 ++
         map sequence_text (source_sequences (zip windows_ (replicate (length windows_) true)))).
Proof.
  destruct (emitted_groups groups) as [Hdata _]; [done|].
  assert (forall g : list (W * bool), sequence_text g = window_texts (map fst g)) as Htext.
  { intros g. unfold sequence_text, window_texts.
    induction g as [|x g IH]; simpl; [done|]. by rewrite IH. }
  assert (forall status', length status' = length windows_ ->
            map sequence_text (source_sequences (zip windows_ status'))
            = map sequence_text groups) as Hsame.
  { intros status' Hlen'. apply sequence_texts_windows.
    change (map fst ?l) with (l.*1). by rewrite !fst_zip by lia. }
  split; [|split; [done|split; [done|]]].
  - eexists. split; [apply collect_output|]. simpl. by rewrite map_app, Hdata.
  - intros Hdrop. eexists. split; [apply collect_output|]. simpl.
    rewrite map_app, Hdata. f_equal.
    rewrite (Hsame (replicate (length windows_) true)) by (by rewrite length_replicate).
    f_equal.
    assert (forall gs : list (list (W * bool)),
              filter (fun g => Kept g = true) gs = gs) as Hall; [|by rewrite Hall].
    intros gs. induction gs as [|g gs IH]; [done|].
    rewrite filter_cons, decide_True; [by rewrite IH|].
    unfold sequence_kept. by rewrite Hdrop.
Qed.
End OutputClaims.

(** C8 as stated fails when dropping is requested: on the five windows
    of ranks 0, 1, 2, 0, 1, none of which was polished, the loop closes
    two source sequences and emits no record. *)
Lemma unpolished_sequences_have_no_record :
  test_collect two_sequences true (replicate 5 false)
    = Ret (Polish.MkCollector EmptyString 0 []) tt /\
  length (source_sequences (zip two_sequences (replicate 5 false))) = 2%nat /\
  ~ (exists c, test_collect two_sequences true (replicate 5 false) = Ret c tt /\
               length (Polish.dst c) = 2%nat).
Proof.
  assert (test_collect two_sequences true (replicate 5 false)
          = Ret (Polish.MkCollector EmptyString 0 []) tt) as H by (vm_compute; reflexivity).
  split; [exact H|]. split; [vm_compute; reflexivity|].
  intros (c & Hc & Hlen). rewrite H in Hc. injection Hc as <-. discriminate Hlen.
Qed.

Lemma test_ranks_32 (ranks : list (N * string)) (w : test_window) :
  Forall (fun r => fst r + 1 < 2 ^ 32) ranks ->
  w ∈ ranked_windows ranks -> rank w + 1 < 2 ^ 32.
Proof.
  intros Hall Hw. unfold ranked_windows in Hw.
  apply list_elem_of_fmap in Hw as (r & -> & Hr). simpl.
  rewrite Forall_forall in Hall. by apply Hall.
Qed.

Lemma test_ids_known (ranks : list (N * string)) (w : test_window) :
  w ∈ ranked_windows ranks ->
  is_Some (["contig"%string] !! N.to_nat (id w)) /\ is_Some ([3] !! N.to_nat (id w)).
Proof.
  intros Hw. unfold ranked_windows in Hw.
  apply list_elem_of_fmap in Hw as (r & -> & Hr). simpl. split; by eexists.
Qed.

Lemma one_record_per_kept_sequence_witness :
  length [false; true; false; false; true] = length two_sequences /\
  N.of_nat (length two_sequences) < 2 ^ 32 /\
  concat (source_sequences (zip two_sequences [false; true; false; false; true]))
    = zip two_sequences [false; true; false; false; true].
Proof.
  split; [reflexivity|]. split; [vm_compute; reflexivity|].
  apply (@one_record_per_kept_sequence _ _ test_window_ops ["contig"%string] [3] kC
           two_sequences [false; true; false; false; true] [] true).
  - reflexivity.
  - vm_compute. reflexivity.
  - intros w. apply test_ranks_32. repeat constructor.
  - intros w. apply test_ids_known.
Defined.

Lemma ratio_and_drop_per_sequence_witness :
  length [true; false; true] = length one_sequence /\
  N.of_nat (length one_sequence) < 2 ^ 32 /\
  exists c, test_collect one_sequence true [true; false; true] = Ret c tt.
Proof.
  split; [reflexivity|]. split; [vm_compute; reflexivity|].
  destruct (@ratio_and_drop_per_sequence _ _ test_window_ops ["contig"%string] [3] kC
              one_sequence [true; false; true] [] true) as ((c & Hc & _) & _).
  - reflexivity.
  - vm_compute. reflexivity.
  - intros w. apply test_ranks_32. repeat constructor.
  - intros w. apply test_ids_known.
  - exists c. exact Hc.
Defined.

Lemma every_window_text_is_appended_witness :
  length [false; false; true] = length one_sequence /\
  N.of_nat (length one_sequence) < 2 ^ 32 /\
  exists c, test_collect one_sequence false [false; false; true] = Ret c tt /\
            map seq_data (Polish.dst c) = ["abc"%string].
Proof.
  split; [reflexivity|]. split; [vm_compute; reflexivity|].
  destruct (@every_window_text_is_appended _ _ test_window_ops ["contig"%string] [3] kC
              one_sequence [false; false; true] [] false) as ((c & Hc & Hdata) & _).
  - reflexivity.
  - vm_compute. reflexivity.
  - intros w. apply test_ranks_32. repeat constructor.
  - intros w. apply test_ids_known.
  - exists c. split; [exact Hc|]. rewrite Hdata. vm_compute. reflexivity.
Defined.

(** ** [polish] as a whole *)

Lemma for_each_throw {S : Type} (body : S -> nat -> outcome S unit) indexes st st' e :
  (forall st i st' e, body st i = Throw st' e -> e = out_of_range) ->
  for_each body indexes st = Throw st' e -> e = out_of_range.
Proof.
  intros Hbody. revert st. induction indexes as [|i indexes IH]; intros st; simpl; [done|].
  destruct (body st i) as [st1 u|st1 e1| |c] eqn:Hb; try done.
  - apply IH.
  - intros [= <- <-]. by eapply Hbody.
Qed.

Section PolishWhole.
Context {B W E : Type} `{!CUDABatchProcessor B W} `{!WindowOps W E}.
Variable cuda_batches_ : N.
Variable num_devices_ : N.
Variable windows_ : list W.
Variable sequences_ : list string.
Variable targets_coverages_ : list N.
Variable type_ : PolisherType.
Variable thread_to_id_ : gmap nat N.
Variable alignment_engines_ : list E.

Local Abbreviation Polish_from :=
  (Polish.polish_from cuda_batches_ num_devices_ windows_ sequences_ targets_coverages_
     type_ thread_to_id_ alignment_engines_).

Lemma bin_batches_throw todo i per_gpu st e :
  Polish.bin_batches num_devices_ todo i per_gpu = Throw st e -> e = out_of_range.
Proof.
  revert i per_gpu. induction todo as [|todo IH]; intros i per_gpu; simpl; [done|].
  destruct (num_devices_ =? 0); [done|].
  destruct (per_gpu !! _) as [c|]; [apply IH|]. by intros [= <- <-].
Qed.

(** The exception of the size check never leaves [polish]: the only
    exception that [polish] itself can raise is [out_of_range]. *)
Lemma polish_raises_only_out_of_range status0 dst0 drop sched worker_of st e :
  Polish_from status0 dst0 drop sched worker_of = Some (Throw st e) -> e = out_of_range.
Proof.
  unfold Polish.polish_from, Polish.accelerator_phase.
  destruct (Polish.bin_batches _ _ _ _) as [per_gpu []|st0 e0| |c] eqn:Hbin.
  - destruct (run_and_wait _ _ _ _ _ _) as [s|]; [|done].
    destruct (sys_halt s) as [[|c]|]; try done.
    unfold Polish.fallback_phase.
    destruct (for_each (Polish.submit_failed _) _ _) as [tasks []|tasks e1| |c] eqn:Hscan;
      try done.
    + destruct (Polish.run_tasks _ _ _ _ _ _) as [[status fw] []|[status fw] e1| |c] eqn:Hrun;
        try done.
      * destruct (Polish.collect _ _ _ _ _ _ _) as [c []|c e1| |c] eqn:Hcol; try done.
        intros [= <- <-]. unfold Polish.collect in Hcol.
        eapply for_each_throw; [|exact Hcol].
        intros st1 i st2 e2. unfold Polish.collect_window.
        destruct (_ !! i) as [ok|]; [|by intros [= <- <-]].
        destruct (windows_ !! i) as [w|]; [|done].
        destruct (if decide _ then _ else _) as [[|]|]; try done.
        destruct (_ || _); [|done].
        destruct (sequences_ !! _); [|done]. destruct (targets_coverages_ !! _); done.
      * intros [= <- <-]. unfold Polish.run_tasks in Hrun.
        eapply for_each_throw; [|exact Hrun].
        intros st1 i st2 e2. unfold Polish.fallback_task.
        destruct (thread_to_id_ !! _); [|done].
        destruct (windows_ !! i); [|done]. destruct (alignment_engines_ !! _); [|done].
        by case_decide.
    + intros [= <- <-]. eapply for_each_throw; [|exact Hscan].
      intros st1 i st2 e2. unfold Polish.submit_failed.
      destruct (_ !! i) as [[|]|]; try done. by intros [= <- <-].
  - intros [= <- <-]. by eapply bin_batches_throw.
  - done.
  - done.
Qed.

(** With a batch unit whose readiness predicate is true only after an
    insertion, [polish] comes to an end, under every schedule. *)
Lemma polish_ends (held : B -> list W)
  `{!InsertionContract reset addWindow hasWindows held}
  status0 dst0 drop sched worker_of :
  exists r, Polish_from status0 dst0 drop sched worker_of = Some r.
Proof.
  unfold Polish.polish_from, Polish.accelerator_phase.
  destruct (Polish.bin_batches _ _ _ _) as [per_gpu []|st0 e0| |c]; eauto.
  destruct (polish_runners_finish windows_ held (Polish.create_batches per_gpu)
              (resize status0 (length windows_) false) sched) as (s & -> & _).
  destruct (sys_halt s) as [[|c]|]; eauto.
Qed.
End PolishWhole.

(** ** The harness: every issued item is executed *)

Section HarnessExact.
Context {Sh B : Type}.
Variable fill : Sh -> B -> outcome (Sh * B) (N * N).
Variable has_work : B -> bool.
Variable execute : N * N -> Sh -> B -> outcome (Sh * B) unit.

Local Abbreviation Step := (process_batch_step fill has_work execute).

Hypothesis fill_idle_empty : forall sh b sh' b' rg,
  fill sh b = Ret (sh', b') rg -> has_work b' = false -> indices rg = [].

(** The indexes of the ranges issued are those of the ranges executed
    and of the ranges held by a runner about to execute. *)
Lemma step_launched_exact i s :
  flat_map indices (sys_launched s ++ pending (sys_units s))
    ≡ₚ flat_map indices (sys_issued s) ->
  flat_map indices (sys_launched (Step i s) ++ pending (sys_units (Step i s)))
    ≡ₚ flat_map indices (sys_issued (Step i s)).
Proof.
  intros Hinv. step_cases i s; simpl; try done.
  - pose proof (pending_insert _ _ _ _ b0
                  (if has_work b0 then Filled rg else Returned) Hunit) as Hp.
    simpl in Hp. rewrite app_nil_r in Hp. rewrite Hp.
    rewrite !flat_map_app. rewrite !flat_map_app in Hinv.
    destruct (has_work b0) eqn:Hw; simpl.
    + rewrite app_nil_r, app_assoc. by apply Permutation_app.
    + rewrite (fill_idle_empty _ _ _ _ _ Hout Hw), !app_nil_r. done.
  - pose proof (pending_insert _ _ _ _ b0 (Raised e) Hunit) as Hp.
    simpl in Hp. rewrite !app_nil_r in Hp. by rewrite Hp.
  - pose proof (pending_insert _ _ _ _ b0 Idle Hunit) as Hp.
    simpl in Hp. rewrite app_nil_r in Hp.
    rewrite <- app_assoc, (Permutation_app_comm [rg]), Hp. done.
  - pose proof (pending_insert _ _ _ _ b0 (Raised e) Hunit) as Hp.
    simpl in Hp. rewrite app_nil_r in Hp.
    rewrite <- app_assoc, (Permutation_app_comm [rg]), Hp. done.
Qed.

Lemma joined_launched_exact sched fuel sh (units : list B) s :
  run_and_wait fill has_work execute sched fuel (launch sh units) = Some s ->
  sys_halt s = None ->
  flat_map indices (sys_launched s) ≡ₚ flat_map indices (sys_issued s).
Proof.
  unfold run_and_wait. destruct (settled _) eqn:Hset; [|done]. intros [= <-] Hhalt.
  match goal with |- context [finish _ _ _ fuel ?s0] => set (s1 := s0) in * end.
  set (s2 := finish fill has_work execute fuel s1) in *.
  assert (flat_map indices (sys_launched s2 ++ pending (sys_units s2))
            ≡ₚ flat_map indices (sys_issued s2)) as Hinv.
  { apply (finish_invariant fill has_work execute
             (fun s => flat_map indices (sys_launched s ++ pending (sys_units s))
                         ≡ₚ flat_map indices (sys_issued s))); [apply step_launched_exact|].
    apply (run_invariant fill has_work execute
             (fun s => flat_map indices (sys_launched s ++ pending (sys_units s))
                         ≡ₚ flat_map indices (sys_issued s))); [apply step_launched_exact|].
    simpl. by rewrite pending_launch. }
  unfold settled in Hset. rewrite Hhalt in Hset.
  rewrite (pending_done _ Hset), app_nil_r in Hinv. done.
Qed.
End HarnessExact.

Lemma joined_units_length {Sh B : Type} (fill : Sh -> B -> outcome (Sh * B) (N * N))
  (has_work : B -> bool) (execute : N * N -> Sh -> B -> outcome (Sh * B) unit)
  sched fuel sh (units : list B) s :
  run_and_wait fill has_work execute sched fuel (launch sh units) = Some s ->
  length (sys_units s) = length units.
Proof.
  unfold run_and_wait. destruct (settled _); [|done]. intros [= <-].
  rewrite finish_units_length, run_units_length. simpl. by rewrite length_map.
Qed.

Lemma joined_invariant_any {Sh B : Type} (fill : Sh -> B -> outcome (Sh * B) (N * N))
  (has_work : B -> bool) (execute : N * N -> Sh -> B -> outcome (Sh * B) unit)
  (P : sys Sh B -> Prop) sched fuel sh (units : list B) s :
  (forall i s, P s -> P (process_batch_step fill has_work execute i s)) ->
  P (launch sh units) ->
  run_and_wait fill has_work execute sched fuel (launch sh units) = Some s ->
  P s.
Proof.
  intros Hstep Hinit. unfold run_and_wait. destruct (settled _); [|done]. intros [= <-].
  apply (finish_invariant fill has_work execute P Hstep).
  by apply (run_invariant fill has_work execute P Hstep).
Qed.

(** ** [find_overlap_breaking_points] with an aligner unit that keeps its contract *)

Section OverlapsExact.
Context {B O : Type} `{!CUDABatchAligner B O}.
Variable overlaps : list O.
Variable window_length_ : N.

Local Abbreviation count := (wrap32 (N.of_nat (length overlaps))).
Local Abbreviation Fill := (Overlaps.fill_next_batch overlaps).
Local Abbreviation Work := (Overlaps.launch_workload window_length_).
Local Abbreviation Step := (Overlaps.process_batch_step overlaps window_length_).
Local Abbreviation cursor := Overlaps.next_overlap_index.

(** What a call of the filler prints. *)
Lemma overlaps_fill_lines sh b sh' b' rg :
  cursor sh <= count ->
  Fill sh b = Ret (sh', b') rg ->
  Overlaps.stderr_lines sh' =
    Overlaps.stderr_lines sh ++
    (if decide (fst rg < snd rg) then [(fst rg, snd rg, count, getBatchID b')] else []).
Proof.
  intros Hcur. unfold Overlaps.fill_next_batch.
  pose proof (fill_loop_no_exn addOverlap overlaps count (wrap32_le _) (wrap32_lt _)
                (N.to_nat (count - cursor sh)) (cursor sh) (aligner_reset b)) as Hexn.
  pose proof (fill_loop_cursor addOverlap overlaps count (wrap32_le _) (wrap32_lt _)
                (N.to_nat (count - cursor sh)) (cursor sh) (aligner_reset b)) as [Hle Hbound].
  destruct (fill_loop _ _ _ _ _ _) as [[next b0] e]. simpl in *. subst e.
  specialize (Hbound Hcur). pose proof (wrap32_lt (N.of_nat (length overlaps))) as H32.
  intros [= <- <- <-]. simpl. rewrite sub32_small by lia.
  destruct (N.ltb_spec 0 (next - cursor sh)).
  - rewrite decide_True by lia. done.
  - rewrite decide_False by lia. by rewrite app_nil_r.
Qed.

Lemma nonempty_ranges_snoc rs r :
  nonempty_ranges (rs ++ [r]) =
  nonempty_ranges rs ++ (if decide (fst r < snd r) then [r] else []).
Proof.
  unfold nonempty_ranges. by rewrite filter_app.
Qed.

(** The messages are the non-empty ranges issued, in the order of the
    lock, each with the size of the collection. *)
Lemma step_printed i s :
  cursor (sys_shared s) <= count /\
  map printed_range (Overlaps.stderr_lines (sys_shared s)) = nonempty_ranges (sys_issued s) /\
  Forall (fun line => printed_count line = count) (Overlaps.stderr_lines (sys_shared s)) ->
  cursor (sys_shared (Step i s)) <= count /\
  map printed_range (Overlaps.stderr_lines (sys_shared (Step i s)))
    = nonempty_ranges (sys_issued (Step i s)) /\
  Forall (fun line => printed_count line = count)
    (Overlaps.stderr_lines (sys_shared (Step i s))).
Proof.
  intros (Hcur & Hmap & Hall). unfold Overlaps.process_batch_step.
  step_cases i s; simpl; try done.
  - destruct (overlaps_fill_range _ _ _ _ _ _ Hout) as (_ & _ & Hb).
    rewrite (overlaps_fill_lines _ _ _ _ _ Hcur Hout).
    split; [by apply Hb|]. rewrite map_app, nonempty_ranges_snoc, Hmap.
    split.
    + f_equal. case_decide; [|done]. by destruct rg.
    + apply Forall_app. split; [done|]. case_decide; [|done]. by apply Forall_singleton.
  - by apply overlaps_fill_never_throws in Hout.
  - by injection Hout as <- <-.
Qed.

Lemma overlaps_fill_idle_empty sh b sh' b' rg
  (held : B -> list O) `{!InsertionContract aligner_reset addOverlap hasOverlaps held} :
  Fill sh b = Ret (sh', b') rg -> hasOverlaps b' = false -> indices rg = [].
Proof.
  intros Hout Hw.
  destruct (decide (cursor sh <= count)) as [Hcur|Hcur].
  - destruct (overlaps_fill_contract overlaps held sh b Hcur)
      as (sh1 & b1 & Hfill & Hle & _ & _ & _ & Hne).
    rewrite Hfill in Hout. injection Hout as <- <- <-.
    unfold indices. simpl.
    assert (~ cursor sh < cursor sh1) as Hn.
    { intros Hlt. apply Hne in Hlt. congruence. }
    replace (N.to_nat (cursor sh1) - N.to_nat (cursor sh))%nat with 0%nat by lia. done.
  - revert Hout. unfold Overlaps.fill_next_batch.
    replace (N.to_nat (count - cursor sh)) with 0%nat by lia. simpl.
    destruct (0 <? _); intros [= <- <- <-]; unfold indices; simpl;
      by rewrite Nat.sub_diag.
Qed.
End OverlapsExact.

Section OverlapsExtras.
Context {B O : Type} `{!CUDABatchAligner B O}.
Variable overlaps : list O.
Variable window_length_ : N.
Variable held : B -> list O.
Context `{!InsertionContract aligner_reset addOverlap hasOverlaps held}.

Local Abbreviation Fill := (Overlaps.fill_next_batch overlaps).
Local Abbreviation cursor := Overlaps.next_overlap_index.

(** X1: the overlap filler keeps the fill contract at every size of the
    collection below 2^32.  With the cursor inside the collection, the call
    returns; the range it returns starts at the old cursor and ends at the
    new one; the batch then holds exactly the overlaps of that range, in
    order, whatever it held before the call; the loop has stopped at the
    end of the collection or at an overlap the batch has refused; the batch
    reports work exactly when the range is not empty; and one message is
    printed exactly in that case. *)
Theorem overlap_filler_keeps_the_contract sh b :
  N.of_nat (length overlaps) < 2 ^ 32 ->
  cursor sh <= N.of_nat (length overlaps) ->
  exists sh' b',
    Overlaps.fill_next_batch overlaps sh b = Ret (sh', b') (cursor sh, cursor sh') /\
    cursor sh <= cursor sh' <= N.of_nat (length overlaps) /\
    held b' = take (N.to_nat (cursor sh') - N.to_nat (cursor sh))
                (drop (N.to_nat (cursor sh)) overlaps) /\
    (cursor sh' = N.of_nat (length overlaps) \/
     exists o b0, overlaps !! N.to_nat (cursor sh') = Some o /\ addOverlap b0 o = (false, b')) /\
    (hasOverlaps b' = true <-> cursor sh < cursor sh') /\
    Overlaps.stderr_lines sh' =
      Overlaps.stderr_lines sh ++
      (if decide (cursor sh < cursor sh')
       then [(cursor sh, cursor sh', N.of_nat (length overlaps), getBatchID b')] else []).
Proof.
  intros H32 Hcur. rewrite <- (wrap32_small _ H32) in *.
  destruct (overlaps_fill_contract overlaps held sh b Hcur)
    as (sh' & b' & Hfill & Hle & Hbound & Hheld & Hstop & Hne).
  exists sh', b'. split; [done|]. split; [done|]. split; [done|]. split; [done|].
  split; [done|]. by rewrite (overlaps_fill_lines overlaps sh b sh' b' _ Hcur Hfill).
Qed.

(** X2: with aligner units that accept a first overlap,
    [find_overlap_breaking_points] returns under every schedule; every
    runner has left its loop through [break], none through an exception;
    the ranges issued follow one another from 0 to the size of the
    collection; every overlap is in exactly one executed batch; and the
    host pass receives the whole collection. *)
Theorem every_overlap_is_aligned_once cuda_batches_ sched :
  accepts_first addOverlap held ->
  0 < cuda_batches_ ->
  N.of_nat (length overlaps) < 2 ^ 32 ->
  exists report,
    Overlaps.find_overlap_breaking_points overlaps window_length_ cuda_batches_ sched
      = Some report /\
    sys_halt (Overlaps.accelerator report) = None /\
    length (sys_units (Overlaps.accelerator report)) = N.to_nat cuda_batches_ /\
    Forall (fun u => snd u = Returned) (sys_units (Overlaps.accelerator report)) /\
    chained 0 (sys_issued (Overlaps.accelerator report)) (N.of_nat (length overlaps)) /\
    flat_map indices (sys_launched (Overlaps.accelerator report))
      ≡ₚ seq 0 (length overlaps) /\
    Overlaps.host_pass report = overlaps.
Proof.
  intros Hfirst Hbatches H32. unfold Overlaps.find_overlap_breaking_points.
  set (units := Overlaps.create_aligners cuda_batches_).
  assert (length units = N.to_nat cuda_batches_) as Hlen
    by (unfold units, Overlaps.create_aligners; by rewrite length_replicate).
  assert (units <> []) as Hne by (intros Hnil; rewrite Hnil in Hlen; simpl in Hlen; lia).
  destruct (overlaps_runners_finish overlaps window_length_ held units sched)
    as (s & Hrun & Hset).
  rewrite Hrun. eexists. split; [reflexivity|]. simpl.
  destruct (overlaps_ranges_cover overlaps window_length_ held units sched _ s Hfirst Hne Hrun)
    as (Hhalt & Hc & Hch & Hidx & Hret).
  rewrite wrap32_small in Hch, Hidx by done. rewrite Nat2N.id in Hidx.
  split; [done|]. split.
  { by rewrite (joined_units_length _ _ _ _ _ _ _ _ Hrun). }
  split; [done|]. split; [done|]. split; [|done].
  rewrite <- Hidx.
  apply (joined_launched_exact Fill hasOverlaps (Overlaps.launch_workload window_length_))
    with (sched := sched) (fuel := (2 * length overlaps + 2 * length units)%nat)
         (sh := Overlaps.MkShared 0 []) (units := units); [|done|done].
  intros sh b sh' b' rg. by apply (overlaps_fill_idle_empty overlaps) with (held := held).
Qed.
End OverlapsExtras.

Lemma overlap_filler_keeps_the_contract_witness :
  exists sh' b',
    @Overlaps.fill_next_batch _ _ (test_aligner 2) [10; 11; 12]%nat
      (Overlaps.MkShared 0 []) [99%nat] = Ret (sh', b') (0, Overlaps.next_overlap_index sh') /\
    b' = take (N.to_nat (Overlaps.next_overlap_index sh') - 0) [10; 11; 12]%nat.
Proof.
  destruct (@overlap_filler_keeps_the_contract _ _ (test_aligner 2) [10; 11; 12]%nat
              (fun b => b) (test_aligner_contract 2) (Overlaps.MkShared 0 []) [99%nat])
    as (sh' & b' & Hfill & _ & Hheld & _); [simpl; lia|simpl; lia|].
  exists sh', b'. split; [exact Hfill|exact Hheld].
Defined.

Lemma every_overlap_is_aligned_once_witness :
  exists report,
    @Overlaps.find_overlap_breaking_points _ _ (test_aligner 2) [10; 11; 12]%nat 500 1 []
      = Some report /\
    flat_map indices (sys_launched (Overlaps.accelerator report)) ≡ₚ seq 0 3.
Proof.
  destruct (@every_overlap_is_aligned_once _ _ (test_aligner 2) [10; 11; 12]%nat 500
              (fun b => b) (test_aligner_contract 2) 1 [])
    as (report & Hrun & _ & _ & _ & _ & Hperm & _);
    [apply test_aligner_accepts_first; lia|lia|simpl; lia|].
  exists report. split; [exact Hrun|exact Hperm].
Defined.

Section OverlapsLog.
Context {B O : Type} `{!CUDABatchAligner B O}.
Variable overlaps : list O.
Variable window_length_ : N.

(** X3: whatever the aligner units do and whatever the schedule, at
    every moment of the aligner phase the messages
    "Processing overlaps a - b (of n)" printed so far are, in order, the
    non-empty ranges issued so far, and each gives the 32-bit size of the
    collection as [n]. *)
Theorem messages_list_the_issued_ranges (units : list B) (sched : list nat) :
  let s := run (Overlaps.fill_next_batch overlaps) hasOverlaps
             (Overlaps.launch_workload window_length_) sched
             (launch (Overlaps.MkShared 0 []) units) in
  map printed_range (Overlaps.stderr_lines (sys_shared s)) = nonempty_ranges (sys_issued s) /\
  Forall (fun line => printed_count line = wrap32 (N.of_nat (length overlaps)))
    (Overlaps.stderr_lines (sys_shared s)).
Proof.
  simpl.
  apply (run_invariant (Overlaps.fill_next_batch overlaps) hasOverlaps
           (Overlaps.launch_workload window_length_)
           (fun s =>
              Overlaps.next_overlap_index (sys_shared s) <= wrap32 (N.of_nat (length overlaps)) /\
              map printed_range (Overlaps.stderr_lines (sys_shared s))
                = nonempty_ranges (sys_issued s) /\
              Forall (fun line => printed_count line = wrap32 (N.of_nat (length overlaps)))
                (Overlaps.stderr_lines (sys_shared s)))).
  - apply step_printed.
  - simpl. split; [lia|]. split; done.
Qed.
End OverlapsLog.

(** ** [polish]: the progress bar *)

Section PolishProgress.
Context {B W E : Type} `{!CUDABatchProcessor B W} `{!WindowOps W E}.
Variable windows_ : list W.

Local Abbreviation count := (wrap32 (N.of_nat (length windows_))).
Local Abbreviation Fill := (Polish.fill_next_batch windows_).
Local Abbreviation cursor := Polish.next_window_index.

(** What a call of the filler does to the two progress counters. *)
Lemma fill_next_batch_progress sh b sh' b' rg :
  cursor sh <= count ->
  Fill sh b = Ret (sh', b') rg ->
  Polish.logger_step windows_ <> 0 /\
  ((fst rg < snd rg /\
    Polish.last_logger_count sh < fst rg / Polish.logger_step windows_ /\
    Polish.last_logger_count sh' = wrap32 (Polish.last_logger_count sh + 1) /\
    Polish.bar_calls sh' = S (Polish.bar_calls sh)) \/
   (~ (fst rg < snd rg /\
       Polish.last_logger_count sh < fst rg / Polish.logger_step windows_) /\
    Polish.last_logger_count sh' = Polish.last_logger_count sh /\
    Polish.bar_calls sh' = Polish.bar_calls sh)).
Proof.
  intros Hcur. unfold Polish.fill_next_batch.
  pose proof (fill_loop_no_exn addWindow windows_ count (wrap32_le _) (wrap32_lt _)
                (N.to_nat (count - cursor sh)) (cursor sh) (reset b)) as Hexn.
  pose proof (fill_loop_cursor addWindow windows_ count (wrap32_le _) (wrap32_lt _)
                (N.to_nat (count - cursor sh)) (cursor sh) (reset b)) as [Hle Hbound].
  destruct (fill_loop _ _ _ _ _ _) as [[next b0] e]. simpl in *. subst e.
  specialize (Hbound Hcur). pose proof (wrap32_lt (N.of_nat (length windows_))) as H32.
  destruct (N.eqb_spec (Polish.logger_step windows_) 0) as [|Hnz]; [done|].
  rewrite sub32_small by lia.
  destruct (N.ltb_spec 0 (next - cursor sh)) as [Hpos|Hpos];
    destruct (N.ltb_spec (Polish.last_logger_count sh)
                (cursor sh / Polish.logger_step windows_)) as [Hlog|Hlog];
    simpl; intros [= <- <- <-]; simpl; (split; [done|]).
  - left. split; [lia|]. done.
  - right. split; [lia|]. done.
  - right. split; [lia|]. done.
  - right. split; [lia|]. done.
Qed.
End PolishProgress.

Section PolishExtras.
Context {B W E : Type} `{!CUDABatchProcessor B W} `{!WindowOps W E}.
Variable windows_ : list W.
Variable held : B -> list W.
Context `{!InsertionContract reset addWindow hasWindows held}.

Local Abbreviation Fill := (Polish.fill_next_batch windows_).
Local Abbreviation cursor := Polish.next_window_index.

(** X4: on a collection of at least 20 windows (and fewer than 2^32) the
    window filler keeps the fill contract.  With the cursor inside the
    collection, the call returns; the range it returns starts at the old
    cursor and ends at the new one; the batch then holds exactly the
    windows of that range, in order, whatever it held before; the loop has
    stopped at the end of the collection or at a window the batch has
    refused; the batch reports work exactly when the range is not empty;
    the exhausted collection gives the empty range and the empty batch;
    the status vector is left alone; and the progress bar is advanced by
    at most one step, only by a call that has assigned a window. *)
Theorem window_filler_keeps_the_contract sh b :
  (20 <= length windows_)%nat ->
  N.of_nat (length windows_) < 2 ^ 32 ->
  cursor sh <= N.of_nat (length windows_) ->
  exists sh' b',
    Polish.fill_next_batch windows_ sh b = Ret (sh', b') (cursor sh, cursor sh') /\
    cursor sh <= cursor sh' <= N.of_nat (length windows_) /\
    held b' = take (N.to_nat (cursor sh') - N.to_nat (cursor sh))
                (drop (N.to_nat (cursor sh)) windows_) /\
    (cursor sh' = N.of_nat (length windows_) \/
     exists w b0, windows_ !! N.to_nat (cursor sh') = Some w /\ addWindow b0 w = (false, b')) /\
    (hasWindows b' = true <-> cursor sh < cursor sh') /\
    (cursor sh = N.of_nat (length windows_) ->
     cursor sh' = cursor sh /\ held b' = [] /\ hasWindows b' = false) /\
    Polish.window_consensus_status_ sh' = Polish.window_consensus_status_ sh /\
    (Polish.bar_calls sh' = Polish.bar_calls sh \/
     Polish.bar_calls sh' = S (Polish.bar_calls sh) /\ cursor sh < cursor sh').
Proof.
  intros H20 H32 Hcur.
  pose proof (logger_step_nonzero windows_ H20 H32) as Hstep.
  rewrite <- (wrap32_small _ H32) in *.
  destruct (fill_next_batch_contract windows_ held sh b Hstep Hcur)
    as (sh' & b' & Hfill & Hle & Hbound & Hheld & Hlen & Hstop & Hne & Hst & _).
  exists sh', b'. split; [done|]. split; [done|]. split; [done|]. split; [done|].
  split; [done|]. split; [|split; [done|]].
  - intros Heq. assert (cursor sh' = cursor sh) as Hsame by lia.
    split; [done|]. rewrite Hsame, Nat.sub_diag in Hheld. simpl in Hheld.
    split; [done|]. destruct (hasWindows b') eqn:Hw; [|done].
    destruct Hne as [Hne _]. specialize (Hne eq_refl). lia.
  - destruct (fill_next_batch_progress windows_ sh b sh' b' _ Hcur Hfill)
      as (_ & [(Hlt & _ & _ & Hbar)|(_ & _ & Hbar)]); [right|left]; done.
Qed.
End PolishExtras.

Lemma window_filler_keeps_the_contract_witness :
  exists sh' b',
    @Polish.fill_next_batch _ _ (test_processor 2 0) twenty_windows
      (Polish.MkShared 0 0 0 [] []) [] = Ret (sh', b') (0, Polish.next_window_index sh') /\
    b' = take (N.to_nat (Polish.next_window_index sh') - 0) twenty_windows.
Proof.
  destruct (@window_filler_keeps_the_contract _ _ (test_processor 2 0) twenty_windows
              (fun b => b) (test_processor_contract 2 0) (Polish.MkShared 0 0 0 [] []) [])
    as (sh' & b' & Hfill & _ & Hheld & _); [simpl; lia|simpl; lia|simpl; lia|].
  exists sh', b'. split; [exact Hfill|exact Hheld].
Defined.

(** ** [polish]: what the runners never do *)

Section PolishRunners.
Context {B W E : Type} `{!CUDABatchProcessor B W} `{!WindowOps W E}.
Variable windows_ : list W.

Local Abbreviation count := (wrap32 (N.of_nat (length windows_))).
Local Abbreviation Fill := (Polish.fill_next_batch windows_).
Local Abbreviation Step := (Polish.process_batch_step windows_).
Local Abbreviation cursor := Polish.next_window_index.

Lemma launch_workload_outcome rg sh b :
  (exists st, Polish.launch_workload rg sh b = Ret st tt) \/
  (exists st e, Polish.launch_workload rg sh b = Throw st e).
Proof.
  unfold Polish.launch_workload.
  destruct (generateConsensus b) as [results b0].
  destruct (negb _); [right; eauto|].
  destruct (Polish.copy_results _ _ _ _ _) as [[status writes] [e|]]; [right|left]; eauto.
Qed.

(** With a defined progress division nothing stops the process. *)
Lemma step_never_halts i s :
  Polish.logger_step windows_ <> 0 -> sys_halt s = None -> sys_halt (Step i s) = None.
Proof.
  intros Hstep Hhalt. unfold Polish.process_batch_step, process_batch_step. rewrite Hhalt.
  destruct (sys_units s !! i) as [[b [|rg| |e]]|]; try done.
  - destruct (fill_next_batch_cases windows_ (sys_shared s) b)
      as (next & b' & _ & [[? _]|[_ (llc & bars & ->)]]); done.
  - destruct (launch_workload_outcome rg (sys_shared s) b) as [[[sh b'] ->]|([sh b'] & e & ->)];
      done.
Qed.

(** The only exception a runner raises is that of the size check: the
    ranges stay inside the status vector, so that [at] never fails. *)
Lemma step_raised i s :
  accel_inv windows_ s /\
  Forall (fun u => forall e, raised (snd u) = Some e -> e = size_mismatch) (sys_units s) ->
  accel_inv windows_ (Step i s) /\
  Forall (fun u => forall e, raised (snd u) = Some e -> e = size_mismatch)
    (sys_units (Step i s)).
Proof.
  intros [Hinv Hall]. split; [by apply step_accel_inv|].
  destruct Hinv as (Hch & Hcur & Hsub & Hlen & _).
  unfold Polish.process_batch_step. step_cases i s; simpl; try done.
  - apply Forall_insert; [done|]. simpl. by destruct (hasWindows b0).
  - by apply fill_next_batch_never_throws in Hout.
  - by apply Forall_insert.
  - apply Forall_insert; [done|]. simpl. intros e' [= <-].
    assert (rg ∈ sys_issued s) as Hrg.
    { eapply elem_of_submseteq; [|exact Hsub].
      apply elem_of_app. right. by eapply filled_pending. }
    destruct (chained_member _ _ _ _ Hch Hrg) as (_ & Hle & Hto).
    pose proof (wrap32_lt (N.of_nat (length windows_))) as H32.
    pose proof (wrap32_le (N.of_nat (length windows_))) as Hcount.
    revert Hout. unfold Polish.launch_workload.
    destruct (generateConsensus b) as [results b1].
    destruct (negb _) eqn:Hneg; [by intros [= <- <- <-]|].
    apply negb_false_iff, N.eqb_eq in Hneg. rewrite sub32_small in Hneg by lia.
    destruct (copy_results_spec (fst rg) 0 results
                (Polish.window_consensus_status_ (sys_shared s))
                (Polish.accel_writes (sys_shared s)))
      as (status' & Hcopy & _); [lia|lia|].
    rewrite Hcopy. done.
Qed.

(** As long as no runner has raised, the assignments made by the
    runners are, in order, those of the indexes of the executed ranges. *)
Lemma step_writes_exact i s :
  accel_inv windows_ s /\
  ((exists u e, u ∈ sys_units s /\ snd u = Raised e) \/
   map fst (Polish.accel_writes (sys_shared s)) = flat_map indices (sys_launched s)) ->
  accel_inv windows_ (Step i s) /\
  ((exists u e, u ∈ sys_units (Step i s) /\ snd u = Raised e) \/
   map fst (Polish.accel_writes (sys_shared (Step i s)))
     = flat_map indices (sys_launched (Step i s))).
Proof.
  intros [Hinv Hex]. split; [by apply step_accel_inv|].
  destruct Hinv as (Hch & Hcur & Hsub & Hlen & _).
  unfold Polish.process_batch_step. step_cases i s; simpl; try done.
  - destruct (fill_next_batch_range _ _ _ _ _ _ Hout) as (_ & _ & _ & _ & ->).
    destruct Hex as [(u0 & e0 & Hu & He)|Heq]; [left|by right].
    apply list_elem_of_lookup in Hu as [j Hj].
    exists u0, e0. split; [|done]. apply list_elem_of_lookup. exists j.
    rewrite list_lookup_insert_ne; [done|]. intros ->. rewrite Hunit in Hj.
    injection Hj as <-. done.
  - by apply fill_next_batch_never_throws in Hout.
  - destruct Hex as [(u0 & e0 & Hu & He)|Heq]; [left|right].
    + apply list_elem_of_lookup in Hu as [j Hj].
      exists u0, e0. split; [|done]. apply list_elem_of_lookup. exists j.
      rewrite list_lookup_insert_ne; [done|]. intros ->. rewrite Hunit in Hj.
      injection Hj as <-. done.
    + assert (rg ∈ sys_issued s) as Hrg.
      { eapply elem_of_submseteq; [|exact Hsub].
        apply elem_of_app. right. by eapply filled_pending. }
      destruct (chained_member _ _ _ _ Hch Hrg) as (_ & Hle & Hto).
      pose proof (wrap32_lt (N.of_nat (length windows_))) as H32.
      pose proof (wrap32_le (N.of_nat (length windows_))) as Hcount.
      destruct (launch_workload_cases rg (sys_shared s) b)
        as [(_ & what & Hthrow)|(Hres & status' & Hret & _)];
        [done|lia|lia|congruence|].
      rewrite Hret in Hout. injection Hout as <- <-. simpl.
      rewrite map_app, flat_map_app, Heq. simpl. rewrite app_nil_r. f_equal.
      change (map fst ?l) with (l.*1). by rewrite fst_zip by lia.
  - left. exists (b0, Raised e), e. split; [|done].
    apply list_elem_of_lookup. exists i. apply list_lookup_insert_eq.
    by eapply lookup_lt_Some.
Qed.

Lemma joined_invariant (P : sys Polish.shared B -> Prop) (units : list B) status sched fuel s :
  (forall i s, P s -> P (Step i s)) ->
  P (launch (Polish.MkShared 0 0 0 status []) units) ->
  run_and_wait Fill hasWindows Polish.launch_workload sched fuel
    (launch (Polish.MkShared 0 0 0 status []) units) = Some s ->
  P s.
Proof.
  intros Hstep Hinit. unfold run_and_wait. destruct (settled _); [|done]. intros [= <-].
  apply (finish_invariant Fill hasWindows Polish.launch_workload P Hstep).
  by apply (run_invariant Fill hasWindows Polish.launch_workload P Hstep).
Qed.
End PolishRunners.

(** ** [polish]: the accelerator phase with units that keep their contract *)

Section PolishAcceleratorExtras.
Context {B W E : Type} `{!CUDABatchProcessor B W} `{!WindowOps W E}.
Variable windows_ : list W.

Local Abbreviation count := (wrap32 (N.of_nat (length windows_))).
Local Abbreviation Fill := (Polish.fill_next_batch windows_).
Local Abbreviation cursor := Polish.next_window_index.

Lemma polish_fill_idle_empty sh b sh' b' rg
  (held : B -> list W) `{!InsertionContract reset addWindow hasWindows held} :
  Fill sh b = Ret (sh', b') rg -> hasWindows b' = false -> indices rg = [].
Proof.
  intros Hout Hw.
  destruct (fill_next_batch_cases windows_ sh b)
    as (next & b0 & Hloop & [[_ Hu]|[_ (llc & bars & Hfill)]]); [congruence|].
  rewrite Hfill in Hout. injection Hout as <- <- <-. unfold indices. simpl.
  destruct (decide (cursor sh <= count)) as [Hcur|Hcur].
  - destruct (fill_loop_contract reset addWindow hasWindows held windows_ _ _ _ _ _ Hcur Hloop)
      as (_ & Hle & _ & _ & _ & _ & Hne).
    assert (~ cursor sh < next) as Hn.
    { intros Hlt. apply Hne in Hlt. congruence. }
    replace (N.to_nat next - N.to_nat (cursor sh))%nat with 0%nat by lia. done.
  - revert Hloop. replace (N.to_nat (count - cursor sh)) with 0%nat by lia. simpl.
    intros [= <- _]. by rewrite Nat.sub_diag.
Qed.


(** X6: whatever the batch units do and whatever the schedule, at every
    moment of the accelerator phase the exception stored in the future of
    a runner that has raised is that of the size check: the assignments
    [window_consensus_status_.at(range.first + i)] stay inside the vector,
    which keeps the size of the window collection. *)
Theorem runners_raise_only_the_size_mismatch (units : list B) (sched : list nat) :
  let s := run Fill hasWindows Polish.launch_workload sched
             (launch (Polish.MkShared 0 0 0 (resize [] (length windows_) false) []) units) in
  Forall (fun u => forall e, raised (snd u) = Some e -> e = size_mismatch) (sys_units s) /\
  length (Polish.window_consensus_status_ (sys_shared s)) = length windows_ /\
  Forall (fun w => (fst w < length windows_)%nat) (Polish.accel_writes (sys_shared s)).
Proof.
  simpl.
  match goal with |- context [run _ _ _ sched ?s0] => set (s1 := s0) end.
  assert (accel_inv windows_ (run Fill hasWindows Polish.launch_workload sched s1) /\
          Forall (fun u => forall e, raised (snd u) = Some e -> e = size_mismatch)
            (sys_units (run Fill hasWindows Polish.launch_workload sched s1))) as [Hinv Hall].
  { apply (run_invariant Fill hasWindows Polish.launch_workload
             (fun s => accel_inv windows_ s /\
                Forall (fun u => forall e, raised (snd u) = Some e -> e = size_mismatch)
                  (sys_units s))); [apply step_raised|].
    split; [apply accel_inv_launch|].
    apply Forall_forall. intros u Hu. apply list_elem_of_fmap in Hu as (b & -> & _). done. }
  split; [done|]. destruct Hinv as (_ & _ & _ & Hlen & _ & Hval & _).
  split; [done|]. apply Forall_forall. intros [k v] Hkv. simpl.
  apply Hval in Hkv. apply lookup_lt_Some in Hkv. lia.
Qed.
End PolishAcceleratorExtras.


Section PolishCopy.
Context {B W E : Type} `{!CUDABatchProcessor B W} `{!WindowOps W E}.

(** X7: the execution of a batch whose range lies inside the status
    vector copies all of its results or none.  If the unit returns as
    many results as the range has windows, the statuses of the range are
    replaced by the results, in order, and the rest of the vector is left
    alone; otherwise the runner raises the exception of the size check and
    the status vector is exactly what it was. *)
Theorem batch_results_are_copied_or_refused (rg : N * N) (sh : Polish.shared) (b : B) :
  fst rg <= snd rg -> snd rg < 2 ^ 32 ->
  (N.to_nat (snd rg) <= length (Polish.window_consensus_status_ sh))%nat ->
  let results := fst (generateConsensus b) in
  let status := Polish.window_consensus_status_ sh in
  (N.of_nat (length results) = snd rg - fst rg /\
   exists sh' b',
     Polish.launch_workload rg sh b = Ret (sh', b') tt /\
     Polish.window_consensus_status_ sh'
       = take (N.to_nat (fst rg)) status ++ results ++ drop (N.to_nat (snd rg)) status /\
     Polish.next_window_index sh' = Polish.next_window_index sh) \/
  (N.of_nat (length results) <> snd rg - fst rg /\
   exists b', Polish.launch_workload rg sh b = Throw (sh, b') size_mismatch).
Proof.
  intros Hle H32 Hlen. simpl.
  destruct (launch_workload_cases rg sh b Hle H32 Hlen)
    as [(Hne & what & Hthrow)|(Hres & status' & Hret & Hlen' & Hnew & Hold)]; simpl in *.
  - right. rewrite length_indices in Hne. split; [lia|].
    revert Hthrow. unfold Polish.launch_workload.
    destruct (generateConsensus b) as [results b0]. simpl.
    simpl in Hne. rewrite sub32_small by done.
    destruct (N.eqb_spec (N.of_nat (length results)) (snd rg - fst rg)) as [Heq|_]; [lia|].
    simpl. intros _. by exists b0.
  - left. rewrite length_indices in Hres. split; [lia|].
    eexists _, _. split; [exact Hret|]. simpl. split; [|done].
    apply list_eq. intros k.
    destruct (decide (k < N.to_nat (fst rg))%nat) as [Hk|Hk].
    + rewrite lookup_app_l by (rewrite length_take; lia).
      rewrite lookup_take_lt by done. apply Hold.
      unfold indices. rewrite elem_of_seq. lia.
    + rewrite lookup_app_r by (rewrite length_take; lia).
      rewrite length_take, Nat.min_l by lia.
      destruct (decide (k < N.to_nat (snd rg))%nat) as [Hk2|Hk2].
      * rewrite lookup_app_l by lia.
        destruct (lookup_lt_is_Some_2 (fst (generateConsensus b)) (k - N.to_nat (fst rg)))
          as [r Hr]; [lia|].
        rewrite Hr. rewrite <- (Hnew _ _ Hr). f_equal. lia.
      * rewrite lookup_app_r by lia. rewrite lookup_drop.
        rewrite Hold by (unfold indices; rewrite elem_of_seq; lia).
        f_equal. lia.
Qed.
End PolishCopy.

Lemma batch_results_are_copied_or_refused_witness :
  exists b',
    @Polish.launch_workload _ _ (test_processor 3 1) (0, 3)
      (Polish.MkShared 3 0 0 [false; false; false; false] [])
      (test_windows 3 (fun _ => true) (fun _ => true))
    = Throw (Polish.MkShared 3 0 0 [false; false; false; false] [], b') size_mismatch.
Proof.
  destruct (@batch_results_are_copied_or_refused _ _ (test_processor 3 1) (0, 3)
              (Polish.MkShared 3 0 0 [false; false; false; false] [])
              (test_windows 3 (fun _ => true) (fun _ => true)))
    as [(Heq & _)|(_ & Hthrow)]; [simpl; lia|simpl; lia|simpl; lia| |exact Hthrow].
  vm_compute in Heq. discriminate Heq.
Defined.

(** ** [polish] from its first line to its last *)

Lemma for_each_never_throws {S : Type} (body : S -> nat -> outcome S unit) indexes st st' e :
  (forall st i st' e, i ∈ indexes -> body st i <> Throw st' e) ->
  for_each body indexes st <> Throw st' e.
Proof.
  revert st. induction indexes as [|i indexes IH]; intros st Hbody; simpl; [done|].
  destruct (body st i) as [st1 u|st1 e1| |c] eqn:Hb; try done.
  - apply IH. intros st2 k st3 e3 Hk. apply Hbody. by right.
  - exfalso. eapply Hbody; [|exact Hb]. left.
Qed.

Lemma foldl_insert_all {A : Type} (f : nat -> A) (l : list A) :
  foldl (fun l j => <[j := f j]> l) l (seq 0 (length l)) = map f (seq 0 (length l)).
Proof.
  apply list_eq. intros k.
  destruct (decide (k < length l)%nat) as [Hk|Hk].
  - rewrite foldl_insert_lookup by done.
    rewrite decide_True by (apply elem_of_seq; lia).
    rewrite list_lookup_fmap, lookup_seq_lt by done. done.
  - rewrite !lookup_ge_None_2; [done| |].
    + rewrite length_map, length_seq. lia.
    + rewrite foldl_insert_length. lia.
Qed.

Lemma filter_all {A : Type} (P : A -> Prop) `{!forall x, Decision (P x)} (l : list A) :
  Forall P l -> filter P l = l.
Proof.
  induction 1 as [|x l Hx _ IH]; [done|].
  rewrite filter_cons, decide_True by done. by rewrite IH.
Qed.

Section PolishBinning.
Context {B W : Type} `{!CUDABatchProcessor B W}.
Variable num_devices_ : N.

(** The binning loop never leaves the vector it indexes. *)
Lemma bin_batches_never_throws todo i per_gpu st e :
  length per_gpu = N.to_nat num_devices_ ->
  Polish.bin_batches num_devices_ todo i per_gpu <> Throw st e.
Proof.
  revert i per_gpu. induction todo as [|todo IH]; intros i per_gpu Hlen; simpl; [done|].
  destruct (N.eqb_spec num_devices_ 0) as [|Hnz]; [done|].
  assert (i mod num_devices_ < num_devices_) as Hmod by (apply N.mod_lt; lia).
  pose proof (wrap32_le (i mod num_devices_)) as Hw.
  destruct (lookup_lt_is_Some_2 per_gpu (N.to_nat (wrap32 (i mod num_devices_))))
    as [c ->]; [lia|].
  apply IH. by rewrite length_insert.
Qed.

(** Without a batch to bin, no batch unit is created. *)
Lemma create_batches_none n :
  Polish.create_batches (B := B) (replicate n 0) = [].
Proof.
  apply nil_length_inv. rewrite length_create_batches.
  induction n as [|n IH]; simpl; [done|exact IH].
Qed.
End PolishBinning.

Section HarnessIdle.
Context {Sh B : Type}.
Variable fill : Sh -> B -> outcome (Sh * B) (N * N).
Variable has_work : B -> bool.
Variable execute : N * N -> Sh -> B -> outcome (Sh * B) unit.

(** Without a runner the main thread has nothing to wait for. *)
Lemma run_and_wait_no_units sched fuel sh :
  run_and_wait fill has_work execute sched fuel (launch sh []) = Some (launch sh []).
Proof.
  unfold run_and_wait.
  assert (run fill has_work execute sched (launch sh []) = launch sh []) as ->.
  { induction sched as [|i sched IH]; simpl; [done|]. exact IH. }
  assert (finish fill has_work execute fuel (launch sh []) = launch sh []) as ->.
  { destruct fuel; done. }
  done.
Qed.
End HarnessIdle.

Section PolishEnd.
Context {B W E : Type} `{!CUDABatchProcessor B W} `{!WindowOps W E}.
Variable windows_ : list W.
Variable sequences_ : list string.
Variable targets_coverages_ : list N.
Variable type_ : PolisherType.
Variable thread_to_id_ : gmap nat N.
Variable alignment_engines_ : list E.
Variable worker_of : nat -> nat.

Local Abbreviation Host := (host_result windows_ thread_to_id_ alignment_engines_ worker_of).
Local Abbreviation Failed := (failed_windows windows_).
Local Abbreviation Fallback :=
  (Polish.fallback_phase windows_ thread_to_id_ alignment_engines_ worker_of).
Local Abbreviation Emitted := (emitted sequences_ targets_coverages_ type_).

Hypothesis size_32 : N.of_nat (length windows_) < 2 ^ 32.
Hypothesis contexts : forall j, (j < length windows_)%nat ->
  is_Some (thread_to_id_ !! worker_of j).
Hypothesis engines : forall tid e, thread_to_id_ !! tid = Some e ->
  (N.to_nat e < length alignment_engines_)%nat.
Hypothesis ranks_32 : forall w, w ∈ windows_ -> rank w + 1 < 2 ^ 32.
Hypothesis ids_known : forall w, w ∈ windows_ ->
  is_Some (sequences_ !! N.to_nat (id w)) /\ is_Some (targets_coverages_ !! N.to_nat (id w)).

Lemma host_result_some j : (j < length windows_)%nat -> is_Some (Host j).
Proof.
  intros Hj. unfold host_result.
  destruct (contexts j Hj) as [e He]. rewrite He. simpl.
  destruct (lookup_lt_is_Some_2 windows_ j Hj) as [w ->]. simpl.
  destruct (lookup_lt_is_Some_2 alignment_engines_ (N.to_nat e)) as [engine ->];
    [by eapply engines|]. done.
Qed.

(** The fallback pass returns: it recomputes the windows whose status is
    [false] and leaves the others alone. *)
Lemma fallback_phase_ok status :
  length status = length windows_ ->
  exists status' fw,
    Fallback status = Ret (Failed status, status', fw) tt /\
    length status' = length windows_ /\
    forall i, (i < length windows_)%nat ->
      status' !! i = if decide (status !! i = Some false) then Host i else status !! i.
Proof.
  intros Hlen. unfold Polish.fallback_phase.
  rewrite submit_failed_scan by (simpl; lia). simpl.
  fold (failed_windows windows_ status).
  rewrite run_tasks_ok.
  2:{ intros j Hj. apply failed_windows_lt in Hj. split; [by apply host_result_some|].
      simpl. lia. }
  simpl. eexists _, _. split; [reflexivity|].
  split; [by rewrite foldl_insert_length|].
  intros i Hi. rewrite foldl_insert_lookup by lia.
  destruct (host_result_some i Hi) as [r Hr].
  destruct (decide (status !! i = Some false)) as [Hf|Hf].
  - rewrite decide_True; [by rewrite Hr|].
    unfold failed_windows. apply list_elem_of_filter. split; [done|].
    apply elem_of_seq. lia.
  - rewrite decide_False; [done|].
    unfold failed_windows. intros [? _]%list_elem_of_filter. done.
Qed.

(** What [polish] returns once its accelerator phase has ended normally. *)
Lemma polish_after_the_accelerator cuda_batches_ num_devices_ dst0 drop sched s :
  Polish.accelerator_phase cuda_batches_ num_devices_ windows_ [] sched = Some (Ret s tt) ->
  exists status,
    Polish.polish cuda_batches_ num_devices_ windows_ sequences_ targets_coverages_ type_
      thread_to_id_ alignment_engines_ dst0 drop sched worker_of
    = Some (Ret (status,
                 dst0 ++ omap (Emitted drop) (source_sequences (zip windows_ status))) tt) /\
    length status = length windows_ /\
    forall i, (i < length windows_)%nat ->
      status !! i =
        if decide (Polish.window_consensus_status_ (sys_shared s) !! i = Some false)
        then Host i else Polish.window_consensus_status_ (sys_shared s) !! i.
Proof.
  intros Hacc. unfold Polish.polish, Polish.polish_from. rewrite Hacc.
  destruct (accelerator_phase_inv _ _ _ _ _ Hacc) as ((_ & _ & _ & Hlen & _) & _).
  destruct (fallback_phase_ok _ Hlen) as (status' & fw & -> & Hlen' & Hval).
  rewrite (collect_refines sequences_ targets_coverages_ type_ drop windows_ status' dst0)
    by done.
  simpl. eauto.
Qed.
End PolishEnd.

Section PolishTheorems.
Context {B W E : Type} `{!CUDABatchProcessor B W} `{!WindowOps W E}.
Variable windows_ : list W.
Variable sequences_ : list string.
Variable targets_coverages_ : list N.
Variable type_ : PolisherType.
Variable thread_to_id_ : gmap nat N.
Variable alignment_engines_ : list E.

Local Abbreviation Host := (host_result windows_ thread_to_id_ alignment_engines_).
Local Abbreviation Emitted := (emitted sequences_ targets_coverages_ type_).
Local Abbreviation Polish_ cuda_batches_ num_devices_ :=
  (Polish.polish cuda_batches_ num_devices_ windows_ sequences_ targets_coverages_ type_
     thread_to_id_ alignment_engines_).



Lemma polish_never_throws (cuda_batches_ num_devices_ : N)
  (worker_of : nat -> nat) (dst0 : list Sequence) (drop : bool) (sched : list nat)
  (st : list bool * list Sequence) (e : exn) :
  Polish_ cuda_batches_ num_devices_ dst0 drop sched worker_of <> Some (Throw st e).
Proof.
  unfold Polish.polish, Polish.polish_from.
  destruct (Polish.accelerator_phase _ _ _ _ _) as [[s []|s0 e0| |c]|] eqn:Hacc; try done.
  - destruct (accelerator_phase_inv _ _ _ _ _ Hacc) as ((_ & _ & _ & Hlen & _) & _).
    unfold Polish.fallback_phase.
    rewrite submit_failed_scan by (simpl; lia). simpl.
    fold (failed_windows windows_ (Polish.window_consensus_status_ (sys_shared s))).
    destruct (Polish.run_tasks _ _ _ _ _ _) as [[status fw] []|[status fw] e1| |c] eqn:Hrun;
      try done.
    + apply run_tasks_ret in Hrun as (_ & Hlen' & _).
      2:{ intros j Hj%failed_windows_lt. simpl. lia. }
      simpl in Hlen'.
      destruct (Polish.collect _ _ _ _ _ _ _) as [c []|c e1| |c] eqn:Hcol; try done.
      exfalso. revert Hcol. apply for_each_never_throws.
      intros st1 i st2 e2 Hi%elem_of_seq. unfold Polish.collect_window.
      destruct (lookup_lt_is_Some_2 status i) as [ok ->]; [lia|].
      destruct (windows_ !! i) as [w|]; [|done].
      destruct (if decide _ then _ else _) as [[|]|]; try done.
      destruct (_ || _); [|done].
      destruct (sequences_ !! _); [|done]. by destruct (targets_coverages_ !! _).
    + exfalso. revert Hrun. apply for_each_never_throws.
      intros st1 i st2 e2 _. unfold Polish.fallback_task.
      destruct (thread_to_id_ !! _); [|done].
      destruct (windows_ !! i); [|done]. destruct (alignment_engines_ !! _); [|done].
      by case_decide.
  - exfalso. revert Hacc. unfold Polish.accelerator_phase.
    destruct (Polish.bin_batches _ _ _ _) as [per_gpu []|st0 e1| |c] eqn:Hbin.
    + destruct (run_and_wait _ _ _ _ _ _) as [s|]; [|done].
      by destruct (sys_halt s) as [[|c]|].
    + exfalso. revert Hbin. apply bin_batches_never_throws. by rewrite length_replicate.
    + done.
    + done.
Qed.

(** X10: no exception leaves [polish].  Whatever the batch units answer
    (a result vector of the wrong size included), whatever the schedule
    and the pool do, and whatever the windows hold, a call of [polish]
    that comes to an end has returned normally, has run into undefined
    behaviour, or has called [exit]. *)
Theorem no_exception_leaves_polish (cuda_batches_ num_devices_ : N)
  (worker_of : nat -> nat) (dst0 : list Sequence) (drop : bool) (sched : list nat)
  (r : outcome (list bool * list Sequence) unit) :
  Polish_ cuda_batches_ num_devices_ dst0 drop sched worker_of = Some r ->
  (exists st, r = Ret st tt) \/ r = Undefined \/ (exists c, r = Exit c).
Proof.
  intros Hr. destruct r as [st []|st e| |c]; eauto.
  by apply polish_never_throws in Hr.
Qed.
End PolishTheorems.

(** ** [polish]: how far the progress bar goes *)

Section PolishBar.
Context {B W E : Type} `{!CUDABatchProcessor B W} `{!WindowOps W E}.
Variable windows_ : list W.

Local Abbreviation count := (wrap32 (N.of_nat (length windows_))).
Local Abbreviation Fill := (Polish.fill_next_batch windows_).
Local Abbreviation Step := (Polish.process_batch_step windows_).
Local Abbreviation cursor := Polish.next_window_index.
Local Abbreviation step_ := (Polish.logger_step windows_).

Lemma launch_workload_progress rg sh b sh' b' :
  (exists u, Polish.launch_workload rg sh b = Ret (sh', b') u) \/
  (exists e, Polish.launch_workload rg sh b = Throw (sh', b') e) ->
  Polish.last_logger_count sh' = Polish.last_logger_count sh /\
  Polish.bar_calls sh' = Polish.bar_calls sh.
Proof.
  unfold Polish.launch_workload.
  destruct (generateConsensus b) as [results b0].
  destruct (negb _).
  - intros [[u [=]]|[e [= <- <-]]]. done.
  - destruct (Polish.copy_results _ _ _ _ _) as [[status writes] [e|]].
    + intros [[u [=]]|[e' [= <- <-]]]. done.
    + intros [[u [= <- <-]]|[e' [=]]]. done.
Qed.

(** The bar has been advanced as often as [last_logger_count] tells, and
    [last_logger_count] steps of [logger_step] windows never exceed the
    windows handed out. *)
Lemma step_bar i s :
  cursor (sys_shared s) <= count /\
  N.of_nat (Polish.bar_calls (sys_shared s)) = Polish.last_logger_count (sys_shared s) /\
  (Polish.last_logger_count (sys_shared s) = 0 \/
   Polish.last_logger_count (sys_shared s) * step_ < cursor (sys_shared s)) ->
  cursor (sys_shared (Step i s)) <= count /\
  N.of_nat (Polish.bar_calls (sys_shared (Step i s)))
    = Polish.last_logger_count (sys_shared (Step i s)) /\
  (Polish.last_logger_count (sys_shared (Step i s)) = 0 \/
   Polish.last_logger_count (sys_shared (Step i s)) * step_
     < cursor (sys_shared (Step i s))).
Proof.
  intros (Hcur & Hbar & Hlog).
  pose proof (polish_step_cursor windows_ i s Hcur) as [Hmono Hcur'].
  split; [done|]. clear Hcur'.
  pose proof (wrap32_lt (N.of_nat (length windows_))) as H32.
  revert Hmono. unfold Polish.process_batch_step. step_cases i s; simpl; try done.
  - intros Hmono.
    destruct (fill_next_batch_range _ _ _ _ _ _ Hout) as (-> & _ & Hb & _).
    specialize (Hb Hcur).
    destruct (fill_next_batch_progress windows_ _ _ _ _ _ Hcur Hout)
      as (Hnz & [(Hlt & Hq & -> & ->)|(_ & -> & ->)]); simpl in *.
    + assert ((Polish.last_logger_count (sys_shared s) + 1) * step_
                <= cursor (sys_shared s)) as Hle.
      { transitivity ((cursor (sys_shared s) / step_) * step_).
        - apply N.mul_le_mono_r. lia.
        - rewrite N.mul_comm. apply N.Div0.mul_div_le. }
      assert (Polish.last_logger_count (sys_shared s) + 1 <= cursor (sys_shared s)) as Hsmall.
      { assert (1 <= step_) by lia. nia. }
      rewrite wrap32_small by lia. split; [lia|]. right. lia.
    + split; [done|]. destruct Hlog as [?|?]; [by left|right; lia].
  - by apply fill_next_batch_never_throws in Hout.
  - intros Hmono.
    destruct (launch_workload_progress rg (sys_shared s) b sh b0) as [-> ->]; [eauto|].
    split; [done|]. destruct Hlog as [?|?]; [by left|right; lia].
  - intros Hmono.
    destruct (launch_workload_progress rg (sys_shared s) b sh b0) as [-> ->]; [eauto|].
    split; [done|]. destruct Hlog as [?|?]; [by left|right; lia].
Qed.

(** X11: the calls of the progress bar, for at least 20 windows.  At
    every moment of the accelerator phase, whatever the batch units and
    the schedule, the bar has been advanced exactly [last_logger_count]
    times, and that many steps of [windows / 20] windows are fewer than
    the windows handed out so far; hence the bar has been advanced at most
    38 times, and at most 19 times when the number of windows is a
    multiple of 20, so that the call after the fallback pass is then at
    most the twentieth. *)
Theorem progress_bar_follows_the_cursor (units : list B) (status : list bool)
  (sched : list nat) :
  (20 <= length windows_)%nat -> N.of_nat (length windows_) < 2 ^ 32 ->
  let s := run Fill hasWindows Polish.launch_workload sched
             (launch (Polish.MkShared 0 0 0 status []) units) in
  let bars := Polish.bar_calls (sys_shared s) in
  N.of_nat bars = Polish.last_logger_count (sys_shared s) /\
  (bars = 0%nat \/
   N.of_nat bars * (N.of_nat (length windows_) / 20) < cursor (sys_shared s)) /\
  (bars <= 38)%nat /\
  (N.of_nat (length windows_) mod 20 = 0 ->
   (fst (report_generated_consensus windows_ (bars, 0%nat)) <= 20)%nat).
Proof.
  intros H20 H32. simpl.
  match goal with |- context [run _ _ _ sched ?s0] => set (s1 := s0) end.
  set (s := run Fill hasWindows Polish.launch_workload sched s1).
  assert (cursor (sys_shared s) <= count /\
          N.of_nat (Polish.bar_calls (sys_shared s)) = Polish.last_logger_count (sys_shared s) /\
          (Polish.last_logger_count (sys_shared s) = 0 \/
           Polish.last_logger_count (sys_shared s) * step_ < cursor (sys_shared s)))
    as (Hcur & Hbar & Hlog).
  { apply (run_invariant Fill hasWindows Polish.launch_workload
             (fun s => cursor (sys_shared s) <= count /\
                N.of_nat (Polish.bar_calls (sys_shared s))
                  = Polish.last_logger_count (sys_shared s) /\
                (Polish.last_logger_count (sys_shared s) = 0 \/
                 Polish.last_logger_count (sys_shared s) * step_ < cursor (sys_shared s))));
      [apply step_bar|].
    simpl. split; [lia|]. split; [done|by left]. }
  rewrite wrap32_small in Hcur by done.
  assert (step_ = N.of_nat (length windows_) / 20) as Hstep.
  { unfold Polish.logger_step, RACON_LOGGER_BIN_SIZE. apply wrap32_small.
    pose proof (N.Div0.div_le_upper_bound (N.of_nat (length windows_)) 20
                  (N.of_nat (length windows_))). lia. }
  rewrite Hstep in Hlog.
  pose proof (N.div_mod (N.of_nat (length windows_)) 20 ltac:(lia)) as Hdiv.
  pose proof (N.mod_lt (N.of_nat (length windows_)) 20 ltac:(lia)) as Hmod.
  assert (1 <= N.of_nat (length windows_) / 20) as Hq
    by (apply N.div_le_lower_bound; lia).
  split; [done|]. rewrite <- Hbar in Hlog. split; [|split].
  - destruct Hlog as [?|?]; [left; lia|by right].
  - destruct Hlog as [?|Hlt]; [lia|]. nia.
  - intros Hzero. unfold report_generated_consensus. rewrite Hstep.
    destruct (N.eqb_spec (N.of_nat (length windows_) / 20) 0) as [?|_]; [lia|]. simpl.
    destruct Hlog as [?|Hlt]; [lia|]. nia.
Qed.
End PolishBar.

Lemma progress_bar_follows_the_cursor_witness :
  let s := run (@Polish.fill_next_batch _ _ (test_processor 1 0) twenty_windows)
             (@hasWindows _ _ (test_processor 1 0))
             (@Polish.launch_workload _ _ (test_processor 1 0)) [0; 0; 0; 0]%nat
             (launch (Polish.MkShared 0 0 0 (replicate 20 false) []) [[]]) in
  (Polish.bar_calls (sys_shared s) <= 38)%nat.
Proof.
  exact (proj1 (proj2 (proj2
    (@progress_bar_follows_the_cursor _ _ (test_processor 1 0) twenty_windows [[]]
       (replicate 20 false) [0; 0; 0; 0]%nat ltac:(simpl; lia) ltac:(simpl; lia))))).
Defined.

(** ** [polish]: the batches of each device *)

Lemma share_step_same i nd :
  0 < nd -> (i + 1 + nd - 1 - i mod nd) / nd = (i + nd - 1 - i mod nd) / nd + 1.
Proof.
  intros Hnd.
  pose proof (N.div_mod i nd ltac:(lia)) as Hi.
  pose proof (N.mod_lt i nd ltac:(lia)) as Hm.
  set (q := i / nd) in *. set (r := i mod nd) in *.
  replace (i + 1 + nd - 1 - r) with ((q + 1) * nd) by nia.
  replace (i + nd - 1 - r) with (q * nd + (nd - 1)) by nia.
  rewrite N.div_mul by lia.
  rewrite N.div_add_l by lia. rewrite N.div_small by lia. lia.
Qed.

Lemma share_step_other i nd d :
  0 < nd -> d < nd -> d <> i mod nd ->
  (i + 1 + nd - 1 - d) / nd = (i + nd - 1 - d) / nd.
Proof.
  intros Hnd Hd Hne.
  pose proof (N.div_mod i nd ltac:(lia)) as Hi.
  pose proof (N.mod_lt i nd ltac:(lia)) as Hm.
  set (q := i / nd) in *. set (r := i mod nd) in *.
  destruct (N.lt_ge_cases d r) as [Hlt|Hge].
  - replace (i + 1 + nd - 1 - d) with ((q + 1) * nd + (r - d)) by nia.
    replace (i + nd - 1 - d) with ((q + 1) * nd + (r - d - 1)) by nia.
    rewrite !N.div_add_l by lia. rewrite !N.div_small by lia. done.
  - replace (i + 1 + nd - 1 - d) with (q * nd + (nd + r - d)) by nia.
    replace (i + nd - 1 - d) with (q * nd + (nd + r - d - 1)) by nia.
    rewrite !N.div_add_l by lia. rewrite !N.div_small by lia. done.
Qed.

Lemma share_le i nd d : 0 < nd -> round_robin_share i nd d <= i.
Proof.
  intros Hnd. unfold round_robin_share.
  destruct (N.eq_dec i 0) as [->|Hi].
  - rewrite N.div_small by lia. lia.
  - transitivity ((i * nd) / nd); [|rewrite N.div_mul by lia; lia].
    apply N.Div0.div_le_mono. nia.
Qed.

(** The share of device [d] counts the batches [i] with [i % nd = d]. *)
Lemma share_counts (n : nat) (nd d : N) :
  0 < nd -> d < nd ->
  round_robin_share (N.of_nat n) nd d =
  N.of_nat (length (filter (fun i => N.of_nat i mod nd = d) (seq 0 n))).
Proof.
  intros Hnd Hd. unfold round_robin_share. induction n as [|n IH].
  - simpl. rewrite N.div_small by lia. done.
  - rewrite seq_S, filter_app, length_app, Nat2N.inj_add, <- IH. simpl.
    replace (N.of_nat (S n)) with (N.of_nat n + 1) by lia.
    rewrite filter_cons, filter_nil.
    destruct (decide (N.of_nat n mod nd = d)) as [<-|Hne]; simpl.
    + by apply share_step_same.
    + rewrite N.add_0_r. apply share_step_other; [done|done|congruence].
Qed.

Lemma concat_imap_lookup {A C : Type} (f : nat -> A -> list C) (l : list A) :
  concat (imap f l) =
  flat_map (fun d => match l !! d with Some c => f d c | None => [] end) (seq 0 (length l)).
Proof.
  revert f. induction l as [|x l IH]; intros f; simpl; [done|].
  f_equal. rewrite (IH (f ∘ S)).
  rewrite <- (fmap_S_seq 0).
  generalize (seq 0 (length l)). intros ks.
  induction ks as [|k ks IHk]; [done|].
  rewrite fmap_cons. cbn [flat_map]. f_equal. exact IHk.
Qed.

Section PolishShares.
Context {B W : Type} `{!CUDABatchProcessor B W}.
Variable num_devices_ : N.

Local Abbreviation Bin := (Polish.bin_batches num_devices_).

Lemma bin_batches_share todo i per_gpu :
  0 < num_devices_ -> length per_gpu = N.to_nat num_devices_ ->
  i + N.of_nat todo < 2 ^ 32 ->
  (forall d, d < num_devices_ ->
     per_gpu !! N.to_nat d = Some (round_robin_share i num_devices_ d)) ->
  exists per_gpu',
    Bin todo i per_gpu = Ret per_gpu' tt /\
    length per_gpu' = N.to_nat num_devices_ /\
    forall d, d < num_devices_ ->
      per_gpu' !! N.to_nat d = Some (round_robin_share (i + N.of_nat todo) num_devices_ d).
Proof.
  intros Hdev. revert i per_gpu.
  induction todo as [|todo IH]; intros i per_gpu Hlen H32 Hshare; simpl.
  - exists per_gpu. split; [done|]. split; [done|].
    intros d Hd. rewrite N.add_0_r. by apply Hshare.
  - destruct (N.eqb_spec num_devices_ 0) as [?|_]; [lia|].
    assert (i mod num_devices_ < num_devices_) as Hmod by (apply N.mod_lt; lia).
    rewrite wrap32_small.
    2:{ pose proof (N.Div0.mod_le i num_devices_). lia. }
    rewrite (Hshare _ Hmod).
    pose proof (share_le i num_devices_ (i mod num_devices_) Hdev) as Hle.
    rewrite !wrap32_small by lia.
    destruct (IH (i + 1)
                (<[N.to_nat (i mod num_devices_) :=
                     round_robin_share i num_devices_ (i mod num_devices_) + 1]> per_gpu))
      as (per_gpu' & -> & Hlen' & Hshare').
    + by rewrite length_insert.
    + lia.
    + intros d Hd. unfold round_robin_share.
      destruct (N.eq_dec d (i mod num_devices_)) as [->|Hne].
      * rewrite list_lookup_insert_eq by lia. f_equal.
        symmetry. by apply share_step_same.
      * rewrite list_lookup_insert_ne by lia. rewrite (Hshare d Hd).
        f_equal. symmetry. by apply share_step_other.
    + exists per_gpu'. split; [done|]. split; [done|].
      intros d Hd. rewrite (Hshare' d Hd). f_equal. f_equal. lia.
Qed.

(** X12: on a machine with a device, the binning loop of [polish]
    returns, and gives device [d] the batches [i] with
    [i % num_devices_ = d]: [(cuda_batches_ + num_devices_ - 1 - d) /
    num_devices_] of them, so that two devices differ by at most one
    batch.  The batch units are created device after device, as many for
    each device as its share, [cuda_batches_] in all. *)
Theorem batches_are_dealt_round_robin (cuda_batches_ : N) :
  0 < num_devices_ -> cuda_batches_ < 2 ^ 32 ->
  exists per_gpu,
    Bin (N.to_nat cuda_batches_) 0 (replicate (N.to_nat num_devices_) 0) = Ret per_gpu tt /\
    per_gpu = map (fun d => round_robin_share cuda_batches_ num_devices_ (N.of_nat d))
                (seq 0 (N.to_nat num_devices_)) /\
    (forall d, d < num_devices_ ->
       round_robin_share cuda_batches_ num_devices_ d =
       N.of_nat (length (filter (fun i => N.of_nat i mod num_devices_ = d)
                           (seq 0 (N.to_nat cuda_batches_))))) /\
    (forall d d', d < num_devices_ -> d' < num_devices_ ->
       round_robin_share cuda_batches_ num_devices_ d
         <= round_robin_share cuda_batches_ num_devices_ d' + 1) /\
    Polish.create_batches (B := B) per_gpu =
      flat_map (fun d =>
                  replicate (N.to_nat (round_robin_share cuda_batches_ num_devices_ (N.of_nat d)))
                    (createCUDABatch Polish.MAX_WINDOWS Polish.MAX_DEPTH_PER_WINDOW (N.of_nat d)))
        (seq 0 (N.to_nat num_devices_)) /\
    length (Polish.create_batches (B := B) per_gpu) = N.to_nat cuda_batches_.
Proof.
  intros Hdev H32.
  destruct (bin_batches_share (N.to_nat cuda_batches_) 0 (replicate (N.to_nat num_devices_) 0))
    as (per_gpu & Hbin & Hlen & Hshare); [done|by rewrite length_replicate|lia| |].
  { intros d Hd. rewrite lookup_replicate_2 by lia. f_equal.
    unfold round_robin_share. rewrite N.div_small by lia. done. }
  rewrite N.add_0_l, N2Nat.id in Hshare.
  assert (per_gpu = map (fun d => round_robin_share cuda_batches_ num_devices_ (N.of_nat d))
                      (seq 0 (N.to_nat num_devices_))) as Hper.
  { apply list_eq. intros k. rewrite list_lookup_fmap.
    destruct (decide (k < N.to_nat num_devices_)%nat) as [Hk|Hk].
    - rewrite lookup_seq_lt by done. simpl.
      rewrite <- (Hshare (N.of_nat k)) by lia. by rewrite Nat2N.id.
    - rewrite lookup_seq_ge by lia. simpl. apply lookup_ge_None_2. lia. }
  exists per_gpu. split; [done|]. split; [done|]. split; [|split; [|split]].
  - intros d Hd. rewrite <- (share_counts _ _ _ Hdev Hd). by rewrite N2Nat.id.
  - intros d d' Hd Hd'. unfold round_robin_share.
    transitivity ((cuda_batches_ + num_devices_ - 1) / num_devices_).
    { apply N.Div0.div_le_mono. lia. }
    transitivity ((cuda_batches_ + num_devices_ - 1 - d' + num_devices_) / num_devices_).
    { apply N.Div0.div_le_mono. lia. }
    replace (cuda_batches_ + num_devices_ - 1 - d' + num_devices_)
      with (1 * num_devices_ + (cuda_batches_ + num_devices_ - 1 - d')) by lia.
    rewrite N.div_add_l by lia. lia.
  - unfold Polish.create_batches. rewrite concat_imap_lookup, Hlen.
    rewrite !flat_map_bind.
    apply Forall_bind_ext, Forall_forall. intros k Hk%elem_of_seq.
    rewrite Hper, list_lookup_fmap, lookup_seq_lt by lia. done.
  - destruct (batches_created (B := B) num_devices_ cuda_batches_ Hdev H32)
      as (per_gpu' & Hbin' & Hcount).
    rewrite Hbin in Hbin'. by injection Hbin' as <-.
Qed.
End PolishShares.

Lemma batches_are_dealt_round_robin_witness :
  exists per_gpu,
    @Polish.bin_batches 2 (N.to_nat 5) 0 (replicate (N.to_nat 2) 0) = Ret per_gpu tt /\
    per_gpu = [3; 2].
Proof.
  destruct (@batches_are_dealt_round_robin _ _ (test_processor 1 0) 2 5)
    as (per_gpu & Hbin & Hper & _); [lia|lia|].
  exists per_gpu. split; [exact Hbin|]. rewrite Hper. vm_compute. reflexivity.
Defined.

(** ** The records of the output *)

Section OutputExtras.
Context {W E : Type} `{!WindowOps W E}.
Variable sequences_ : list string.
Variable targets_coverages_ : list N.
Variable type_ : PolisherType.
Variable windows_ : list W.
Variable status : list bool.
Variable dst0 : list Sequence.
Variable drop_unpolished_sequences : bool.

Local Abbreviation Collect :=
  (Polish.collect windows_ sequences_ targets_coverages_ type_ drop_unpolished_sequences).
Local Abbreviation Emitted :=
  (emitted sequences_ targets_coverages_ type_ drop_unpolished_sequences).
Local Abbreviation Kept := (sequence_kept drop_unpolished_sequences).
Local Abbreviation groups := (source_sequences (zip windows_ status)).

Lemma sequence_text_app (g g' : list (W * bool)) :
  sequence_text (g ++ g') = (sequence_text g ++ sequence_text g')%string.
Proof.
  unfold sequence_text. induction g as [|x g IH]; [done|].
  cbn [app fold_right]. rewrite IH. by rewrite string_append_assoc.
Qed.

Lemma sequence_text_concat (gs : list (list (W * bool))) :
  fold_right (fun t acc => (t ++ acc)%string) EmptyString (map sequence_text gs)
  = sequence_text (concat gs).
Proof.
  induction gs as [|g gs IH]; [done|].
  cbn [map fold_right concat]. by rewrite IH, sequence_text_app.
Qed.

Lemma record_texts_data (records : list Sequence) :
  record_texts records
  = fold_right (fun t acc => (t ++ acc)%string) EmptyString (map seq_data records).
Proof.
  unfold record_texts. induction records as [|r records IH]; [done|].
  cbn [map fold_right]. by rewrite IH.
Qed.

Lemma sequence_text_zip :
  length status = length windows_ ->
  sequence_text (zip windows_ status) = window_texts windows_.
Proof.
  intros Hlen. unfold sequence_text, window_texts.
  revert status Hlen. induction windows_ as [|w ws IH]; intros [|b bs] Hlen; try done.
  cbn [zip zip_with fold_right fst]. rewrite IH; [done|]. simpl in Hlen. lia.
Qed.

Hypothesis status_size : length status = length windows_.
Hypothesis windows_32 : N.of_nat (length windows_) < 2 ^ 32.
Hypothesis ranks_32 : forall w, w ∈ windows_ -> rank w + 1 < 2 ^ 32.
Hypothesis ids_known : forall w, w ∈ windows_ ->
  is_Some (sequences_ !! N.to_nat (id w)) /\
  is_Some (targets_coverages_ !! N.to_nat (id w)).

Lemma emitted_fields (gs : list (list (W * bool))) :
  (forall g, g ∈ gs -> g ∈ groups) ->
  Forall2 (fun r g =>
             exists x,
               last g = Some x /\
               sequences_ !! N.to_nat (id (fst x)) = Some (seq_name r) /\
               targets_coverages_ !! N.to_nat (id (fst x)) = Some (tag_RC r) /\
               tag_r r = (match type_ with kF => true | kC => false end) /\
               tag_LN r = N.of_nat (String.length (seq_data r)) /\
               tag_XC r = sequence_ratio g /\
               seq_data r = sequence_text g)
    (omap Emitted gs) (filter (fun g => Kept g = true) gs).
Proof.
  induction gs as [|g gs IH]; intros Hin; [constructor|].
  specialize (IH ltac:(intros g' Hg'; apply Hin; by right)).
  rewrite omap_cons_unfold, filter_cons.
  assert (g ∈ groups) as Hg by (apply Hin; left).
  destruct (source_sequences_boundaries (zip windows_ status)) as (Hgroups & _ & _).
  rewrite Forall_forall in Hgroups. destruct (Hgroups g Hg) as [Hne _].
  destruct (last g) as [x|] eqn:Hlast; [|by apply last_None in Hlast].
  assert (x ∈ g) as Hx.
  { apply last_Some in Hlast as [g' ->]. apply elem_of_app. right. left. }
  destruct (ids_known (fst x)
              (group_member windows_ status status_size windows_32 g x Hg Hx))
    as [[name Hn] [coverage Hc]].
  unfold emitted at 1. unfold sequence_record. rewrite Hlast. simpl.
  rewrite Hn. simpl. rewrite Hc. simpl.
  destruct (Kept g) eqn:Hk.
  - rewrite decide_True by done. constructor; [|done].
    exists x. simpl. by rewrite Hn, Hc.
  - rewrite decide_False by done. done.
Qed.

(** X13: the fields of the records.  The output loop returns and leaves
    the records that [dst] held alone; the records it has appended are
    those of the source sequences that are kept, in order, and the record
    of a sequence has the name of the target and the coverage that the id
    of the last window of the sequence selects, the prefix "r" exactly for
    a polisher of type [kF], the length of its own text as [LN], the ratio
    of the sequence as [XC], and the text of the sequence. *)
Theorem records_carry_the_fields_of_their_sequence :
  exists c,
    Collect status dst0 = Ret c tt /\
    take (length dst0) (Polish.dst c) = dst0 /\
    Forall2 (fun r g =>
               exists x,
                 last g = Some x /\
                 sequences_ !! N.to_nat (id (fst x)) = Some (seq_name r) /\
                 targets_coverages_ !! N.to_nat (id (fst x)) = Some (tag_RC r) /\
                 tag_r r = (match type_ with kF => true | kC => false end) /\
                 tag_LN r = N.of_nat (String.length (seq_data r)) /\
                 tag_XC r = sequence_ratio g /\
                 seq_data r = sequence_text g)
      (drop (length dst0) (Polish.dst c)) (filter (fun g => Kept g = true) groups).
Proof.
  eexists. split.
  { by apply (collect_refines sequences_ targets_coverages_ type_ drop_unpolished_sequences). }
  simpl. rewrite take_app_length, drop_app_length. split; [done|].
  by apply emitted_fields.
Qed.

(** X14: without dropping, no text is lost and none is repeated: the
    texts of the appended records, one after the other, are the consensus
    texts of all the windows, in their order. *)
Theorem the_records_hold_every_window_text :
  drop_unpolished_sequences = false ->
  exists c,
    Collect status dst0 = Ret c tt /\
    record_texts (drop (length dst0) (Polish.dst c)) = window_texts windows_.
Proof.
  intros Hdrop. eexists. split.
  { by apply (collect_refines sequences_ targets_coverages_ type_ drop_unpolished_sequences). }
  simpl. rewrite drop_app_length, record_texts_data.
  destruct (emitted_groups sequences_ targets_coverages_ type_ windows_ status
              drop_unpolished_sequences status_size windows_32 ids_known groups) as [-> _]; [done|].
  rewrite filter_all.
  2:{ apply Forall_forall. intros g _. unfold sequence_kept. by rewrite Hdrop. }
  rewrite sequence_text_concat, source_sequences_concat. by apply sequence_text_zip.
Qed.
End OutputExtras.

(** ** The ratio of a sequence whose ranks count its windows *)

Section RatioBounds.
Context {W E : Type} `{!WindowOps W E}.
Implicit Types l g : list (W * bool).

(** With ranks that count the windows, the rank of the last window of
    the first sequence is the rank of the first window plus the windows
    that follow it, and every later sequence has as many windows as the
    rank of its last window plus one. *)
Lemma ranks_follow_groups prev x l :
  ranks_follow prev (map fst (x :: l)) ->
  exists g gs y,
    source_sequences (x :: l) = g :: gs /\ last g = Some y /\
    rank (fst y) + 1 = rank (fst x) + N.of_nat (length g) /\
    Forall (fun g => exists y, last g = Some y /\ rank (fst y) + 1 = N.of_nat (length g)) gs.
Proof.
  revert prev x. induction l as [|y l IH]; intros prev x Hr.
  - exists [x], [], x. simpl. split; [done|]. split; [done|]. split; [lia|constructor].
  - rewrite source_sequences_step.
    destruct Hr as [_ Hrest].
    destruct (IH (Some (rank (fst x))) y Hrest) as (h & hs & z & -> & Hlast & Hrank & Hall).
    destruct Hrest as [Hy _].
    destruct (N.eqb_spec (rank (fst y)) 0) as [Hz|Hnz].
    + exists [x], (h :: hs), x. simpl. split; [done|]. split; [done|]. split; [lia|].
      constructor; [|done]. exists z. split; [done|]. lia.
    + destruct Hy as [?|(p & [= <-] & Hp)]; [done|].
      exists (x :: h), hs, z. split; [done|]. split.
      * destruct h; [done|]. done.
      * split; [|done]. simpl length. lia.
Qed.

Lemma ranks_follow_count l :
  ranks_follow None (map fst l) ->
  Forall (fun g => exists y, last g = Some y /\ rank (fst y) + 1 = N.of_nat (length g))
    (source_sequences l).
Proof.
  destruct l as [|x l]; [constructor|]. intros Hr.
  destruct (ranks_follow_groups None x l Hr) as (g & gs & y & -> & Hlast & Hrank & Hall).
  constructor; [|done]. exists y. split; [done|].
  destruct Hr as [[Hz|(p & [=] & _)] _]. lia.
Qed.

Lemma succeeded_count_all g :
  succeeded_count g = N.of_nat (length g) <-> Forall (fun x => snd x = true) g.
Proof.
  unfold succeeded_count. induction g as [|x g IH]; [by split|].
  rewrite filter_cons, Forall_cons.
  pose proof (length_filter (fun x : W * bool => snd x = true) g) as Hle.
  destruct (decide (snd x = true)) as [Hx|Hx]; simpl.
  - split.
    + intros Heq. split; [done|]. apply IH. lia.
    + intros [_ Hall]. apply IH in Hall. lia.
  - split; [lia|]. by intros [? _].
Qed.

End RatioBounds.

Lemma records_carry_the_fields_of_their_sequence_witness :
  exists c,
    test_collect two_sequences false [true; false; true; true; true] = Ret c tt /\
    map tag_LN (Polish.dst c) = [3; 2].
Proof.
  destruct (@records_carry_the_fields_of_their_sequence _ _ test_window_ops
              ["contig"%string] [3] kC two_sequences [true; false; true; true; true] [] false)
    as (c & Hrun & _ & _).
  - reflexivity.
  - vm_compute. reflexivity.
  - intros w. apply test_ranks_32. repeat constructor.
  - intros w. apply test_ids_known.
  - exists c. split; [exact Hrun|].
    revert Hrun. vm_compute. intros [= <-]. reflexivity.
Defined.

(** ** The harness: where the last runner stops *)

Section HarnessLast.
Context {Sh B : Type}.
Variable fill : Sh -> B -> outcome (Sh * B) (N * N).
Variable has_work : B -> bool.
Variable execute : N * N -> Sh -> B -> outcome (Sh * B) unit.
Variable cursor : Sh -> N.
Variable good : Sh -> Prop.
Variable ready : N * N -> B -> Prop.
Variable stop : N -> Prop.

Local Abbreviation Step := (process_batch_step fill has_work execute).

Hypothesis fill_total : forall sh b, good sh ->
  exists sh' b', fill sh b = Ret (sh', b') (cursor sh, cursor sh') /\ good sh' /\
    (has_work b' = true -> ready (cursor sh, cursor sh') b') /\
    (has_work b' = false -> stop (cursor sh')).
Hypothesis execute_total : forall rg sh b, good sh -> ready rg b ->
  exists sh' b', execute rg sh b = Ret (sh', b') tt /\ good sh' /\ cursor sh' = cursor sh.

Local Abbreviation Stops_last := (stops_last cursor good ready stop).

Lemma step_stops_last i s : Stops_last s -> Stops_last (Step i s).
Proof.
  intros (Hhalt & Hg & Hunits & Hlast). unfold process_batch_step. rewrite Hhalt.
  destruct (sys_units s !! i) as [[b [|rg| |e]]|] eqn:Hunit; try done.
  - destruct (fill_total _ b Hg) as (sh' & b' & -> & Hg' & Hready & Hstop).
    split; [done|]. split; [done|]. simpl. split.
    + apply Forall_insert; [done|]. unfold runner_sound. simpl.
      destruct (has_work b') eqn:Hw; simpl; [by apply Hready|done].
    + intros _ Hall. rewrite Forall_forall in Hall.
      specialize (Hall (b', if has_work b' then Filled (cursor (sys_shared s), cursor sh')
                            else Returned)).
      destruct (has_work b') eqn:Hw; [|by apply Hstop].
      simpl in Hall. discriminate Hall. apply list_elem_of_lookup. exists i.
      apply list_lookup_insert_eq. by eapply lookup_lt_Some.
  - assert (ready rg b) as Hr.
    { rewrite Forall_forall in Hunits.
      apply (Hunits (b, Filled rg)). by eapply list_elem_of_lookup_2. }
    destruct (execute_total rg _ b Hg Hr) as (sh' & b' & -> & Hg' & Heq).
    split; [done|]. split; [done|]. simpl. split; [by apply Forall_insert|].
    intros _ Hall. rewrite Forall_forall in Hall.
    specialize (Hall (b', Idle)). simpl in Hall. discriminate Hall.
    apply list_elem_of_lookup. exists i.
    apply list_lookup_insert_eq. by eapply lookup_lt_Some.
Qed.

Lemma joined_stops_last sched fuel sh (units : list B) s :
  good sh -> units <> [] ->
  run_and_wait fill has_work execute sched fuel (launch sh units) = Some s ->
  sys_halt s = None /\ Forall (fun u => snd u = Returned) (sys_units s) /\
  stop (cursor (sys_shared s)).
Proof.
  intros Hg Hne Hrun.
  pose proof (joined_units_length _ _ _ _ _ _ _ _ Hrun) as Hlen.
  revert Hrun. unfold run_and_wait. destruct (settled _) eqn:Hset; [|done]. intros [= <-].
  match goal with |- context [finish _ _ _ fuel ?s0] => set (s1 := s0) in * end.
  set (s2 := finish fill has_work execute fuel s1) in *.
  assert (Stops_last s2) as (Hhalt & _ & Hunits & Hlast).
  { apply (finish_invariant fill has_work execute Stops_last step_stops_last).
    apply (run_invariant fill has_work execute Stops_last step_stops_last).
    split; [done|]. split; [done|]. simpl. split.
    - apply Forall_forall. intros u Hu. apply list_elem_of_fmap in Hu as (b & -> & _). done.
    - intros _ Hall. destruct units as [|b units]; [done|].
      apply Forall_cons in Hall as [Hb _]. discriminate Hb. }
  assert (Forall (fun u : B * phase => snd u = Returned) (sys_units s2)) as Hret.
  { unfold settled in Hset. rewrite Hhalt in Hset. rewrite forallb_forall in Hset.
    apply Forall_forall. intros u Hu.
    rewrite Forall_forall in Hunits. specialize (Hunits u Hu).
    apply list_elem_of_In in Hu. specialize (Hset u Hu).
    unfold runner_sound in Hunits. by destruct (snd u). }
  split; [done|]. split; [done|]. apply Hlast; [|done].
  intros Hnil. rewrite Hnil in Hlen. destruct units; [done|]. discriminate Hlen.
Qed.
End HarnessLast.

Section FillRefusal.
Context {I B : Type}.
Variable reset_ : B -> B.
Variable add : B -> I -> bool * B.
Variable nonempty : B -> bool.
Variable held : B -> list I.
Context `{!InsertionContract reset_ add nonempty held}.
Variable items : list I.

Local Abbreviation count := (wrap32 (N.of_nat (length items))).

(** A fill that leaves the batch empty has met the end of the
    collection, or an item that the emptied batch refuses. *)
Lemma fill_loop_refusal next b next' b' e :
  next <= count ->
  fill_loop add items count (N.to_nat (count - next)) next (reset_ b) = (next', b', e) ->
  nonempty b' = false ->
  next' = count \/ refused_by_an_empty_batch add held items next'.
Proof.
  intros Hnext Hloop Hempty.
  destruct (fill_loop_contract reset_ add nonempty held items _ _ _ _ _ Hnext Hloop)
    as (_ & _ & _ & _ & Hlen & [?|(it & b0 & Hit & Hadd)] & Hne); [by left|].
  right. exists it, b0, b'. split; [done|]. split; [|done].
  rewrite <- (held_add_refused _ _ _ Hadd).
  destruct (held b') eqn:Hh; [done|].
  assert (nonempty b' = true) as Ht by (apply nonempty_held; by rewrite Hh).
  congruence.
Qed.
End FillRefusal.

(** ** The phases with an item that no batch accepts *)

Section PolishRefusal.
Context {B W E : Type} `{!CUDABatchProcessor B W} `{!WindowOps W E}.
Variable windows_ : list W.
Variable held : B -> list W.
Context `{!InsertionContract reset addWindow hasWindows held}.

Local Abbreviation count := (wrap32 (N.of_nat (length windows_))).
Local Abbreviation Fill := (Polish.fill_next_batch windows_).
Local Abbreviation cursor := Polish.next_window_index.

(** X16: with batch units that return one result per window, on at
    least 20 windows, the accelerator phase of [polish] ends normally
    under every schedule, every runner having left its loop through
    [break], with the cursor at the end of the collection or at a window
    that an emptied batch refuses.  Every window before the cursor has
    been in exactly one executed batch; no window from the cursor on has
    been in any, and the status of each of these is still [false], so
    that the fallback pass recomputes it. *)
Theorem a_refused_window_ends_the_accelerator_phase
  (cuda_batches_ num_devices_ : N) (sched : list nat) :
  results_match held ->
  (20 <= length windows_)%nat -> N.of_nat (length windows_) < 2 ^ 32 ->
  0 < cuda_batches_ -> cuda_batches_ < 2 ^ 32 -> 0 < num_devices_ ->
  exists s,
    Polish.accelerator_phase cuda_batches_ num_devices_ windows_ [] sched = Some (Ret s tt) /\
    Forall (fun u => snd u = Returned) (sys_units s) /\
    cursor (sys_shared s) <= N.of_nat (length windows_) /\
    flat_map indices (sys_launched s) ≡ₚ seq 0 (N.to_nat (cursor (sys_shared s))) /\
    (cursor (sys_shared s) = N.of_nat (length windows_) \/
     refused_by_an_empty_batch addWindow held windows_ (cursor (sys_shared s))) /\
    forall i, (N.to_nat (cursor (sys_shared s)) <= i < length windows_)%nat ->
      Polish.window_consensus_status_ (sys_shared s) !! i = Some false.
Proof.
  intros Hres H20 H32 Hcb Hcb32 Hdev.
  pose proof (logger_step_nonzero windows_ H20 H32) as Hstep.
  pose proof (wrap32_small _ H32) as Hcount.
  unfold Polish.accelerator_phase.
  destruct (batches_created (B := B) num_devices_ cuda_batches_ Hdev Hcb32)
    as (per_gpu & -> & Hunits).
  set (units := Polish.create_batches per_gpu) in *.
  assert (units <> []) as Hne by (intros Hnil; rewrite Hnil in Hunits; simpl in Hunits; lia).
  destruct (polish_runners_finish windows_ held units (resize [] (length windows_) false) sched)
    as (s & Hrun & Hset).
  rewrite Hrun.
  set (good := fun sh : Polish.shared =>
                 cursor sh <= count /\
                 length (Polish.window_consensus_status_ sh) = length windows_).
  set (ready := fun (rg : N * N) (b : B) =>
                  fst rg <= snd rg /\ snd rg <= count /\
                  length (held b) = (N.to_nat (snd rg) - N.to_nat (fst rg))%nat).
  set (stop := fun c : N => c = count \/ refused_by_an_empty_batch addWindow held windows_ c).
  destruct (joined_stops_last Fill hasWindows Polish.launch_workload cursor good ready stop)
    with (sched := sched) (fuel := (2 * length windows_ + 2 * length units)%nat)
         (sh := Polish.MkShared 0 0 0 (resize [] (length windows_) false) [])
         (units := units) (s := s) as (Hhalt & Hret & Hstop).
  - intros sh b [Hg Hlen].
    destruct (fill_next_batch_contract windows_ held sh b Hstep Hg)
      as (sh' & b' & Hfill & Hle & Hbound & _ & Hheld & _ & Hne' & Hst & _).
    exists sh', b'. split; [done|]. split; [split; [done|congruence]|]. split.
    + intros Hw. unfold ready. simpl. split; [done|]. split; done.
    + intros Hw. destruct (fill_next_batch_cases windows_ sh b)
        as (next & b0 & Hloop & [[? _]|[_ (llc & bars & Hfill')]]); [done|].
      rewrite Hfill' in Hfill. injection Hfill as <- <-. simpl.
      exact (fill_loop_refusal reset addWindow hasWindows held windows_
               (cursor sh) b next b0 None Hg Hloop Hw).
  - intros rg sh b [Hg Hlen] (Hle & Hbound & Hheld).
    pose proof (wrap32_lt (N.of_nat (length windows_))).
    pose proof (wrap32_le (N.of_nat (length windows_))).
    destruct (launch_workload_cases rg sh b)
      as [(Hne' & _)|(_ & status' & Hret & Hlen' & _)]; [done|lia|lia| |].
    + rewrite Hres, Hheld, length_indices in Hne'. done.
    + eexists _, _. split; [exact Hret|]. simpl. split; [|done].
      unfold good. simpl. split; [done|congruence].
  - split; simpl; [lia|]. unfold resize. rewrite take_nil, length_app, length_replicate.
    simpl. lia.
  - done.
  - done.
  - rewrite Hhalt. exists s. split; [done|]. split; [done|].
    destruct (accel_inv_joined windows_ units sched _ s Hrun)
      as ((Hch & Hcur & Hsub & Hlen & Hwr & Hval & Hfalse) & _).
    rewrite Hcount in Hcur. split; [done|].
    assert (flat_map indices (sys_launched s) ≡ₚ seq 0 (N.to_nat (cursor (sys_shared s))))
      as Hperm.
    { replace (seq 0 (N.to_nat (cursor (sys_shared s))))
        with (flat_map indices (sys_issued s)).
      2:{ rewrite (chained_indices _ _ _ Hch). change (N.to_nat 0) with 0%nat.
          by rewrite Nat.sub_0_r. }
      apply (joined_launched_exact Fill hasWindows Polish.launch_workload)
        with (sched := sched) (fuel := (2 * length windows_ + 2 * length units)%nat)
             (sh := Polish.MkShared 0 0 0 (resize [] (length windows_) false) [])
             (units := units); [|done|done].
      intros sh b sh' b' rg. by apply polish_fill_idle_empty with (held := held). }
    split; [done|]. split.
    { unfold stop in Hstop. by rewrite Hcount in Hstop. }
    intros i [Hi Hn]. apply Hfalse; [done|]. intros Hin.
    assert (i ∈ flat_map indices (sys_launched s)) as Hin'
      by (eapply elem_of_submseteq; [exact Hin|exact Hwr]).
    rewrite Hperm in Hin'. apply elem_of_seq in Hin'. lia.
Qed.
End PolishRefusal.

Section OverlapsRefusal.
Context {B O : Type} `{!CUDABatchAligner B O}.
Variable overlaps : list O.
Variable window_length_ : N.
Variable held : B -> list O.
Context `{!InsertionContract aligner_reset addOverlap hasOverlaps held}.

Local Abbreviation count := (wrap32 (N.of_nat (length overlaps))).
Local Abbreviation Fill := (Overlaps.fill_next_batch overlaps).
Local Abbreviation cursor := Overlaps.next_overlap_index.

(** X17: whatever the capacity of the aligner units,
    [find_overlap_breaking_points] returns under every schedule, every
    runner having left its loop through [break], with the cursor at the
    end of the collection or at an overlap that an emptied batch refuses.
    Every overlap before the cursor has been in exactly one executed
    batch and no overlap from the cursor on has been in any; the host
    pass receives the whole collection in either case. *)
Theorem a_refused_overlap_ends_the_aligner_phase (cuda_batches_ : N) (sched : list nat) :
  0 < cuda_batches_ -> N.of_nat (length overlaps) < 2 ^ 32 ->
  exists report,
    Overlaps.find_overlap_breaking_points overlaps window_length_ cuda_batches_ sched
      = Some report /\
    sys_halt (Overlaps.accelerator report) = None /\
    Forall (fun u => snd u = Returned) (sys_units (Overlaps.accelerator report)) /\
    cursor (sys_shared (Overlaps.accelerator report)) <= N.of_nat (length overlaps) /\
    flat_map indices (sys_launched (Overlaps.accelerator report))
      ≡ₚ seq 0 (N.to_nat (cursor (sys_shared (Overlaps.accelerator report)))) /\
    (cursor (sys_shared (Overlaps.accelerator report)) = N.of_nat (length overlaps) \/
     refused_by_an_empty_batch addOverlap held overlaps
       (cursor (sys_shared (Overlaps.accelerator report)))) /\
    Overlaps.host_pass report = overlaps.
Proof.
  intros Hcb H32. pose proof (wrap32_small _ H32) as Hcount.
  unfold Overlaps.find_overlap_breaking_points.
  set (units := Overlaps.create_aligners cuda_batches_).
  assert (units <> []) as Hne.
  { unfold units, Overlaps.create_aligners.
    destruct (N.to_nat cuda_batches_) eqn:Hn; [lia|done]. }
  destruct (overlaps_runners_finish overlaps window_length_ held units sched)
    as (s & Hrun & Hset).
  rewrite Hrun. eexists. split; [reflexivity|]. simpl.
  set (good := fun sh : Overlaps.shared => cursor sh <= count).
  set (ready := fun (rg : N * N) (b : B) => True).
  set (stop := fun c : N => c = count \/ refused_by_an_empty_batch addOverlap held overlaps c).
  destruct (joined_stops_last Fill hasOverlaps (Overlaps.launch_workload window_length_)
              cursor good ready stop)
    with (sched := sched) (fuel := (2 * length overlaps + 2 * length units)%nat)
         (sh := Overlaps.MkShared 0 []) (units := units) (s := s) as (Hhalt & Hret & Hstop).
  - intros sh b Hg.
    destruct (overlaps_fill_contract overlaps held sh b Hg)
      as (sh' & b' & Hfill & Hle & Hbound & _ & _ & _).
    exists sh', b'. split; [done|]. split; [done|]. split; [done|].
    intros Hw.
    destruct (overlaps_fill_returns overlaps sh b) as (next & b0 & lines & Hloop & Hfill').
    rewrite Hfill' in Hfill. injection Hfill as <- <-. simpl.
    exact (fill_loop_refusal aligner_reset addOverlap hasOverlaps held overlaps
             (cursor sh) b next b0 None Hg Hloop Hw).
  - intros rg sh b Hg _. eexists _, _. split; [reflexivity|]. done.
  - unfold good. simpl. lia.
  - done.
  - done.
  - split; [done|]. split; [done|].
    destruct (overlaps_joined overlaps window_length_ units sched _ s Hrun) as (Hch & _ & _).
    pose proof (chained_le _ _ _ Hch) as Hpos.
    assert (cursor (sys_shared s) <= count) as Hcur.
    { apply (joined_invariant_any Fill hasOverlaps (Overlaps.launch_workload window_length_)
               (fun s => cursor (sys_shared s) <= count)) in Hrun; [done| |simpl; lia].
      intros i s0 Hs0. unfold process_batch_step.
      destruct (sys_halt s0); [done|].
      destruct (sys_units s0 !! i) as [[b [|rg| |e]]|]; try done; simpl.
      destruct (overlaps_fill_contract overlaps held (sys_shared s0) b Hs0)
        as (sh' & b' & -> & _ & Hb & _). done. }
    rewrite Hcount in Hcur. split; [done|]. split.
    { replace (seq 0 (N.to_nat (cursor (sys_shared s))))
        with (flat_map indices (sys_issued s)).
      2:{ rewrite (chained_indices _ _ _ Hch). change (N.to_nat 0) with 0%nat.
          by rewrite Nat.sub_0_r. }
      apply (joined_launched_exact Fill hasOverlaps (Overlaps.launch_workload window_length_))
        with (sched := sched) (fuel := (2 * length overlaps + 2 * length units)%nat)
             (sh := Overlaps.MkShared 0 []) (units := units); [|done|done].
      intros sh b sh' b' rg. by apply (overlaps_fill_idle_empty overlaps) with (held := held). }
    split; [|done]. unfold stop in Hstop. by rewrite Hcount in Hstop.
Qed.
End OverlapsRefusal.

(** ** The constructor *)

Section ConstructorFacts.
Context {R : Type} `{!CudaRuntime R}.

Lemma and_then_ret {S A C : Type} (first : outcome S A) (next : S -> A -> outcome S C) s c :
  and_then first next = Ret s c ->
  exists s1 a, first = Ret s1 a /\ next s1 a = Ret s c.
Proof. destruct first; try done. simpl. eauto. Qed.

Lemma on_runtime_ret {A : Type} (call : R -> outcome R A) st st' a :
  on_runtime call st = Ret st' a -> snd st' = snd st.
Proof.
  unfold on_runtime. destruct (call (fst st)); try done. by intros [= <- _].
Qed.

(** The loop that returns has announced the devices in order. *)
Lemma initialize_devices_ret todo dev_id st st' :
  initialize_devices todo dev_id st = Ret st' tt ->
  snd st' = snd st ++ map (fun k => Initialize_device (dev_id + Z.of_nat k)) (seq 0 todo).
Proof.
  revert dev_id st. induction todo as [|todo IH]; intros dev_id st.
  - simpl. intros [= <-]. by rewrite app_nil_r.
  - cbn [initialize_devices].
    intros (st1 & [] & Hset & Hrest)%and_then_ret.
    apply and_then_ret in Hrest as (st2 & [] & Hfree & Hrest).
    apply IH in Hrest. apply on_runtime_ret in Hset, Hfree. simpl in Hset.
    rewrite Hrest, Hfree, Hset, <- app_assoc. f_equal. cbn [seq map app].
    rewrite Z.add_0_r. f_equal. rewrite <- fmap_S_seq.
    change (map ?f (S <$> ?l)) with (f <$> (S <$> l)). rewrite <- list_fmap_compose.
    apply list_fmap_ext. intros _ k _. simpl. f_equal. lia.
Qed.

(** X18: the constructor needs a device.  If the device count that
    [cudaGetDeviceCount] stores is below 1, the constructor raises
    "No GPU devices found." before it has written a line or selected a
    device.  If the constructor returns, it has stored a device count of
    at least 1 together with its argument [cuda_batches], and has written
    the number of devices, then one line per device in increasing order
    from 0, then "Constructed"; the binning loop of [polish] on these
    members then returns, with one batch unit per configured batch. *)
Theorem the_constructor_needs_a_device {B W : Type} `{!CUDABatchProcessor B W}
  (cuda_batches : N) (gap mismatch match' : Z) (banded : bool) (r : R) :
  cuda_batches < 2 ^ 32 ->
  (forall r1 r2 r3 n,
     cudapoa_Init r = Ret r1 tt -> cudaaligner_Init r1 = Ret r2 tt ->
     cudaGetDeviceCount r2 = Ret r3 n -> (n < 1)%Z ->
     CUDAPolisher_constructor cuda_batches gap mismatch match' banded r
       = Throw (r3, []) (runtime_error "No GPU devices found.")) /\
  (forall st p,
     CUDAPolisher_constructor cuda_batches gap mismatch match' banded r = Ret st p ->
     (1 <= num_devices_ p)%Z /\ cuda_batches_ p = cuda_batches /\
     snd st = Using_GPUs (num_devices_ p)
              :: map (fun k => Initialize_device (Z.of_nat k))
                   (seq 0 (Z.to_nat (num_devices_ p)))
              ++ [Constructed] /\
     exists per_gpu,
       Polish.bin_batches (Z.to_N (num_devices_ p)) (N.to_nat (cuda_batches_ p)) 0
         (replicate (N.to_nat (Z.to_N (num_devices_ p))) 0) = Ret per_gpu tt /\
       length (Polish.create_batches (B := B) per_gpu) = N.to_nat (cuda_batches_ p)).
Proof.
  intros H32. split.
  - intros r1 r2 r3 n H1 H2 H3 Hn. unfold CUDAPolisher_constructor, on_runtime. simpl.
    rewrite H1. simpl. rewrite H2. simpl. rewrite H3. simpl.
    destruct (Z.ltb_spec n 1); [done|lia].
  - intros st p. unfold CUDAPolisher_constructor.
    intros (st1 & [] & Hpoa & Hrest)%and_then_ret.
    apply and_then_ret in Hrest as (st2 & [] & Hal & Hrest).
    apply and_then_ret in Hrest as (st3 & n & Hcount & Hrest).
    apply on_runtime_ret in Hpoa, Hal, Hcount. simpl in Hpoa.
    destruct (Z.ltb_spec n 1) as [|Hn]; [done|].
    apply and_then_ret in Hrest as (st4 & [] & Hinit & Hrest).
    apply initialize_devices_ret in Hinit. simpl in Hinit.
    injection Hrest as <- <-. simpl.
    split; [lia|]. split; [done|]. split.
    + rewrite Hinit, Hcount, Hal, Hpoa. simpl. done.
    + apply batches_created; [lia|done].
Qed.
End ConstructorFacts.

Lemma the_constructor_needs_a_device_witness :
  @CUDAPolisher_constructor _ (test_runtime 0) 2 (-4) (-6) 3 false []
    = Throw ([], []) (runtime_error "No GPU devices found.") /\
  exists st p,
    @CUDAPolisher_constructor _ (test_runtime 2) 3 (-4) (-6) 3 false [] = Ret st p /\
    (1 <= num_devices_ p)%Z.
Proof.
  split.
  - apply (proj1 (@the_constructor_needs_a_device _ (test_runtime 0) _ _ (test_processor 1 0)
                    2 (-4) (-6) 3 false [] ltac:(lia)) [] [] [] 0%Z);
      [reflexivity|reflexivity|reflexivity|lia].
  - eexists _, _. split; [reflexivity|].
    apply (proj2 (@the_constructor_needs_a_device _ (test_runtime 2) _ _ (test_processor 1 0)
                    3 (-4) (-6) 3 false [] ltac:(lia)) _ _ eq_refl).
Defined.

(** ** The fallback tasks in any order *)

Section FallbackOrder.
Context {W E : Type} `{!WindowOps W E}.
Variable windows_ : list W.
Variable thread_to_id_ : gmap nat N.
Variable alignment_engines_ : list E.
Variable worker_of : nat -> nat.

Local Abbreviation Host := (host_result windows_ thread_to_id_ alignment_engines_ worker_of).
Local Abbreviation Tasks :=
  (Polish.run_tasks windows_ thread_to_id_ alignment_engines_ worker_of).

End FallbackOrder.

(** ** The stub collaborators meet the hypotheses *)

Lemma test_windows_ranks n accel host w :
  N.of_nat n < 2 ^ 32 -> w ∈ test_windows n accel host -> rank w + 1 < 2 ^ 32.
Proof.
  intros Hn Hw. unfold test_windows in Hw.
  apply list_elem_of_fmap in Hw as (k & -> & Hk%elem_of_seq). simpl. lia.
Qed.

Lemma test_windows_ids n accel host w :
  w ∈ test_windows n accel host ->
  is_Some (["contig"%string] !! N.to_nat (id w)) /\ is_Some ([3] !! N.to_nat (id w)).
Proof.
  intros Hw. unfold test_windows in Hw.
  apply list_elem_of_fmap in Hw as (k & -> & _). simpl. split; by eexists.
Qed.

Lemma one_context_present j : is_Some (one_context !! on_thread_7 j).
Proof. unfold one_context, on_thread_7. rewrite lookup_singleton_eq. by eexists. Qed.




Lemma the_records_hold_every_window_text_witness :
  exists c,
    test_collect two_sequences false [true; false; true; true; true] = Ret c tt /\
    record_texts (Polish.dst c) = "abcde"%string.
Proof.
  destruct (@the_records_hold_every_window_text _ _ test_window_ops
              ["contig"%string] [3] kC two_sequences [true; false; true; true; true] [] false)
    as (c & Hrun & Htexts).
  - reflexivity.
  - vm_compute. reflexivity.
  - intros w. apply test_ranks_32. repeat constructor.
  - intros w. apply test_ids_known.
  - reflexivity.
  - exists c. split; [exact Hrun|exact Htexts].
Defined.


Lemma a_refused_window_ends_the_accelerator_phase_witness :
  exists s,
    test_accelerator_phase 0 0 1 twenty_windows [] = Some (Ret s tt) /\
    Polish.next_window_index (sys_shared s) <= 20.
Proof.
  destruct (@a_refused_window_ends_the_accelerator_phase _ _ (test_processor 0 0)
              twenty_windows (fun b => b) (test_processor_contract 0 0) 1 1 [])
    as (s & Hrun & _ & Hcur & _).
  - apply test_processor_results_match.
  - simpl. lia.
  - simpl. lia.
  - lia.
  - lia.
  - lia.
  - exists s. split; [exact Hrun|exact Hcur].
Defined.

Lemma a_refused_overlap_ends_the_aligner_phase_witness :
  exists report,
    @Overlaps.find_overlap_breaking_points _ _ (test_aligner 0) [10; 11; 12]%nat 500 1 []
      = Some report /\
    Overlaps.host_pass report = [10; 11; 12]%nat.
Proof.
  destruct (@a_refused_overlap_ends_the_aligner_phase _ _ (test_aligner 0) [10; 11; 12]%nat 500
              (fun b => b) (test_aligner_contract 0) 1 [])
    as (report & Hrun & _ & _ & _ & _ & _ & Hhost).
  - lia.
  - simpl. lia.
  - exists report. split; [exact Hrun|exact Hhost].
Defined.

Lemma no_exception_leaves_polish_witness :
  (exists st, test_polish 20 1 1 twenty_windows false [] = Some (Ret st tt)) /\
  ((exists st, @Undefined (list bool * list Sequence) unit = Ret st tt) \/
   @Undefined (list bool * list Sequence) unit = Undefined \/
   (exists c, @Undefined (list bool * list Sequence) unit = Exit c)).
Proof.
  split.
  - eexists. vm_compute. reflexivity.
  - apply (@no_exception_leaves_polish _ _ _ (test_processor 2 0) test_window_ops
             five_windows ["contig"%string] [3] kC one_context [tt] 2 1 on_thread_7 [] false []).
    vm_compute. reflexivity.
Defined.
(** ** [polish] on fewer than 20 windows *)

Section PolishSmall.
Context {B W E : Type} `{!CUDABatchProcessor B W} `{!WindowOps W E}.
Variable windows_ : list W.
Variable sequences_ : list string.
Variable targets_coverages_ : list N.
Variable type_ : PolisherType.
Variable thread_to_id_ : gmap nat N.
Variable alignment_engines_ : list E.

Local Abbreviation Fill := (Polish.fill_next_batch windows_).
Local Abbreviation Work := Polish.launch_workload.

(** The first runner that acts stops the process, and some runner does
    act before the main thread gets past its [wait]. *)
Lemma small_collection_settles (units : list B) status sched fuel :
  (length windows_ < 20)%nat -> units <> [] ->
  exists s,
    run_and_wait Fill hasWindows Work sched (S fuel)
      (launch (Polish.MkShared 0 0 0 status []) units) = Some s /\
    sys_halt s = Some HaltUndefined.
Proof.
  intros Hsmall Hunits.
  set (Q := fun s : sys Polish.shared B =>
              length (sys_units s) = length units /\
              ((sys_halt s = None /\ Forall (fun u => snd u = Idle) (sys_units s)) \/
               sys_halt s = Some HaltUndefined)).
  assert (forall i s, Q s -> Q (process_batch_step Fill hasWindows Work i s)) as Hkeep.
  { intros i s (Hlen & Hcase). unfold process_batch_step.
    destruct Hcase as [[Hhalt Hidle]|Hhalt]; rewrite Hhalt; [|by split; auto].
    destruct (sys_units s !! i) as [[b p]|] eqn:Hunit; [|by split; auto].
    assert (p = Idle) as ->.
    { rewrite Forall_forall in Hidle. apply (Hidle (b, p)). by eapply list_elem_of_lookup_2. }
    rewrite (fill_small_collection_undefined windows_) by done.
    split; simpl; auto. }
  set (s1 := run Fill hasWindows Work sched (launch (Polish.MkShared 0 0 0 status []) units)).
  assert (Q s1) as (Hlen & Hcase).
  { apply run_invariant; [exact Hkeep|]. split; simpl; [by rewrite length_map|].
    left. split; [done|]. apply Forall_forall. intros u Hu.
    apply list_elem_of_fmap in Hu as (b & -> & _). done. }
  assert (exists s, finish Fill hasWindows Work (S fuel) s1 = s /\
                    sys_halt s = Some HaltUndefined) as (s & Hs & Hhalt).
  { cbn [finish]. destruct Hcase as [[Hnone Hidle]|Hhalt].
    - rewrite Hnone. destruct (next_runner s1) as [i|] eqn:Hnext.
      + destruct (next_runner_some _ _ Hnext) as (b & p & Hunit & _).
        assert (p = Idle) as ->.
        { rewrite Forall_forall in Hidle. apply (Hidle (b, p)).
          by eapply list_elem_of_lookup_2. }
        eexists. split; [reflexivity|].
        assert (process_batch_step Fill hasWindows Work i s1
                = MkSys (sys_shared s1) (sys_units s1) (Some HaltUndefined)
                    (sys_issued s1) (sys_launched s1)) as ->.
        { unfold process_batch_step. rewrite Hnone, Hunit.
          by rewrite (fill_small_collection_undefined windows_). }
        by destruct fuel.
      + apply next_runner_none in Hnext.
        destruct (sys_units s1) as [|[b p] rest] eqn:Hu.
        * destruct units; [done|]. discriminate Hlen.
        * apply Forall_cons in Hidle as [Hp _]. simpl in Hp. subst p. discriminate Hnext.
    - rewrite Hhalt. eauto. }
  exists s. split; [|done]. unfold run_and_wait. fold s1. rewrite Hs.
  unfold settled. by rewrite Hhalt.
Qed.

(** X20: on fewer than 20 windows, the empty collection included,
    [polish] with at least one batch on a machine with a device has no
    defined behaviour, whatever the batch units, the schedule of the
    runners and the pool: the first call of the filler divides by the
    zero [logger_step]. *)
Theorem polish_is_undefined_below_twenty_windows (cuda_batches_ num_devices_ : N)
  (worker_of : nat -> nat) (dst0 : list Sequence) (drop : bool) (sched : list nat) :
  (length windows_ < 20)%nat ->
  0 < cuda_batches_ -> cuda_batches_ < 2 ^ 32 -> 0 < num_devices_ ->
  Polish.logger_step windows_ = 0 /\
  Polish.accelerator_phase (B := B) cuda_batches_ num_devices_ windows_ [] sched
    = Some Undefined /\
  Polish.polish (B := B) cuda_batches_ num_devices_ windows_ sequences_ targets_coverages_
    type_ thread_to_id_ alignment_engines_ dst0 drop sched worker_of
    = Some Undefined.
Proof.
  intros Hsmall Hcb Hcb32 Hdev.
  assert (Polish.accelerator_phase (B := B) cuda_batches_ num_devices_ windows_ [] sched
          = Some Undefined) as Hacc.
  { unfold Polish.accelerator_phase.
    destruct (batches_created (B := B) num_devices_ cuda_batches_ Hdev Hcb32)
      as (per_gpu & -> & Hunits).
    set (units := Polish.create_batches per_gpu) in *.
    assert (units <> []) as Hne
      by (intros Hnil; rewrite Hnil in Hunits; simpl in Hunits; lia).
    assert (exists fuel, (2 * length windows_ + 2 * length units = S fuel)%nat) as [fuel ->].
    { exists (2 * length windows_ + 2 * length units - 1)%nat.
      destruct units; [done|]. simpl. lia. }
    destruct (small_collection_settles units (resize [] (length windows_) false) sched fuel
                Hsmall Hne) as (s & -> & ->). done. }
  split; [by apply logger_step_zero|]. split; [done|].
  unfold Polish.polish, Polish.polish_from. by rewrite Hacc.
Qed.
End PolishSmall.

Lemma polish_is_undefined_below_twenty_windows_witness :
  test_polish 2 0 2 five_windows false [1; 0]%nat = Some Undefined.
Proof.
  apply (@polish_is_undefined_below_twenty_windows _ _ _ (test_processor 2 0) test_window_ops
           five_windows ["contig"%string] [3] kC one_context [tt] 2 1 on_thread_7 [] false
           [1; 0]%nat); [simpl; lia|lia|lia|lia].
Defined.
